(** * Incremental reconciliation of the Linear and Notion sync scripts

    A shallow embedding of
    [PM Copilot/Scripts/fetch_linear_updates_since_last_sync.py]
    (batch files, merge, re-batching, status document) and of the status
    document update of
    [PM Copilot/Scripts/fetch_notion_incremental_updates.py],
    followed by the properties of the reconciliation engine.

    Text is a list of bytes: a Python [str] is represented by its UTF-8
    encoding.  White space, line boundaries and decimal digits are the
    ASCII ones, so the embedding is exact for every text whose non-ASCII
    characters are neither white space, line boundaries nor digits. *)

From Stdlib Require Import ZArith Ascii String DecimalString DecimalN DecimalPos.
From stdpp Require Import base tactics option list numbers gmap strings sorting.

Local Open Scope Z_scope.
Local Open Scope nat_scope.

(** ** Python primitives on text and lists *)

Module Py.

Definition str := list ascii.

(** A literal. Rocq literals have no escape sequences; line feeds are
    spelled with [LF]. *)
Definition lit (x : string) : str := list_ascii_of_string x.
Arguments lit x%_string.

Definition LF : ascii := ascii_of_nat 10.
Definition CR : ascii := ascii_of_nat 13.

Definition code (c : ascii) : nat := nat_of_ascii c.

(** [str.isspace] on ASCII: TAB, LF, VT, FF, CR, FS, GS, RS, US, SPACE. *)
Definition is_space (c : ascii) : bool :=
  ((9 <=? code c) && (code c <=? 13)) || ((28 <=? code c) && (code c <=? 32)).

(** The line boundaries of [str.splitlines]: LF, VT, FF, CR, FS, GS, RS. *)
Definition is_linebreak (c : ascii) : bool :=
  ((10 <=? code c) && (code c <=? 13)) || ((28 <=? code c) && (code c <=? 30)).

(** [\d] on ASCII. *)
Definition is_digit (c : ascii) : bool :=
  (48 <=? code c) && (code c <=? 57).

Fixpoint drop_while {A} (p : A → bool) (l : list A) : list A :=
  match l with
  | [] => []
  | x :: l' => if p x then drop_while p l' else l
  end.

Fixpoint take_while {A} (p : A → bool) (l : list A) : list A :=
  match l with
  | [] => []
  | x :: l' => if p x then x :: take_while p l' else []
  end.

(** [s.lstrip()], [s.rstrip()], [s.strip()] *)
Definition lstrip (s : str) : str := drop_while is_space s.
Definition rstrip (s : str) : str := reverse (drop_while is_space (reverse s)).
Definition strip (s : str) : str := rstrip (lstrip s).

(** [s.startswith(p)] *)
Fixpoint startswith (p s : str) : bool :=
  match p, s with
  | [], _ => true
  | _ :: _, [] => false
  | a :: p', b :: s' => if decide (a = b) then startswith p' s' else false
  end.

(** [p in s] for text *)
Fixpoint contains (p s : str) : bool :=
  startswith p s ||
  match s with
  | [] => false
  | _ :: s' => contains p s'
  end.

(** [s.find(p)]: the index of the first occurrence, [None] for [-1]. *)
Fixpoint find (p s : str) : option nat :=
  if startswith p s then Some 0
  else
    match s with
    | [] => None
    | _ :: s' => S <$> find p s'
    end.

(** [s.endswith(p)] *)
Definition endswith (p s : str) : bool := startswith (reverse p) (reverse s).

(** [s.splitlines()] *)
Fixpoint splitlines (s : str) : list str :=
  match s with
  | [] => []
  | c :: s' =>
      if is_linebreak c then
        [] :: match s' with
              | c' :: s'' =>
                  if decide (c = CR ∧ c' = LF) then splitlines s''
                  else splitlines s'
              | [] => []
              end
      else
        match splitlines s' with
        | [] => [[c]]
        | l :: ls => (c :: l) :: ls
        end
  end.

(** [sep.join(parts)] *)
Fixpoint join (sep : str) (parts : list str) : str :=
  match parts with
  | [] => []
  | [p] => p
  | p :: ps => p ++ sep ++ join sep ps
  end.

(** [s.split(sep)] for a non-empty separator: the pieces between the
    non-overlapping occurrences of [sep], found from left to right.
    [skip] counts the bytes of an occurrence still to be passed over. *)
Fixpoint split_from (sep : str) (skip : nat) (s : str) : list str :=
  match s with
  | [] => [[]]
  | c :: s' =>
      match skip with
      | S k => split_from sep k s'
      | O =>
          if startswith sep s then [] :: split_from sep (length sep - 1) s'
          else
            match split_from sep 0 s' with
            | [] => [[c]]
            | p :: ps => (c :: p) :: ps
            end
      end
  end.

Definition split (sep s : str) : list str := split_from sep 0 s.

(** [s.split(sep, 1)]: cut at the first occurrence only. *)
Fixpoint split1 (sep s : str) : list str :=
  match s with
  | [] => [[]]
  | c :: s' =>
      if startswith sep s then [[]; drop (length sep) s]
      else
        match split1 sep s' with
        | [p] => [c :: p]
        | p :: ps => (c :: p) :: ps
        | [] => [[c]]
        end
  end.

(** [xs.index(x)] *)
Fixpoint index {A} `{EqDecision A} (x : A) (l : list A) : option nat :=
  match l with
  | [] => None
  | y :: l' => if decide (y = x) then Some 0 else S <$> index x l'
  end.

(** [xs.insert(i, x)]; an index past the end appends. *)
Definition list_insert_at {A} (i : nat) (x : A) (l : list A) : list A :=
  take i l ++ x :: drop i l.

(** [xs.pop(i)] for [i] in range, as far as the remaining list goes. *)
Definition list_pop {A} (i : nat) (l : list A) : list A :=
  take i l ++ drop (S i) l.

(** [int(s)] for a run of decimal digits. *)
Definition digit_value (c : ascii) : Z := Z.of_nat (code c) - 48.
Definition int_of_digits (s : str) : Z :=
  foldl (λ acc c, 10 * acc + digit_value c)%Z 0%Z s.

(** [str(n)] for a natural number. *)
Definition str_of_nat (n : nat) : str :=
  lit (NilEmpty.string_of_uint (Nat.to_uint n)).

End Py.

(** ** The regular expressions of the scripts *)

Module Re.
Import Py.

(** [re.split(r"[-_]", s)]: cut at every byte of the class. *)
Definition is_dash_or_underscore (c : ascii) : bool :=
  bool_decide (c = "-"%char) || bool_decide (c = "_"%char).

Fixpoint split_class (p : ascii → bool) (s : str) : list str :=
  match s with
  | [] => [[]]
  | c :: s' =>
      if p c then [] :: split_class p s'
      else
        match split_class p s' with
        | [] => [[c]]
        | q :: qs => (c :: q) :: qs
        end
  end.

(** [re.search(r"\d+", s)]: the leftmost, longest run of digits. *)
Fixpoint search_digits (s : str) : option str :=
  match s with
  | [] => None
  | c :: s' =>
      if is_digit c then Some (c :: take_while is_digit s')
      else search_digits s'
  end.

(** The class [[0-9T:\-]]. *)
Definition is_stamp_char (c : ascii) : bool :=
  is_digit c || bool_decide (c = "T"%char) || bool_decide (c = ":"%char)
  || bool_decide (c = "-"%char).

Definition label_token (label : str) : str := lit "`" ++ label ++ lit "`".

(** A match of [`label`:\s*([0-9T:\-]+Z)] at the very start of [s], for a
    label of plain letters: the length of the match and group 1.  No
    byte of the class is white space and [Z] is outside the class, so the
    greedy match is the only one. *)
Definition match_field (label : str) (s : str) : option (nat * str) :=
  let head := label_token label ++ lit ":" in
  if startswith head s then
    let after_head := drop (length head) s in
    let spaces := take_while is_space after_head in
    let after_spaces := drop_while is_space after_head in
    let run := take_while is_stamp_char after_spaces in
    match run, drop_while is_stamp_char after_spaces with
    | _ :: _, c :: _ =>
        if decide (c = "Z"%char)
        then Some (length head + length spaces + length run + 1,
                   run ++ lit "Z")
        else None
    | _, _ => None
    end
  else None.

(** [re.search(pattern, s).group(1)] *)
Fixpoint search_field (label : str) (s : str) : option str :=
  match match_field label s with
  | Some (_, g) => Some g
  | None =>
      match s with
      | [] => None
      | _ :: s' => search_field label s'
      end
  end.

(** [re.sub(pattern, repl, s)] without the capture group: every match,
    from left to right, is replaced by [repl]; [skip] counts the bytes
    of a match still to be passed over. *)
Fixpoint sub_field_from (label repl : str) (skip : nat) (s : str) : str :=
  match s with
  | [] => []
  | c :: s' =>
      match skip with
      | S k => sub_field_from label repl k s'
      | O =>
          match match_field label s with
          | Some (n, _) => repl ++ sub_field_from label repl (n - 1) s'
          | None => c :: sub_field_from label repl 0 s'
          end
      end
  end.

Definition sub_field (label repl s : str) : str :=
  sub_field_from label repl 0 s.

End Re.

(** ** Dates and times

    A [datetime] is an instant in UTC, counted in microseconds from
    1 January 1970; earlier instants are outside the model.  The
    formatting and parsing of the Python library are not part of the
    repository; the scripts reach them through the two operations of this
    interface. *)

Definition datetime := N.

Class Datetime := {
  (** [dt.astimezone(utc).replace(tzinfo=utc).isoformat(timespec="seconds")] *)
  isoformat_seconds : datetime → Py.str;
  (** [datetime.fromisoformat(value)], a naive result taken as UTC, then
      [astimezone(utc)]; [None] stands for the [ValueError] of the library. *)
  fromisoformat_utc : Py.str → option datetime;
}.

(** Dropping the microseconds, as [timespec="seconds"] does. *)
Definition whole_seconds (t : datetime) : datetime := (t / 1000000 * 1000000)%N.

(** What the scripts rely on: the library prints the instant cut to whole
    seconds with the bytes of [[0-9T:\-]] and the offset [+00:00], reads it
    back, and reads no fraction of a second where the text has none. *)
Class DatetimeLaws `{Datetime} : Prop := {
  isoformat_shape : ∀ t, ∃ stamp,
    isoformat_seconds t = stamp ++ Py.lit "+00:00" ∧ stamp ≠ [] ∧
    Forall (λ c, Re.is_stamp_char c = true) stamp;
  isoformat_roundtrip : ∀ t,
    fromisoformat_utc (isoformat_seconds t) = Some (whole_seconds t);
  fromisoformat_whole : ∀ stamp t,
    Forall (λ c, Re.is_stamp_char c = true) stamp →
    fromisoformat_utc (stamp ++ Py.lit "+00:00") = Some t →
    whole_seconds t = t;
}.

(** ** What both scripts share

    [parse_iso_datetime], [format_iso_timestamp] and the loops of
    [update_status_doc] are written out in each script (the Notion script
    imports [format_iso_timestamp] from fetch_notion_docs.py), with the same
    text. *)

Module Status.
Import Py.

Section WithDatetime.
Context `{Datetime}.

(** [s.replace(old, new)] *)
Definition replace (old new s : str) : str := join new (split old s).

Definition format_iso_timestamp (dt : datetime) : str :=
  replace (lit "+00:00") (lit "Z") (isoformat_seconds dt).

Definition parse_iso_datetime (value : str) : option datetime :=
  fromisoformat_utc
    (if endswith (lit "Z") value
     then take (length value - 1) value ++ lit "+00:00"
     else value).
End WithDatetime.

Definition is_blank (line : str) : bool := bool_decide (strip line = []).

(** [lines[i].strip().startswith("- ")] *)
Definition is_entry (line : str) : bool := startswith (lit "- ") (strip line).

(** [lines[i].strip() and lines[i].lstrip().startswith("- ")] *)
Definition is_further_entry (line : str) : bool :=
  negb (is_blank line) && startswith (lit "- ") (lstrip line).

(** [while i < len(lines) and lines[i].strip() == '': i += 1] *)
Definition skip_blank (lines : list str) (i : nat) : nat :=
  i + length (take_while is_blank (drop i lines)).

(** [while i < len(lines) and p(lines[i]): lines.pop(i)] *)
Definition pop_while (p : str → bool) (lines : list str) (i : nat) : list str :=
  take i lines ++ drop_while p (drop i lines).

(** The first loop of [update_status_doc]: the first line holding the
    label token gets every timestamp field in it rewritten. *)
Fixpoint replace_timestamp (label repl : str) (lines : list str)
  : option (list str) :=
  match lines with
  | [] => None
  | line :: rest =>
      if contains (Re.label_token label) line
      then Some (Re.sub_field label repl line :: rest)
      else (line ::.) <$> replace_timestamp label repl rest
  end.

End Status.

(** ** fetch_linear_updates_since_last_sync.py *)

Module Linear.
Import Py Status.

Definition BATCH_SIZE : nat := 50.

(** The line [---] between two issues: LF, three dashes, LF, LF. *)
Definition DELIMITER : str := LF :: lit "---" ++ [LF; LF].

Definition TIMESTAMP_LABEL : str := lit "lastSyncTimestamp".
Definition DAILY_SUMMARIES : str := lit "## Daily Summaries".

(** *** Errors *)

Inductive message :=
| ApiKeyNotSet            (* LINEAR_API_KEY is not set. *)
| StatusDocNotFound       (* Status doc not found at ... *)
| TimestampNotLocated     (* Could not locate `lastSyncTimestamp` in status doc. *)
| RemoteFailure           (* raised by the GraphQL requests *)
| UnexpectedFormat (batch_num : nat)  (* Unexpected format in <path> *)
| LabelNotLocated         (* Failed to locate `lastSyncTimestamp` in status doc. *)
| SectionNotLocated.      (* Could not locate '## Daily Summaries' section. *)

Inductive exn :=
| LinearSyncError (m : message)
| ValueError.

Inductive result (A : Type) :=
| Ok (a : A)
| Raise (e : exn).
Arguments Ok {A} a.
Arguments Raise {A} e.

#[export] Instance result_ret : MRet result := λ A a, Ok a.
#[export] Instance result_bind : MBind result := λ A B k r,
  match r with
  | Ok a => k a
  | Raise e => Raise e
  end.

(** *** Issue entries and their sort key *)

Record IssueEntry := { identifier : str; content : str }.

#[export] Instance IssueEntry_inhabited : Inhabited IssueEntry :=
  populate {| identifier := []; content := [] |}.

#[export] Instance IssueEntry_eq_dec : EqDecision IssueEntry.
Proof. solve_decision. Defined.

(** [int(1e12)] *)
Definition NO_NUMBER : Z := 1000000000000%Z.

Fixpoint first_number (parts : list str) : option Z :=
  match parts with
  | [] => None
  | part :: rest =>
      match Re.search_digits part with
      | Some digits => Some (int_of_digits digits)
      | None => first_number rest
      end
  end.

Definition get_numeric_identifier (identifier : str) : Z :=
  match identifier with
  | [] => NO_NUMBER
  | _ =>
      let parts := Re.split_class Re.is_dash_or_underscore identifier in
      default NO_NUMBER (first_number (reverse parts))
  end.

Definition numeric_id (e : IssueEntry) : Z :=
  get_numeric_identifier (identifier e).

(** *** Reading the status document *)

Section WithDatetime.
Context `{Datetime}.

(** [parse_status_doc]; the status document is [None] when the file
    does not exist. *)
Definition parse_status_doc (status : option str) : result (str * datetime) :=
  match status with
  | None => Raise (LinearSyncError StatusDocNotFound)
  | Some text =>
      match Re.search_field TIMESTAMP_LABEL text with
      | None => Raise (LinearSyncError TimestampNotLocated)
      | Some raw_timestamp =>
          match parse_iso_datetime raw_timestamp with
          | Some parsed => Ok (text, parsed)
          | None => Raise ValueError
          end
      end
  end.
End WithDatetime.

(** *** Loading the batch files *)

Record BatchInfo := {
  header : str;
  identifiers : list str;
  raw_content : str;
}.

(** One pass of the loop over the blocks of a batch file: [None] is the
    [continue] of the source. *)
Definition parse_block (block : str) : option IssueEntry :=
  let stripped := strip block in
  match stripped with
  | [] => None
  | _ =>
      let lines := splitlines stripped in
      let first_line := strip (default [] (head lines)) in
      if startswith (lit "# ") first_line then
        let identifier :=
          strip (default [] (head (split1 (lit ":") (drop 2 first_line)))) in
        Some {| identifier := identifier; content := stripped ++ DELIMITER |}
      else None
  end.

(** The body of the loop over the files, for one file text: [None] is the
    failed unpacking of [text.split(DELIMITER, 1)]. *)
Definition parse_batch (text : str) : option (str * list IssueEntry) :=
  match split1 DELIMITER text with
  | [header; remainder] =>
      Some (header, omap parse_block (split DELIMITER remainder))
  | _ => None
  end.

(** The output directory maps a batch number to the text of the file
    [<prefix>-<number>.md].  [batch_files] is the sorted glob. *)
Definition key_le (a b : nat * str) : Prop := a.1 ≤ b.1.

#[export] Instance key_le_dec a b : Decision (key_le a b).
Proof. unfold key_le. apply _. Defined.

Definition batch_files (dir : gmap nat str) : list (nat * str) :=
  merge_sort key_le (map_to_list dir).

Fixpoint load_files (files : list (nat * str))
  : result (list IssueEntry * list (nat * BatchInfo)) :=
  match files with
  | [] => Ok ([], [])
  | (batch_num, text) :: rest =>
      match parse_batch text with
      | None => Raise (LinearSyncError (UnexpectedFormat batch_num))
      | Some (header, found) =>
          '(entries, batches) ← load_files rest;
          Ok (found ++ entries,
              (batch_num,
               {| header := header;
                  identifiers := identifier <$> found;
                  raw_content := text |}) :: batches)
      end
  end.

Definition load_existing_entries (dir : gmap nat str)
  : result (list IssueEntry * list (nat * BatchInfo)) :=
  load_files (batch_files dir).

(** *** The merge loop of [main]

    The entries are objects: the list [entries] and the dictionary
    [entry_map] hold references to them, and an update through
    [entry_map] is seen through [entries].  The heap gives the object
    at each address; a new object takes the next free address. *)

Record Issue := {
  issue_identifier : str;       (* issue["identifier"] *)
  issue_updated_at : datetime;  (* parse_iso_datetime(issue["updatedAt"]) *)
  issue_markdown : str;         (* format_issue(issue, fetch_comments(issue["id"])) *)
}.

Record LoopState := {
  heap : list IssueEntry;
  entries : list nat;
  entry_map : gmap str nat;
  touched_identifiers : list str;
  new_identifiers : list str;
  latest_updated_at : datetime;
}.

Definition deref (h : list IssueEntry) (r : nat) : IssueEntry := h !!! r.

(** The entry objects behind a list of references. *)
Definition resolve (h : list IssueEntry) (refs : list nat) : list IssueEntry :=
  deref h <$> refs.

Fixpoint insert_new_entry (h : list IssueEntry) (entries : list nat)
    (entry : nat) : list nat :=
  match entries with
  | [] => [entry]
  | existing :: rest =>
      if (numeric_id (deref h entry) <? numeric_id (deref h existing))%Z
      then entry :: entries
      else existing :: insert_new_entry h rest entry
  end.

(** [{entry.identifier: entry for entry in entries}] *)
Definition build_entry_map (h : list IssueEntry) (refs : list nat)
  : gmap str nat :=
  foldl (λ m r, <[identifier (deref h r) := r]> m) ∅ refs.

Definition initial_state (loaded : list IssueEntry) (last_sync_dt : datetime)
  : LoopState :=
  let refs := seq 0 (length loaded) in
  {| heap := loaded;
     entries := refs;
     entry_map := build_entry_map loaded refs;
     touched_identifiers := [];
     new_identifiers := [];
     latest_updated_at := last_sync_dt |}.

Definition set_content (issue_markdown : str) (e : IssueEntry) : IssueEntry :=
  {| identifier := identifier e; content := issue_markdown |}.

(** One pass of [for issue in updated_issues]. *)
Definition merge_issue (st : LoopState) (issue : Issue) : LoopState :=
  let id := issue_identifier issue in
  let updated_at := issue_updated_at issue in
  let latest :=
    if (latest_updated_at st <? updated_at)%N then updated_at
    else latest_updated_at st in
  match entry_map st !! id with
  | Some r =>
      {| heap := alter (set_content (issue_markdown issue)) r (heap st);
         entries := entries st;
         entry_map := entry_map st;
         touched_identifiers := touched_identifiers st ++ [id];
         new_identifiers := new_identifiers st;
         latest_updated_at := latest |}
  | None =>
      let r := length (heap st) in
      let h := heap st ++ [{| identifier := id;
                              content := issue_markdown issue |}] in
      {| heap := h;
         entries := insert_new_entry h (entries st) r;
         entry_map := <[id := r]> (entry_map st);
         touched_identifiers := touched_identifiers st;
         new_identifiers := new_identifiers st ++ [id];
         latest_updated_at := latest |}
  end.

Definition merge_loop (st : LoopState) (updated_issues : list Issue)
  : LoopState :=
  foldl merge_issue st updated_issues.

Definition final_entries (st : LoopState) : list IssueEntry :=
  resolve (heap st) (entries st).

(** *** Batches

    A dictionary with integer keys is a list of items in insertion
    order. *)

Fixpoint dict_get {V} (k : nat) (d : list (nat * V)) : option V :=
  match d with
  | [] => None
  | (k', v) :: d' => if decide (k' = k) then Some v else dict_get k d'
  end.

(** [d.setdefault(k, []).append(x)] *)
Fixpoint setdefault_append {V} (k : nat) (x : V) (d : list (nat * list V))
  : list (nat * list V) :=
  match d with
  | [] => [(k, [x])]
  | (k', xs) :: d' =>
      if decide (k' = k) then (k', xs ++ [x]) :: d'
      else (k', xs) :: setdefault_append k x d'
  end.

Definition build_batches (entries : list IssueEntry)
  : list (nat * list IssueEntry) :=
  foldl (λ batches '(idx, entry),
           setdefault_append (idx `div` BATCH_SIZE + 1) entry batches)
        [] (imap pair entries).

(** [render_batch]; [timestamp] is the [strftime] of the clock. *)
Definition render_batch (team_name timestamp : str) (batch_index : nat)
    (batch_entries : list IssueEntry) : str :=
  concat
    ([ lit "# " ++ team_name ++ lit " - Issue Batch "
         ++ str_of_nat batch_index ++ [LF; LF];
       lit "_Generated: " ++ timestamp ++ lit "_" ++ [LF; LF];
       lit "---" ++ [LF; LF] ]
     ++ (content <$> batch_entries)).

(** The test that puts a batch into [changed_batches]. *)
Definition batch_changed (existing_ids_by_batch : list (nat * list str))
    (touched_identifiers new_identifiers : list str)
    (item : nat * list IssueEntry) : Prop :=
  let new_ids := identifier <$> item.2 in
  let old_ids := default [] (dict_get item.1 existing_ids_by_batch) in
  new_ids ≠ old_ids
  ∨ Exists (λ id, id ∈ touched_identifiers ∨ id ∈ new_identifiers) new_ids.

#[export] Instance batch_changed_dec existing touched new item :
  Decision (batch_changed existing touched new item).
Proof. unfold batch_changed. apply _. Defined.

Definition changed_batches (existing_ids_by_batch : list (nat * list str))
    (touched_identifiers new_identifiers : list str)
    (new_batches : list (nat * list IssueEntry))
  : list (nat * list IssueEntry) :=
  filter
    (batch_changed existing_ids_by_batch touched_identifiers new_identifiers)
    new_batches.

(** The batch numbers whose files are unlinked. *)
Definition stale_batches {V} (existing_batches : list (nat * V))
    (new_batch_count : nat) : list nat :=
  filter (λ batch_num, new_batch_count < batch_num) existing_batches.*1.

(** *** The status document *)

(** The lines after the summary has been put under the heading at
    [daily_idx]. *)
Definition put_summary (lines : list str) (daily_idx : nat)
    (summary_line : str) : list str :=
  let insert_idx := skip_blank lines (daily_idx + 1) in
  match lines !! insert_idx with
  | Some line =>
      if is_entry line then
        let lines := <[insert_idx := summary_line]> lines in
        let remove_idx := insert_idx + 1 in
        let lines := pop_while is_further_entry lines remove_idx in
        pop_while is_blank lines remove_idx
      else list_insert_at insert_idx summary_line lines
  | None => list_insert_at insert_idx summary_line lines
  end.

Section WithDatetime.
Context `{Datetime}.

(** [update_status_doc], up to the write: the lines of the new
    status document. *)
Definition updated_lines (status_text : str) (new_timestamp : datetime)
    (summary_line : str) : result (list str) :=
  let new_ts_str := format_iso_timestamp new_timestamp in
  let lines := splitlines status_text in
  let repl := Re.label_token TIMESTAMP_LABEL ++ lit ": " ++ new_ts_str in
  match replace_timestamp TIMESTAMP_LABEL repl lines with
  | None => Raise (LinearSyncError LabelNotLocated)
  | Some lines =>
      match index DAILY_SUMMARIES lines with
      | None => Raise (LinearSyncError SectionNotLocated)
      | Some daily_idx => Ok (put_summary lines daily_idx summary_line)
      end
  end.

(** [update_status_doc]: the text written to the status document. *)
Definition update_status_doc (status_text : str) (new_timestamp : datetime)
    (summary_line : str) : result str :=
  lines ← updated_lines status_text new_timestamp summary_line;
  Ok (join [LF] lines ++ [LF]).
End WithDatetime.

(** *** The summary line *)

Fixpoint str_leb (a b : str) : bool :=
  match a, b with
  | [], _ => true
  | _ :: _, [] => false
  | x :: a', y :: b' =>
      if decide (x = y) then str_leb a' b' else code x <? code y
  end.

(** [sorted(names)] *)
Definition sorted (names : list str) : list str :=
  merge_sort (λ a b, Is_true (str_leb a b)) names.

(** The UTF-8 bytes of the horizontal ellipsis and of the right arrow. *)
Definition ELLIPSIS : str := ascii_of_nat <$> [226; 128; 166].
Definition ARROW : str := ascii_of_nat <$> [226; 134; 146].

Definition display (names : list str) : str :=
  join (lit ", ") (take 6 (sorted names))
  ++ (if 6 <? length names then lit ", " ++ ELLIPSIS else []).

(** [summarize_changes]; [today] is the [strftime] of the clock and
    [rewritten_files] are the paths relative to the repository root. *)
Definition summarize_changes (today : str) (updates new_issues : list str)
    (rewritten_files : list str) : str :=
  let parts :=
    (match updates with
     | [] => []
     | _ => [str_of_nat (length updates) ++ lit " updated ("
               ++ display updates ++ lit ")"]
     end)
    ++ (match new_issues with
        | [] => []
        | _ => [str_of_nat (length new_issues) ++ lit " new ("
                  ++ display new_issues ++ lit ")"]
        end) in
  let parts := match parts with [] => [lit "no changes"] | _ => parts end in
  let files_part :=
    match rewritten_files with
    | [] => []
    | _ => lit " " ++ ARROW ++ lit " touched "
             ++ join (lit ", ") rewritten_files
    end in
  lit "- " ++ today ++ lit ": " ++ join (lit ", ") parts ++ files_part.

(** *** A run of [main] *)

Record Config := {
  LINEAR_API_KEY : str;
  LINEAR_TEAM_NAME : str;
  (** [str(path.relative_to(REPO_ROOT))] for the file of a batch *)
  relative_path : nat → str;
}.

(** What a run reads from outside the repository. *)
Record RunInput := {
  (** [get_team_id] and [fetch_updated_issues], the issues with their
      comments fetched and formatted *)
  fetch_updated : datetime → result (list Issue);
  (** the clock as printed in the header of the batch being rendered *)
  generated : nat → str;
  (** the clock as printed in the summary line *)
  today : str;
  (** [datetime.now(timezone.utc)] at the end of the run *)
  now : datetime;
}.

Record World := {
  status_doc : option str;
  linear_dir : gmap nat str;
}.

(** The outcome of a run: the files afterwards, the batch files written
    and unlinked in order, and the exception that ended it, if any. *)
Record Run := {
  world_after : World;
  written : list nat;
  removed : list nat;
  raised : option exn;
}.

Definition aborted (w : World) (e : exn) : Run :=
  {| world_after := w; written := []; removed := []; raised := Some e |}.

(** What [main] computes between loading the baseline and the first
    write: the merge loop, the new batches, the batches to write and the
    batch files to unlink. *)
Record Plan := {
  final_state : LoopState;
  new_batches : list (nat * list IssueEntry);
  changed : list (nat * list IssueEntry);
  stale : list nat;
}.

Definition reconcile (loaded : list IssueEntry)
    (existing_batches : list (nat * BatchInfo)) (last_sync_dt : datetime)
    (updated_issues : list Issue) : Plan :=
  let st := merge_loop (initial_state loaded last_sync_dt) updated_issues in
  let new_batches := build_batches (final_entries st) in
  let existing_ids_by_batch :=
    prod_map id identifiers <$> existing_batches in
  {| final_state := st;
     new_batches := new_batches;
     changed :=
       changed_batches existing_ids_by_batch (touched_identifiers st)
                       (new_identifiers st) new_batches;
     stale := stale_batches existing_batches (length new_batches) |}.

(** The two loops over the files. *)
Definition write_batches (team_name : str) (generated : nat → str)
    (changed : list (nat * list IssueEntry)) (dir : gmap nat str)
  : gmap nat str :=
  foldl (λ dir '(batch_num, batch_entries),
           <[batch_num := render_batch team_name (generated batch_num)
                                       batch_num batch_entries]> dir)
        dir changed.

Definition unlink_batches (stale : list nat) (dir : gmap nat str)
  : gmap nat str :=
  foldl (λ dir batch_num, delete batch_num dir) dir stale.

Section WithDatetime.
Context `{Datetime}.

Definition main (cfg : Config) (inp : RunInput) (w : World) : Run :=
  match LINEAR_API_KEY cfg with
  | [] => aborted w (LinearSyncError ApiKeyNotSet)
  | _ =>
  match parse_status_doc (status_doc w) with
  | Raise e => aborted w e
  | Ok (status_text, last_sync_dt) =>
  match fetch_updated inp last_sync_dt with
  | Raise e => aborted w e
  | Ok updated_issues =>
  match load_existing_entries (linear_dir w) with
  | Raise e => aborted w e
  | Ok (loaded, existing_batches) =>
      let plan :=
        reconcile loaded existing_batches last_sync_dt updated_issues in
      let st := final_state plan in
      let dir :=
        unlink_batches (stale plan)
          (write_batches (LINEAR_TEAM_NAME cfg) (generated inp)
                         (changed plan) (linear_dir w)) in
      let rewritten_files := (changed plan).*1 in
      let summary_line :=
        summarize_changes (today inp) (touched_identifiers st)
                          (new_identifiers st)
                          (relative_path cfg <$> rewritten_files) in
      let final_timestamp := N.max (latest_updated_at st) (now inp) in
      match update_status_doc status_text final_timestamp summary_line with
      | Raise e =>
          {| world_after := {| status_doc := status_doc w;
                               linear_dir := dir |};
             written := rewritten_files;
             removed := stale plan;
             raised := Some e |}
      | Ok text =>
          {| world_after := {| status_doc := Some text;
                               linear_dir := dir |};
             written := rewritten_files;
             removed := stale plan;
             raised := None |}
      end
  end end end end.
End WithDatetime.

End Linear.

(** ** fetch_notion_incremental_updates.py: the status document *)

Module Notion.
Import Py Status.

Definition TIMESTAMP_LABEL : str := lit "lastIncrementalSyncTimestamp".
Definition INCREMENTAL_SUMMARIES : str := lit "## Incremental Summaries".
Definition NONE_YET : str := lit "_None yet_".

Inductive message :=
| LabelNotLocated      (* Failed to locate `lastIncrementalSyncTimestamp` in status doc. *)
| SectionNotLocated.   (* Could not locate '## Incremental Summaries' section. *)

(** [NotionIncrementalSyncError] *)
Inductive result (A : Type) :=
| Ok (a : A)
| Raise (m : message).
Arguments Ok {A} a.
Arguments Raise {A} m.

(** The lines after the summary has been put under the heading at
    [section_idx]. *)
Definition put_summary (lines : list str) (section_idx : nat)
    (summary_line : str) : list str :=
  let insert_idx := skip_blank lines (section_idx + 1) in
  match lines !! insert_idx with
  | Some line =>
      if decide (strip line = NONE_YET)
      then <[insert_idx := summary_line]> lines
      else if is_entry line
      then list_insert_at insert_idx summary_line lines
      else list_insert_at insert_idx summary_line lines
  | None => list_insert_at insert_idx summary_line lines
  end.

Section WithDatetime.
Context `{Datetime}.

(** [update_status_doc], up to the write: the lines of the new
    status document. *)
Definition updated_lines (status_text : str) (new_timestamp : datetime)
    (summary_line : str) : result (list str) :=
  let new_ts_str := format_iso_timestamp new_timestamp in
  let lines := splitlines status_text in
  let repl := Re.label_token TIMESTAMP_LABEL ++ lit ": " ++ new_ts_str in
  match replace_timestamp TIMESTAMP_LABEL repl lines with
  | None => Raise LabelNotLocated
  | Some lines =>
      match index INCREMENTAL_SUMMARIES lines with
      | None => Raise SectionNotLocated
      | Some section_idx => Ok (put_summary lines section_idx summary_line)
      end
  end.

(** [update_status_doc]: the text written to the status document. *)
Definition update_status_doc (status_text : str) (new_timestamp : datetime)
    (summary_line : str) : result str :=
  match updated_lines status_text new_timestamp summary_line with
  | Ok lines => Ok (join [LF] lines ++ [LF])
  | Raise m => Raise m
  end.
End WithDatetime.

End Notion.

(** ** A model of the library's calendar

    Instants from 1 January 1970 on, printed and read in the extended
    format [YYYY-MM-DDTHH:MM:SS+00:00]. *)

Module Calendar.
Import Py.
Local Open Scope N_scope.

Definition is_leap (y : N) : bool :=
  (y mod 4 =? 0) && (negb (y mod 100 =? 0) || (y mod 400 =? 0)).

Definition year_days (y : N) : N := if is_leap y then 366 else 365.

Definition month_days (leap : bool) (m : N) : N :=
  if m =? 2 then (if leap then 29 else 28)
  else if (m =? 4) || (m =? 6) || (m =? 9) || (m =? 11) then 30
  else 31.

(** Days from 1 January 1970 to 1 January of the year [1970 + n]. *)
Fixpoint days_before_year (n : nat) : N :=
  match n with
  | O => 0
  | S k => days_before_year k + year_days (1970 + N.of_nat k)
  end.

(** Days from 1 January to the first day of the month [1 + n]. *)
Fixpoint days_before_month (leap : bool) (n : nat) : N :=
  match n with
  | O => 0
  | S k => days_before_month leap k + month_days leap (1 + N.of_nat k)
  end.

(** The year, counted from 1970, of the day [d] days after 1 January of
    the year [1970 + n], and the day in that year. *)
Fixpoint year_of (fuel n : nat) (d : N) : nat * N :=
  match fuel with
  | O => (n, d)
  | S fuel =>
      let len := year_days (1970 + N.of_nat n) in
      if d <? len then (n, d) else year_of fuel (S n) (d - len)
  end.

Fixpoint month_of (fuel : nat) (leap : bool) (n : nat) (d : N) : nat * N :=
  match fuel with
  | O => (n, d)
  | S fuel =>
      let len := month_days leap (1 + N.of_nat n) in
      if d <? len then (n, d) else month_of fuel leap (S n) (d - len)
  end.

Definition str_of_N (n : N) : str :=
  lit (NilEmpty.string_of_uint (N.to_uint n)).

Definition digit (n : N) : ascii := ascii_of_N (48 + n).

Definition two (n : N) : str := [digit (n / 10 mod 10); digit (n mod 10)].

Definition number (s : str) : option N :=
  N.of_uint <$> NilEmpty.uint_of_string (string_of_list_ascii s).

Definition print (t : datetime) : str :=
  let s := t / 1000000 in
  let '(n, d) := year_of (S (N.to_nat (s / 86400 / 365))) 0 (s / 86400) in
  let y := 1970 + N.of_nat n in
  let '(m, d) := month_of 11 (is_leap y) 0 d in
  let r := s mod 86400 in
  str_of_N y ++ lit "-" ++ two (1 + N.of_nat m) ++ lit "-" ++ two (1 + d)
  ++ lit "T" ++ two (r / 3600) ++ lit ":" ++ two (r / 60 mod 60)
  ++ lit ":" ++ two (r mod 60) ++ lit "+00:00".

(** The seconds from 1 January 1970 to the instant the text names. *)
Definition read_seconds (s : str) : option N :=
  let year := take_while is_digit s in
  match drop (length year) s with
  | [a; m1; m2; b; d1; d2; c; h1; h2; e; i1; i2; f; s1; s2;
     z1; z2; z3; z4; z5; z6] =>
      if bool_decide ([a; b; c; e; f] = lit "--T::"
                      ∧ [z1; z2; z3; z4; z5; z6] = lit "+00:00")
      then
        y ← number year;
        m ← number [m1; m2];
        d ← number [d1; d2];
        h ← number [h1; h2];
        i ← number [i1; i2];
        s ← number [s1; s2];
        if bool_decide (str_of_N y = year ∧ 1970 ≤ y ∧ 1 ≤ m ≤ 12
                        ∧ 1 ≤ d ≤ month_days (is_leap y) m
                        ∧ h < 24 ∧ i < 60 ∧ s < 60)
        then Some ((days_before_year (N.to_nat (y - 1970))
                    + days_before_month (is_leap y) (N.to_nat (m - 1))
                    + (d - 1)) * 86400
                   + h * 3600 + i * 60 + s)
        else None
      else None
  | _ => None
  end.

Definition read (s : str) : option datetime :=
  (λ seconds, seconds * 1000000) <$> read_seconds s.

#[export] Instance calendar : Datetime :=
  {| isoformat_seconds := print; fromisoformat_utc := read |}.
End Calendar.

(** * Specifications

    The notions the properties of the engine are stated with.  None of
    them is used by the embedding above. *)

Import Py Status Linear.

Abbreviation ids := (fmap (M:=list) identifier).

(** ** Order and merge *)

(** The order of the sort keys, equal keys allowed. *)
Definition key_order (a b : IssueEntry) : Prop := (numeric_id a ≤ numeric_id b)%Z.

#[global] Instance key_order_dec a b : Decision (key_order a b).
Proof. unfold key_order. apply _. Defined.

(** The entries come in the order of their sort keys, equal keys
    allowed. *)
Definition sorted_by_key (es : list IssueEntry) : Prop :=
  StronglySorted key_order es.

(** The same with no two entries of one sort key. *)
Definition strictly_sorted_by_key (es : list IssueEntry) : Prop :=
  StronglySorted (λ a b, (numeric_id a < numeric_id b)%Z) es.

(** [insert_new_entry] on a list of values: the entry goes before the
    first entry of a greater sort key, to the end when there is none. *)
Fixpoint insert_sorted (es : list IssueEntry) (e : IssueEntry) : list IssueEntry :=
  match es with
  | [] => [e]
  | existing :: rest =>
      if (numeric_id e <? numeric_id existing)%Z then e :: es
      else existing :: insert_sorted rest e
  end.

(** The entry with the identifier [id] gets the content [markdown], in
    its place. *)
Definition refresh (id markdown : str) (es : list IssueEntry) : list IssueEntry :=
  (λ e, if decide (identifier e = id) then set_content markdown e else e) <$> es.

Definition entry_of (issue : Issue) : IssueEntry :=
  {| identifier := issue_identifier issue; content := issue_markdown issue |}.

(** The merge as the specification words it, on values: an incoming
    record whose identifier exists replaces the body in place, any other
    is inserted at its sorted position. *)
Definition merge_step_spec (es : list IssueEntry) (issue : Issue) : list IssueEntry :=
  if decide (issue_identifier issue ∈ identifier <$> es)
  then refresh (issue_identifier issue) (issue_markdown issue) es
  else insert_sorted es (entry_of issue).

Definition merge_spec (loaded : list IssueEntry) (incoming : list Issue) :=
  foldl merge_step_spec loaded incoming.

(** The state of the loop of [main] after the incoming issues, for a
    baseline [loaded]. *)
Definition merged (loaded : list IssueEntry) (t : datetime)
    (incoming : list Issue) : LoopState :=
  merge_loop (initial_state loaded t) incoming.

(** What the loop keeps true of its objects: the entries are distinct
    objects of the heap, no identifier occurs twice, and [entry_map] maps
    each identifier to the object that carries it. *)
Record store_ok (st : LoopState) : Prop := {
  refs_nodup : NoDup (entries st);
  refs_bound : Forall (λ r, r < length (heap st)) (entries st);
  ids_nodup : NoDup (identifier <$> final_entries st);
  map_ok : ∀ id r, entry_map st !! id = Some r ↔
                   r ∈ entries st ∧ identifier (deref (heap st) r) = id;
}.

(** The identifiers of a list whose sort key is [k]. *)
Definition with_key (k : Z) (l : list str) : list str :=
  filter (λ id, get_numeric_identifier id = k) l.

(** The markdown of the last incoming issue with the identifier [id]. *)
Definition latest_markdown (id : str) (incoming : list Issue) : option str :=
  issue_markdown <$> last (filter (λ i, issue_identifier i = id) incoming).

(** The identifiers that are new to the baseline, in the order of their
    first arrival. *)
Definition genuinely_new (loaded : list IssueEntry) (incoming : list Issue)
    : list str :=
  foldl (λ acc id, if decide (id ∈ ids loaded ∨ id ∈ acc) then acc
                   else acc ++ [id])
        [] (issue_identifier <$> incoming).

(** ** Batches *)

(** The number of batches for [n] entries. *)
Definition batch_count (n : nat) : nat := (n + BATCH_SIZE - 1) / BATCH_SIZE.

(** Batch [i + 1] holds the entries from [BATCH_SIZE * i] on, up to
    [BATCH_SIZE] of them. *)
Definition nth_batch {A} (l : list A) (i : nat) : nat * list A :=
  (S i, take BATCH_SIZE (drop (BATCH_SIZE * i) l)).

(** The list cut into runs of [BATCH_SIZE], numbered from 1. *)
Definition batches_of {A} (l : list A) : list (nat * list A) :=
  nth_batch l <$> seq 0 (batch_count (length l)).

(** The member identifiers of the batch files as loaded. *)
Definition existing_ids (existing : list (nat * BatchInfo)) : list (nat * list str) :=
  prod_map id identifiers <$> existing.

(** The members of the old batch at an index; none when there is no such
    batch. *)
Definition old_members (existing : list (nat * BatchInfo)) (k : nat) : list str :=
  default [] (dict_get k (existing_ids existing)).

(** The batch invariant on a loaded baseline: the entries are sorted by
    their sort key, no identifier occurs twice, and the files are numbered
    from 1 with every file but the last holding exactly [BATCH_SIZE]
    members and the last at least one. *)
Definition batch_invariant (loaded : list IssueEntry)
    (existing : list (nat * BatchInfo)) : Prop :=
  sorted_by_key loaded ∧ NoDup (ids loaded) ∧
  existing_ids existing = batches_of (ids loaded).

#[global] Instance batch_invariant_dec loaded existing :
  Decision (batch_invariant loaded existing).
Proof. unfold batch_invariant, sorted_by_key. apply _. Defined.

(** The members of the batch file [k] after a run: the entries written to
    it, or else, unless the file is unlinked, the identifiers loaded from
    it. *)
Definition members_after (existing : list (nat * BatchInfo)) (plan : Plan)
    (k : nat) : option (list str) :=
  match dict_get k (changed plan) with
  | Some batch => Some (ids batch)
  | None =>
      if decide (k ∈ stale plan) then None
      else dict_get k (existing_ids existing)
  end.

(** The text of the batch file [k] after the two loops over the files. *)
Definition file_after (cfg : Config) (inp : RunInput) (dir : gmap nat str)
    (plan : Plan) (k : nat) : option str :=
  match dict_get k (changed plan) with
  | Some batch =>
      Some (render_batch (LINEAR_TEAM_NAME cfg) (generated inp k) k batch)
  | None => if decide (k ∈ stale plan) then None else dir !! k
  end.

(** ** Batch files as text *)

(** What [render_batch] writes before the first delimiter. *)
Definition batch_header (team_name timestamp : str) (batch_index : nat) : str :=
  lit "# " ++ team_name ++ lit " - Issue Batch " ++ str_of_nat batch_index
  ++ [LF; LF] ++ lit "_Generated: " ++ timestamp ++ lit "_" ++ [LF].

(** The delimiter occurs in [text ++ DELIMITER] at its end only. *)
Definition ends_once (text : str) : Prop :=
  find DELIMITER (text ++ DELIMITER) = Some (length text).

Definition heading_of (id : str) : str := lit "# " ++ id ++ lit ":".

(** An entry as the parser expects it: the content is a heading line with
    the identifier, the rest of the body and one delimiter, at the end;
    the identifier is a stripped piece of one line without a colon. *)
Definition readable (e : IssueEntry) : Prop :=
  (∃ rest, content e = heading_of (identifier e) ++ rest ++ DELIMITER ∧
           ends_once (heading_of (identifier e) ++ rest)) ∧
  strip (identifier e) = identifier e ∧
  (":"%char ∉ identifier e) ∧
  Forall (λ c, is_linebreak c = false) (identifier e).

(** The body of an entry: the content without the delimiter at its end. *)
Definition body_of (e : IssueEntry) : str :=
  take (length (content e) - length DELIMITER) (content e).

(** What the parser makes of a readable entry. *)
Definition normalised (e : IssueEntry) : IssueEntry :=
  {| identifier := identifier e; content := strip (body_of e) ++ DELIMITER |}.

Definition not_linebreak (c : ascii) : bool := negb (is_linebreak c).

(** ** The status document *)

Definition BACKTICK : ascii := "`"%char.

(** Every line followed by a line feed. *)
Definition unlines (lines : list str) : str :=
  concat ((λ l, l ++ [LF]) <$> lines).

Definition no_linebreak (l : str) : Prop := Forall (λ c, is_linebreak c = false) l.

(** The first occurrence of the label token in the line starts a
    timestamp field. *)
Definition field_first (label line : str) : Prop :=
  ∃ a s n g,
    line = a ++ s ∧
    find (Re.label_token label) (a ++ Re.label_token label) = Some (length a) ∧
    Re.match_field label s = Some (n, g).

(** The first line that holds the label token holds the timestamp field
    at that place, and the summary heading is a later line. *)
Definition well_formed_status (label heading text : str) : Prop :=
  ∃ l1 line l2,
    splitlines text = l1 ++ line :: l2 ∧
    Forall (λ l, contains (Re.label_token label) l = false) l1 ∧
    field_first label line ∧
    (heading ∉ l1) ∧ heading ∈ l2.

(** The layout of the status document the Linear script keeps up to
    date. *)
Definition status_ok (text : str) : Prop :=
  well_formed_status TIMESTAMP_LABEL DAILY_SUMMARIES text.


Definition world_ok (w : World) : Prop :=
  ∃ text, status_doc w = Some text ∧ status_ok text.

(** The persisted watermark: what [parse_status_doc] reads at the start
    of the next run. *)
Definition watermark `{Datetime} (w : World) : option datetime :=
  match parse_status_doc (status_doc w) with
  | Ok (_, t) => Some t
  | Raise _ => None
  end.

(** [max(previous, max(updated_at), now)] *)
Definition advance_watermark (previous : datetime) (issues : list Issue)
    (now : datetime) : datetime :=
  N.max (foldl N.max previous (issue_updated_at <$> issues)) now.

(** The worlds after each run of a sequence of runs. *)
Fixpoint run_all `{Datetime} (cfg : Config) (inps : list RunInput)
    (w : World) : list World :=
  match inps with
  | [] => []
  | inp :: inps =>
      let w' := world_after (main cfg inp w) in
      w' :: run_all cfg inps w'
  end.

(** A line that opens a section. *)
Definition is_heading (line : str) : bool := startswith (lit "#") line.

(** The lines of the section the heading opens: the lines below its first
    occurrence, up to the next line that opens a section. *)
Definition section_body (heading : str) (lines : list str) : list str :=
  match index heading lines with
  | Some i => take_while (λ l, negb (is_heading l)) (drop (S i) lines)
  | None => []
  end.

(** The bulleted lines of the section in a status document. *)
Definition summary_entries (heading text : str) : list str :=
  filter (λ l, is_entry l = true) (section_body heading (splitlines text)).

(** What the Linear script leaves of the lines of a section: the first run
    of bulleted lines goes. *)
Definition below_first_run (body : list str) : list str :=
  match drop_while is_blank body with
  | first :: more =>
      if is_entry first then drop_while is_further_entry more
      else first :: more
  | [] => []
  end.

(** What each script leaves of the lines [rest] that follow the blank
    lines below the heading, to stand below the new summary line. *)
Definition linear_after (rest : list str) : list str :=
  match rest with
  | first :: more =>
      if is_entry first
      then drop_while is_blank (drop_while is_further_entry more)
      else rest
  | [] => []
  end.


(** ** The fields of a printed instant *)

Module CalendarFields.
Import Calendar.
Local Open Scope N_scope.

(** The month and the day found for the day [d] of a year. *)
Definition month_found (leap : bool) (d : N) : Prop :=
  (fst (month_of 11 leap 0 d) < 12)%nat
  ∧ snd (month_of 11 leap 0 d)
    < month_days leap (1 + N.of_nat (fst (month_of 11 leap 0 d)))
  ∧ days_before_month leap (fst (month_of 11 leap 0 d))
    + snd (month_of 11 leap 0 d) = d.

#[local] Instance month_found_dec leap d : Decision (month_found leap d).
Proof. unfold month_found. apply _. Defined.

(** The fields the calendar prints for an instant. *)
Record fields := {
  f_year : N; f_month : N; f_day : N; f_hour : N; f_minute : N; f_second : N;
}.

Definition print_fields (x : fields) : str :=
  str_of_N (f_year x) ++ lit "-" ++ two (f_month x) ++ lit "-"
  ++ two (f_day x) ++ lit "T" ++ two (f_hour x) ++ lit ":"
  ++ two (f_minute x) ++ lit ":" ++ two (f_second x) ++ lit "+00:00".

Definition fields_ok (x : fields) : Prop :=
  1970 ≤ f_year x ∧ 1 ≤ f_month x ≤ 12
  ∧ 1 ≤ f_day x ≤ month_days (is_leap (f_year x)) (f_month x)
  ∧ f_hour x < 24 ∧ f_minute x < 60 ∧ f_second x < 60.

(** The seconds from 1 January 1970 to the instant of the fields. *)
Definition instant (x : fields) : N :=
  ((days_before_year (N.to_nat (f_year x - 1970))
    + days_before_month (is_leap (f_year x)) (N.to_nat (f_month x - 1))
    + (f_day x - 1)) * 86400
   + f_hour x * 3600 + f_minute x * 60 + f_second x).

End CalendarFields.

(** ** Sample data: status documents, batch files and runs *)

Module Sample.

(** An entry as the parser leaves it: a heading line with the identifier
    and a title, and the delimiter. *)
Definition entry (id : string) (title : string) : IssueEntry :=
  {| identifier := lit id;
     content := lit "# " ++ lit id ++ lit ": " ++ lit title ++ DELIMITER |}.

Definition issue (id : string) (updated_at : datetime) (title : string) : Issue :=
  {| issue_identifier := lit id;
     issue_updated_at := updated_at;
     issue_markdown := content (entry id title) |}.

Definition cfg : Config :=
  {| LINEAR_API_KEY := lit "lin_api_key";
     LINEAR_TEAM_NAME := lit "Engineering";
     relative_path := λ n, lit "output/Linear/Issues-Batch-" ++ str_of_nat n
                           ++ lit ".md" |}.

Definition generated_at : str := lit "2024-01-01 00:00:00".

Definition status : str :=
  lit "# Linear Sync Status" ++ [LF]
  ++ [LF]
  ++ lit "- `lastSyncTimestamp`: 2024-01-01T00:00:00Z" ++ [LF]
  ++ [LF]
  ++ lit "## Daily Summaries" ++ [LF]
  ++ [LF]
  ++ lit "- 2024-01-01: no changes" ++ [LF].

(** 2024-01-01T00:00:00Z, 01:00:00Z and 02:00:00.123456Z of that day, in
    microseconds from 1 January 1970. *)
Definition new_year : datetime := 1704067200000000%N.
Definition one_hour_later : datetime := 1704070800000000%N.
Definition two_hours_later : datetime := 1704074400123456%N.

Definition baseline : list IssueEntry :=
  [entry "ENG-1" "Login page"; entry "ENG-2" "Logout button"].

Definition disk : gmap nat str :=
  {[ 1 := render_batch (LINEAR_TEAM_NAME cfg) generated_at 1 baseline ]}.

Definition world : World := {| status_doc := Some status; linear_dir := disk |}.

(** What [load_existing_entries] makes of [disk]. *)
Definition existing : list (nat * BatchInfo) :=
  [(1, {| header := lit "# Engineering - Issue Batch 1" ++ [LF; LF]
                    ++ lit "_Generated: 2024-01-01 00:00:00_" ++ [LF];
          identifiers := [lit "ENG-1"; lit "ENG-2"];
          raw_content := render_batch (LINEAR_TEAM_NAME cfg) generated_at 1
                                      baseline |})].

Definition incoming : list Issue :=
  [issue "ENG-2" one_hour_later "Logout button, again";
   issue "ENG-3" one_hour_later "Profile page"].

(** The input of a run that fetches [issues] at the time [clock]. *)
Definition input (issues : list Issue) (clock : datetime) : RunInput :=
  {| fetch_updated := λ _, Ok issues;
     generated := λ _, lit "2024-01-01 02:00:00";
     today := lit "2024-01-01";
     now := clock |}.

(** A baseline off the batch invariant: two files of one entry each. *)
Definition ragged_disk : gmap nat str :=
  {[ 1 := render_batch (LINEAR_TEAM_NAME cfg) generated_at 1
                       [entry "ENG-1" "Login page"];
     2 := render_batch (LINEAR_TEAM_NAME cfg) generated_at 2
                       [entry "ENG-2" "Logout button"] ]}.

Definition ragged_world : World :=
  {| status_doc := Some status; linear_dir := ragged_disk |}.




(** A batch file without the delimiter. *)
Definition malformed_disk : gmap nat str :=
  {[ 1 := render_batch (LINEAR_TEAM_NAME cfg) generated_at 1 baseline;
     2 := lit "# Engineering - Issue Batch 2" ]}.

Definition malformed_world : World :=
  {| status_doc := Some status; linear_dir := malformed_disk |}.

(** Two records with the sort key 5. *)
Definition tie_baseline : list IssueEntry := [entry "ENG-5" "Search"].
Definition tie_incoming : list Issue := [issue "OPS-5" one_hour_later "Backups"].










End Sample.

(** ** Entries across runs *)

(** An entry the next run finds under its identifier: the content is a
    body and the delimiter, the delimiter occurs nowhere else, and the
    parser reads the identifier off the body. *)
Definition reads_back (e : IssueEntry) : Prop :=
  ∃ body, content e = body ++ DELIMITER ∧ ends_once body ∧
          identifier <$> parse_block body = Some (identifier e).

(** The entries [load_existing_entries] finds in the text of a batch
    file. *)
Definition entries_in (text : str) : list IssueEntry :=
  match parse_batch text with
  | Some (_, found) => found
  | None => []
  end.

(** * Proofs *)

(** A decidable fact about literals, by evaluation. *)
Ltac computed :=
  match goal with
  | |- ?P => apply (bool_decide_unpack P); vm_compute; exact I
  end.

(** The layout of a concrete status document, from the lines before the
    line of the timestamp, the text of that line before the field, the
    field with the rest of the line, and the lines below. *)
Ltac status_layout l1 a s l2 :=
  exists l1, (a ++ s), l2; split_and!;
  [ vm_compute; reflexivity
  | by computed
  | exists a, s; eexists _, _; split_and!;
    [ reflexivity | vm_compute; reflexivity | vm_compute; reflexivity ]
  | by computed
  | by computed ].

(** ** Text search *)

Lemma startswith_prefix p s : startswith p s = true ↔ p `prefix_of` s.
Proof.
  revert s. induction p as [|a p IH]; intros s; simpl.
  - split; [intros _; apply prefix_nil|done].
  - destruct s as [|b s].
    + split; [done|]. intros [k Hk]. done.
    + case_decide as Heq.
      * subst. rewrite IH. split.
        -- by apply prefix_cons.
        -- by intros ?%prefix_cons_inv_2.
      * split; [done|]. intros ?%prefix_cons_inv_1. done.
Qed.

Lemma startswith_app p s : startswith p (p ++ s) = true.
Proof. apply startswith_prefix. by apply prefix_app_r. Qed.

Lemma startswith_drop p s :
  startswith p s = true → s = p ++ drop (length p) s.
Proof.
  intros [k ->]%startswith_prefix. by rewrite drop_app_length.
Qed.

Lemma find_Some p s i :
  find p s = Some i ↔
  startswith p (drop i s) = true ∧ i ≤ length s ∧
  ∀ j, j < i → startswith p (drop j s) = false.
Proof.
  revert i. induction s as [|c s IH]; intros i; simpl.
  - destruct (startswith p []) eqn:Hp.
    + split.
      * intros [= <-]. simpl. split_and!; [done|lia|]. intros; lia.
      * intros (_ & Hi & _). simpl in Hi. f_equal. lia.
    + split; [done|]. intros (Hs & _). by rewrite drop_nil, Hp in Hs.
  - destruct (startswith p (c :: s)) eqn:Hp.
    + split.
      * intros [= <-]. simpl. split_and!; [done|lia|]. intros; lia.
      * intros (_ & _ & Hmin). destruct i as [|i]; [done|].
        specialize (Hmin 0 ltac:(lia)). simpl in Hmin. congruence.
    + destruct (find p s) as [k|]; simpl.
      * split.
        -- intros [= <-]. destruct (proj1 (IH k) eq_refl) as (Hs & Hle & Hmin).
           simpl. split_and!; [done|lia|].
           intros [|j] Hj; simpl; [done|]. apply Hmin. lia.
        -- intros (Hs & Hle & Hmin). destruct i as [|i].
           { simpl in Hs. congruence. }
           assert (Some k = Some i) as [= ->]; [|done]. apply IH.
           simpl in Hs, Hle. split_and!; [done|lia|].
           intros j Hj. apply (Hmin (S j)). lia.
      * split; [done|]. intros (Hs & Hle & Hmin). destruct i as [|i].
        { simpl in Hs. congruence. }
        assert (@None nat = Some i) as Hi; [|done].
        apply IH. simpl in Hs, Hle. split_and!; [done|lia|].
        intros j Hj. apply (Hmin (S j)). lia.
Qed.

Lemma find_None p s :
  find p s = None ↔ ∀ j, startswith p (drop j s) = false.
Proof.
  induction s as [|c s IH]; simpl.
  - destruct (startswith p []) eqn:Hp.
    + split; [done|]. intros Hj. specialize (Hj 0). simpl in Hj. congruence.
    + split; [|done]. intros _ j. by rewrite drop_nil.
  - destruct (startswith p (c :: s)) eqn:Hp.
    + split; [done|]. intros Hj. specialize (Hj 0). simpl in Hj. congruence.
    + destruct (find p s) as [k|]; simpl.
      * split; [done|]. intros Hj.
        assert (Some k = @None nat) as Hcontra; [|done].
        apply IH. intros j. apply (Hj (S j)).
      * split; [|done]. intros _ [|j]; simpl; [done|]. by apply IH.
Qed.

Lemma contains_find p s : contains p s = bool_decide (is_Some (find p s)).
Proof.
  induction s as [|c s IH]; simpl.
  - by destruct (startswith p []).
  - destruct (startswith p (c :: s)); simpl; [done|].
    rewrite IH. apply bool_decide_ext. by rewrite fmap_is_Some.
Qed.

Lemma split1_find sep s :
  sep ≠ [] →
  split1 sep s = match find sep s with
                 | Some i => [take i s; drop (i + length sep) s]
                 | None => [s]
                 end.
Proof.
  intros Hsep. induction s as [|c s IH]; simpl.
  - destruct sep; [done|]. done.
  - destruct (startswith sep (c :: s)) eqn:Hp; [done|].
    rewrite IH. destruct (find sep s) as [i|]; simpl; done.
Qed.

(** ** The lines of the status document *)

Lemma take_drop_while {A} (p : A → bool) (l : list A) :
  take_while p l ++ drop_while p l = l.
Proof. induction l as [|x l IH]; simpl; [done|]. destruct (p x); simpl; by f_equal. Qed.

Lemma take_while_all {A} (p : A → bool) (l : list A) :
  Forall (λ x, p x = true) (take_while p l).
Proof.
  induction l as [|x l IH]; simpl; [constructor|].
  destruct (p x) eqn:Hx; by constructor.
Qed.

Lemma drop_while_head {A} (p : A → bool) (l : list A) x :
  head (drop_while p l) = Some x → p x = false.
Proof.
  induction l as [|y l IH]; simpl; [done|].
  destruct (p y) eqn:Hy; [done|]. by intros [= <-].
Qed.

Lemma drop_while_app_all {A} (p : A → bool) (l1 l2 : list A) :
  Forall (λ x, p x = true) l1 → drop_while p (l1 ++ l2) = drop_while p l2.
Proof. induction 1 as [|x l Hx _ IH]; simpl; [done|]. by rewrite Hx. Qed.

Lemma drop_while_stop {A} (p : A → bool) (l : list A) :
  match l with [] => True | x :: _ => p x = false end → drop_while p l = l.
Proof. destruct l as [|x l]; simpl; [done|]. by intros ->. Qed.

Lemma index_Some {A} `{EqDecision A} (x : A) l i :
  index x l = Some i ↔ l !! i = Some x ∧ x ∉ take i l.
Proof.
  revert i. induction l as [|y l IH]; intros i; simpl.
  - split; [done|]. by intros [? _].
  - case_decide as Heq.
    + subst. split.
      * intros [= <-]. split; [done|]. apply not_elem_of_nil.
      * intros [Hi Hn]. destruct i as [|i]; [done|].
        exfalso. apply Hn. simpl. by left.
    + destruct (index x l) as [j|]; simpl.
      * split.
        -- intros [= <-]. destruct (proj1 (IH j) eq_refl) as [Hj Hn].
           split; [done|]. simpl. rewrite not_elem_of_cons. done.
        -- intros [Hi Hn]. destruct i as [|i]; simpl in *; [congruence|].
           apply not_elem_of_cons in Hn as [_ Hn].
           assert (Some j = Some i) as [= ->]; [|done]. by apply IH.
      * split; [done|]. intros [Hi Hn]. destruct i as [|i]; simpl in *; [congruence|].
        apply not_elem_of_cons in Hn as [_ Hn].
        assert (@None nat = Some i); [|done]. by apply IH.
Qed.

Lemma index_None {A} `{EqDecision A} (x : A) l : index x l = None ↔ x ∉ l.
Proof.
  induction l as [|y l IH]; simpl.
  - split; [intros _; apply not_elem_of_nil|done].
  - rewrite not_elem_of_cons. case_decide as Heq.
    + subst. split; [done|]. by intros [? _].
    + rewrite fmap_None, IH. intuition congruence.
Qed.

(** The lines around a heading: what precedes it, the blank lines after
    it, and the rest. *)
Lemma heading_split (heading : str) lines i :
  index heading lines = Some i →
  let after := drop (S i) lines in
  lines = take i lines
          ++ heading :: (take_while is_blank after ++ drop_while is_blank after) ∧
  (heading ∉ take i lines) ∧
  skip_blank lines (i + 1)
  = length (take i lines ++ heading :: take_while is_blank after).
Proof.
  intros [Hi Hn]%index_Some. simpl. split_and!; [|done|].
  - rewrite take_drop_while. rewrite <- (take_drop_middle _ _ _ Hi) at 1. done.
  - unfold skip_blank. rewrite length_app, length_take. simpl.
    apply lookup_lt_Some in Hi. rewrite Nat.add_1_r.
    replace (i `min` length lines) with i by lia. lia.
Qed.

Lemma linear_put_summary lines i summary :
  index Linear.DAILY_SUMMARIES lines = Some i →
  ∃ pre blanks rest,
    lines = pre ++ Linear.DAILY_SUMMARIES :: (blanks ++ rest) ∧
    (Linear.DAILY_SUMMARIES ∉ pre) ∧ length pre = i ∧
    Forall (λ l, is_blank l = true) blanks ∧
    match rest with [] => True | l :: _ => is_blank l = false end ∧
    Linear.put_summary lines i summary
    = pre ++ Linear.DAILY_SUMMARIES :: (blanks ++ summary ::
        match rest with
        | first :: more =>
            if is_entry first
            then drop_while is_blank (drop_while is_further_entry more)
            else rest
        | [] => []
        end).
Proof.
  intros Hi. pose proof Hi as [Hl Hn]%index_Some.
  destruct (heading_split _ _ _ Hi) as (Hlines & _ & Hskip).
  set (pre := take i lines) in *.
  set (blanks := take_while is_blank (drop (S i) lines)) in *.
  set (rest := drop_while is_blank (drop (S i) lines)) in *.
  exists pre, blanks, rest.
  assert (Hpre : length pre = i).
  { unfold pre. rewrite length_take. apply lookup_lt_Some in Hl. lia. }
  split_and!; [done|done|done|apply take_while_all| |].
  { destruct rest as [|l rest'] eqn:Hrest; [done|].
    eapply drop_while_head. unfold rest in Hrest. by rewrite Hrest. }
  unfold Linear.put_summary. rewrite Hskip.
  set (front := pre ++ Linear.DAILY_SUMMARIES :: blanks) in *.
  assert (Hfront : lines = front ++ rest).
  { unfold front. by rewrite <- app_assoc. }
  assert (Hgoal : ∀ tail, pre ++ Linear.DAILY_SUMMARIES :: (blanks ++ tail)
                          = front ++ tail).
  { intros tail. unfold front. by rewrite <- app_assoc. }
  rewrite Hgoal. rewrite Hfront at 1.
  rewrite lookup_app_r, Nat.sub_diag by lia.
  destruct rest as [|first more]; simpl.
  - unfold list_insert_at. rewrite Hfront, app_nil_r.
    by rewrite take_ge, drop_ge by lia.
  - destruct (is_entry first).
    + rewrite Hfront. unfold pop_while.
      rewrite insert_app_r_alt, Nat.sub_diag by lia. simpl.
      assert (Hlen : length front + 1 = length (front ++ [summary]))
        by (rewrite length_app; simpl; lia).
      rewrite Hlen.
      rewrite (cons_middle summary front more).
      rewrite app_assoc.
      rewrite take_app_length, drop_app_length.
      rewrite take_app_length, drop_app_length.
      by rewrite <- app_assoc.
    + unfold list_insert_at. rewrite Hfront.
      by rewrite take_app_length, drop_app_length.
Qed.


(** ** The timestamp line *)

Lemma replace_timestamp_Some label repl lines lines' :
  replace_timestamp label repl lines = Some lines' ↔
  ∃ l1 line l2,
    lines = l1 ++ line :: l2 ∧
    Forall (λ l, contains (Re.label_token label) l = false) l1 ∧
    contains (Re.label_token label) line = true ∧
    lines' = l1 ++ Re.sub_field label repl line :: l2.
Proof.
  revert lines'. induction lines as [|l lines IH]; intros lines'; simpl.
  - split; [done|]. intros (l1 & line & l2 & Hl & _). by destruct l1.
  - destruct (contains (Re.label_token label) l) eqn:Hc.
    + split.
      * intros [= <-]. exists [], l, lines. by repeat split.
      * intros (l1 & line & l2 & Hl & Hall & Hline & ->).
        destruct l1 as [|x l1]; simpl in *.
        -- by injection Hl as <- <-.
        -- injection Hl as <- ->. apply Forall_cons in Hall as [? _]. congruence.
    + rewrite fmap_Some. split.
      * intros (rest & Hrest & ->). apply IH in Hrest
          as (l1 & line & l2 & -> & Hall & Hline & ->).
        exists (l :: l1), line, l2. split_and!; [done| |done|done].
        by apply Forall_cons.
      * intros (l1 & line & l2 & Hl & Hall & Hline & ->).
        destruct l1 as [|x l1]; simpl in *.
        -- injection Hl as <- <-. congruence.
        -- injection Hl as <- ->. apply Forall_cons in Hall as [_ Hall].
           exists (l1 ++ Re.sub_field label repl line :: l2). split; [|done].
           apply IH. by exists l1, line, l2.
Qed.

Lemma replace_timestamp_None label repl lines :
  replace_timestamp label repl lines = None ↔
  Forall (λ l, contains (Re.label_token label) l = false) lines.
Proof.
  induction lines as [|l lines IH]; simpl.
  - split; [constructor|done].
  - destruct (contains (Re.label_token label) l) eqn:Hc.
    + split; [done|]. intros [? _]%Forall_cons. congruence.
    + rewrite fmap_None, IH. split; [by constructor|by intros [_ ?]%Forall_cons].
Qed.

Lemma contains_elem p s c : contains (c :: p) s = true → c ∈ s.
Proof.
  induction s as [|x s IH]; simpl; [done|].
  case_decide as Heq.
  - subst. intros _. by left.
  - simpl. intros H. right. by apply IH.
Qed.

Lemma sub_field_keeps_backtick label repl skip s :
  BACKTICK ∈ repl → BACKTICK ∈ drop skip s →
  BACKTICK ∈ Re.sub_field_from label repl skip s.
Proof.
  intros Hrepl. revert skip. induction s as [|c s IH]; intros skip; simpl.
  - by rewrite drop_nil.
  - destruct skip as [|k]; simpl.
    + destruct (Re.match_field label (c :: s)) as [[n g]|].
      * intros _. apply elem_of_app. by left.
      * intros [->|Hin]%elem_of_cons; [by left|].
        right. by apply (IH 0).
    + apply IH.
Qed.

Lemma sub_field_not_heading label repl line (heading : str) :
  BACKTICK ∈ repl → BACKTICK ∉ heading →
  contains (Re.label_token label) line = true →
  line ≠ heading ∧ Re.sub_field label repl line ≠ heading.
Proof.
  intros Hrepl Hh Hc. apply contains_elem in Hc.
  split; [by intros ->|].
  intros Heq. apply Hh. rewrite <- Heq.
  by apply sub_field_keeps_backtick.
Qed.


(** ** Stripping and splitting *)

Lemma drop_while_app_stop {A} (p : A → bool) (l1 l2 : list A) x :
  p x = false → drop_while p (l1 ++ x :: l2) = drop_while p l1 ++ x :: l2
  ∨ (Forall (λ y, p y = true) l1 ∧ drop_while p (l1 ++ x :: l2) = x :: l2).
Proof.
  intros Hx. induction l1 as [|y l1 IH]; simpl.
  - right. split; [constructor|]. by rewrite Hx.
  - destruct (p y) eqn:Hy; [|by left].
    destruct IH as [IH|[Hall IH]]; [by left|].
    right. split; [by constructor|done].
Qed.

Lemma lstrip_nonspace c s : is_space c = false → lstrip (c :: s) = c :: s.
Proof. intros Hc. unfold lstrip. simpl. by rewrite Hc. Qed.

Lemma rstrip_app_nonspace s c t :
  is_space c = false → rstrip (s ++ c :: t) = s ++ c :: rstrip t.
Proof.
  intros Hc. unfold rstrip.
  rewrite reverse_app, reverse_cons, <- app_assoc. simpl.
  destruct (drop_while_app_stop is_space (reverse t) (reverse s) c Hc)
    as [->|[Hall ->]].
  - rewrite reverse_app, reverse_cons, reverse_involutive.
    by rewrite <- app_assoc.
  - rewrite reverse_cons, reverse_involutive.
    assert (drop_while is_space (reverse t) = []) as ->.
    { clear -Hall. induction Hall as [|x l Hx _ IH]; simpl; [done|]. by rewrite Hx. }
    done.
Qed.

Lemma rstrip_nil : rstrip [] = [].
Proof. done. Qed.

(** A stripped text neither starts nor ends with white space. *)
Lemma drop_while_not_head {A} (p : A → bool) (l : list A) :
  match drop_while p l with [] => True | x :: _ => p x = false end.
Proof.
  induction l as [|x l IH]; simpl; [done|].
  destruct (p x) eqn:Hx; [done|]. done.
Qed.

Lemma rstrip_last s c : last (rstrip s) = Some c → is_space c = false.
Proof.
  unfold rstrip. rewrite last_reverse.
  pose proof (drop_while_not_head is_space (reverse s)) as Hh.
  destruct (drop_while is_space (reverse s)); simpl; [done|].
  by intros [= <-].
Qed.

Lemma strip_last s c : last (strip s) = Some c → is_space c = false.
Proof. apply rstrip_last. Qed.

(** Stripping keeps a piece in the middle of the text. *)
Lemma drop_while_suffix {A} (p : A → bool) (l : list A) :
  ∃ k, l = k ++ drop_while p l.
Proof. exists (take_while p l). by rewrite take_drop_while. Qed.

Lemma strip_infix s : ∃ l r, s = l ++ strip s ++ r.
Proof.
  unfold strip, rstrip, lstrip.
  destruct (drop_while_suffix is_space s) as [l Hl].
  destruct (drop_while_suffix is_space (reverse (drop_while is_space s)))
    as [r Hr].
  exists l, (reverse r).
  rewrite <- reverse_app, <- Hr, reverse_involutive. done.
Qed.

(** *** Occurrences *)

Lemma startswith_app_long p s t :
  length p ≤ length s → startswith p (s ++ t) = startswith p s.
Proof.
  revert s. induction p as [|a p IH]; intros s Hlen; [done|].
  destruct s as [|b s]; simpl in *; [lia|].
  case_decide; [|done]. apply IH. lia.
Qed.

Lemma startswith_length p s : startswith p s = true → length p ≤ length s.
Proof. intros [k ->]%startswith_prefix. rewrite length_app. lia. Qed.

Lemma startswith_infix p l mid r j :
  startswith p (drop j mid) = true →
  startswith p (drop (length l + j) (l ++ mid ++ r)) = true.
Proof.
  intros Hp. destruct p as [|a p]; [done|].
  rewrite drop_app_ge by lia.
  replace (length l + j - length l) with j by lia.
  pose proof (startswith_length _ _ Hp) as Hlen.
  rewrite length_drop in Hlen. simpl in Hlen.
  rewrite drop_app_le by lia.
  rewrite startswith_app_long; [done|]. rewrite length_drop. simpl. lia.
Qed.

Lemma find_None_infix p l mid r :
  find p (l ++ mid ++ r) = None → find p mid = None.
Proof.
  rewrite !find_None. intros Hall j.
  destruct (startswith p (drop j mid)) eqn:Hp; [|done].
  by rewrite <- (Hall (length l + j)), (startswith_infix _ _ _ _ _ Hp).
Qed.

Lemma find_None_strip p s : find p s = None → find p (strip s) = None.
Proof.
  destruct (strip_infix s) as (l & r & Hs). rewrite Hs at 1.
  apply find_None_infix.
Qed.

(** *** The pieces of a split *)

Lemma split_from_skip sep x b :
  split_from sep (length x) (x ++ b) = split_from sep 0 b.
Proof.
  induction x as [|c x IH]; simpl; [|done].
  destruct b; done.
Qed.

Lemma find_app_first p a b :
  p ≠ [] → find p (a ++ p) = Some (length a) →
  find p (a ++ p ++ b) = Some (length a).
Proof.
  intros Hp [Hs [_ Hmin]]%find_Some. apply find_Some. split_and!.
  - rewrite drop_app_length. apply startswith_app.
  - rewrite length_app. lia.
  - intros j Hj. rewrite <- (Hmin j Hj).
    rewrite (app_assoc a p b), drop_app_le by (rewrite length_app; lia).
    apply startswith_app_long.
    rewrite length_drop, length_app. lia.
Qed.

Lemma split_from_first sep a b :
  sep ≠ [] → find sep (a ++ sep) = Some (length a) →
  split_from sep 0 (a ++ sep ++ b) = a :: split_from sep 0 b.
Proof.
  intros Hsep Hfind.
  pose proof (find_app_first sep a b Hsep Hfind) as [_ [_ Hmin]]%find_Some.
  clear Hfind. induction a as [|c a IH]; simpl in *.
  - destruct sep as [|s0 sep]; [done|]. simpl.
    rewrite decide_True by done.
    assert (startswith sep (sep ++ b) = true) as -> by apply startswith_app.
    f_equal. rewrite Nat.sub_0_r. apply split_from_skip.
  - specialize (Hmin 0 ltac:(lia)) as H0. simpl in H0. rewrite H0.
    rewrite IH; [done|].
    intros j Hj. apply (Hmin (S j)). lia.
Qed.

Lemma split1_first sep a b :
  sep ≠ [] → find sep (a ++ sep) = Some (length a) →
  split1 sep (a ++ sep ++ b) = [a; b].
Proof.
  intros Hsep Hfind. rewrite split1_find by done.
  rewrite (find_app_first _ _ _ Hsep Hfind).
  rewrite take_app_length. rewrite (app_assoc a sep b), <- length_app.
  by rewrite drop_app_length.
Qed.

(** ** Reading a block back *)

Lemma splitlines_first s :
  default [] (head (splitlines s)) = take_while not_linebreak s.
Proof.
  induction s as [|c s IH]; simpl; [done|]. unfold not_linebreak at 1.
  destruct (is_linebreak c); simpl; [done|].
  destruct (splitlines s) as [|l ls]; simpl in *; by rewrite <- IH.
Qed.

Lemma take_while_app_all {A} (p : A → bool) (l1 l2 : list A) :
  Forall (λ x, p x = true) l1 → take_while p (l1 ++ l2) = l1 ++ take_while p l2.
Proof. induction 1 as [|x l Hx _ IH]; simpl; [done|]. by rewrite Hx, IH. Qed.

Lemma find_char c a : c ∉ a → find [c] (a ++ [c]) = Some (length a).
Proof.
  induction a as [|x a IH]; simpl.
  - intros _. by rewrite decide_True.
  - intros [Hne Hn]%not_elem_of_cons. rewrite decide_False by done.
    by rewrite IH.
Qed.

Lemma strip_heading_line x c rest :
  match x with [] => is_space c = false | y :: _ => is_space y = false end →
  is_space c = false →
  strip (x ++ c :: rest) = x ++ c :: rstrip rest.
Proof.
  intros Hx Hc. unfold strip.
  assert (lstrip (x ++ c :: rest) = x ++ c :: rest) as ->.
  { destruct x as [|y x]; simpl; by apply lstrip_nonspace. }
  by apply rstrip_app_nonspace.
Qed.

Lemma parse_block_heading id rest :
  strip id = id → ":"%char ∉ id → Forall (λ c, is_linebreak c = false) id →
  parse_block (lit "# " ++ id ++ lit ":" ++ rest)
  = Some {| identifier := id;
            content := strip (lit "# " ++ id ++ lit ":" ++ rest) ++ DELIMITER |}.
Proof.
  intros Hstrip Hcolon Hbreak. unfold parse_block.
  set (text := lit "# " ++ id ++ lit ":" ++ rest).
  assert (Htext : strip text = (lit "# " ++ id) ++ ":"%char :: rstrip rest).
  { unfold text. rewrite (app_assoc (lit "# ") id).
    change (lit ":" ++ rest) with (":"%char :: rest).
    by apply strip_heading_line. }
  cbv zeta. rewrite !Htext.
  assert (Hfirst : strip (default [] (head (splitlines
                     ((lit "# " ++ id) ++ ":"%char :: rstrip rest))))
                   = (lit "# " ++ id) ++ ":"%char
                       :: rstrip (take_while not_linebreak (rstrip rest))).
  { rewrite splitlines_first.
    rewrite (cons_middle ":"%char), app_assoc.
    rewrite take_while_app_all; last first.
    { apply Forall_app. split; [apply Forall_app; split|].
      - by repeat constructor.
      - eapply Forall_impl; [exact Hbreak|]. intros c Hc. unfold not_linebreak.
        by rewrite Hc.
      - by repeat constructor. }
    rewrite <- app_assoc. simpl ([":"%char] ++ _).
    by apply strip_heading_line. }
  rewrite !Hfirst. simpl.
  rewrite drop_0.
  set (z := rstrip (take_while not_linebreak (rstrip rest))).
  pose proof (split1_first [":"%char] id z ltac:(done) (find_char _ _ Hcolon))
    as Hs.
  change ([":"%char] ++ z) with (":"%char :: z) in Hs. rewrite Hs.
  simpl. by rewrite Hstrip.
Qed.

(** ** A rendered batch read back *)

Lemma concat_app_r {A} (ls : list (list A)) : concat ls = mjoin ls.
Proof. induction ls as [|l ls IH]; simpl; [done|]. by rewrite IH. Qed.

Lemma render_batch_eq team ts n es :
  render_batch team ts n es
  = batch_header team ts n ++ DELIMITER ++ concat (content <$> es).
Proof.
  unfold render_batch, batch_header, DELIMITER.
  rewrite concat_app. cbn [concat]. rewrite app_nil_r.
  repeat (first [rewrite <- app_assoc | progress cbn [app]]). done.
Qed.

Lemma find_delimiter_skip c s :
  c ≠ LF → find DELIMITER (c :: s) = S <$> find DELIMITER s.
Proof. intros Hc. simpl. by rewrite decide_False by done. Qed.

Lemma find_delimiter_skip_all a s :
  LF ∉ a → find DELIMITER (a ++ s) = (λ i, length a + i) <$> find DELIMITER s.
Proof.
  induction a as [|c a IH]; simpl app.
  - intros _. by destruct (find DELIMITER s).
  - intros [Hc Ha]%not_elem_of_cons. rewrite find_delimiter_skip by done.
    rewrite IH by done. by destruct (find DELIMITER s).
Qed.

Lemma string_of_uint_digits d :
  Forall (λ c, is_digit c = true) (lit (NilEmpty.string_of_uint d)).
Proof. induction d; simpl; by constructor. Qed.

Lemma str_of_nat_digits n : Forall (λ c, is_digit c = true) (str_of_nat n).
Proof. apply string_of_uint_digits. Qed.

Lemma digits_no_LF s : Forall (λ c, is_digit c = true) s → LF ∉ s.
Proof.
  intros Hall Hin. eapply Forall_forall in Hall; [|exact Hin]. done.
Qed.

Lemma header_find team ts n :
  LF ∉ team → LF ∉ ts →
  find DELIMITER (batch_header team ts n ++ DELIMITER)
  = Some (length (batch_header team ts n)).
Proof.
  intros Hteam Hts. unfold batch_header.
  set (A := lit "# " ++ team ++ lit " - Issue Batch " ++ str_of_nat n).
  set (B := lit "Generated: " ++ ts ++ lit "_").
  assert (HA : LF ∉ A).
  { unfold A. rewrite !elem_of_app. intros [Hin|[?|[Hin|Hin]]]; [|done| |].
    - revert Hin. change (LF ∉ lit "# "). computed.
    - revert Hin. change (LF ∉ lit " - Issue Batch "). computed.
    - by eapply digits_no_LF; [apply str_of_nat_digits|]. }
  assert (HB : LF ∉ B).
  { unfold B. rewrite !elem_of_app. intros [Hin|[?|Hin]]; [|done|].
    - revert Hin. change (LF ∉ lit "Generated: "). computed.
    - revert Hin. change (LF ∉ lit "_"). computed. }
  replace ((lit "# " ++ team ++ lit " - Issue Batch " ++ str_of_nat n
            ++ [LF; LF] ++ lit "_Generated: " ++ ts ++ lit "_" ++ [LF])
           ++ DELIMITER)
    with (A ++ LF :: LF :: "_"%char :: B ++ LF :: DELIMITER); last first.
  { unfold A, B, DELIMITER. change (lit "_Generated: ") with ("_"%char :: lit "Generated: ").
    repeat (first [rewrite <- app_assoc | progress cbn [app]]). done. }
  replace (length (lit "# " ++ team ++ lit " - Issue Batch " ++ str_of_nat n
            ++ [LF; LF] ++ lit "_Generated: " ++ ts ++ lit "_" ++ [LF]))
    with (length A + (3 + (length B + 1))); last first.
  { unfold A, B. rewrite !length_app. simpl. lia. }
  rewrite find_delimiter_skip_all by done.
  assert (find DELIMITER (LF :: LF :: "_"%char :: B ++ LF :: DELIMITER)
          = Some (3 + (length B + 1))) as ->; [|done].
  change (find DELIMITER (LF :: LF :: "_"%char :: B ++ LF :: DELIMITER))
    with (S <$> (S <$> (S <$> find DELIMITER (B ++ LF :: DELIMITER)))).
  rewrite find_delimiter_skip_all by done.
  change (find DELIMITER (LF :: DELIMITER)) with (Some 1). simpl.
  do 4 f_equal. 
Qed.

(** *** Rendering and parsing back *)

Lemma split_bodies texts :
  Forall ends_once texts →
  split DELIMITER (concat ((λ t, t ++ DELIMITER) <$> texts)) = texts ++ [[]].
Proof.
  unfold split. induction 1 as [|t texts Ht _ IH]; [done|].
  rewrite fmap_cons. cbn [concat].
  rewrite <- app_assoc. rewrite split_from_first; [|done|exact Ht].
  by rewrite IH.
Qed.

Lemma readable_body e rest :
  content e = heading_of (identifier e) ++ rest ++ DELIMITER →
  body_of e = heading_of (identifier e) ++ rest.
Proof.
  intros He. unfold body_of. rewrite He.
  rewrite (app_assoc _ rest), length_app, Nat.add_sub.
  by rewrite take_app_length.
Qed.

Lemma parse_block_readable e :
  readable e → parse_block (body_of e) = Some (normalised e).
Proof.
  intros ((rest & He & Honce) & Hstrip & Hcolon & Hbreak).
  unfold normalised. rewrite (readable_body e rest He).
  unfold heading_of. rewrite <- !app_assoc.
  by rewrite parse_block_heading.
Qed.




(** ** What the parser can return *)

(** No piece of a split holds the separator. *)
Lemma split_from_pieces sep s skip :
  sep ≠ [] →
  ∃ p ps, split_from sep skip s = p :: ps ∧ p `prefix_of` drop skip s ∧
          Forall (λ piece, find sep piece = None) (p :: ps).
Proof.
  intros Hsep. revert skip. induction s as [|c s IH]; intros skip.
  - exists [], []. simpl. split_and!; [done|by rewrite drop_nil|].
    constructor; [|done]. by destruct sep.
  - destruct skip as [|k]; simpl.
    + destruct (startswith sep (c :: s)) eqn:Hp.
      * destruct (IH (length sep - 1)) as (p & ps & -> & _ & Hall).
        exists [], (p :: ps). split_and!; [done|apply prefix_nil|].
        constructor; [|done]. by destruct sep.
      * destruct (IH 0) as (p & ps & -> & Hpre & Hall).
        exists (c :: p), ps. apply Forall_cons in Hall as [Hp0 Hall].
        split_and!; [done|by apply prefix_cons|].
        constructor; [|done]. simpl.
        destruct (startswith sep (c :: p)) eqn:Hcp.
        -- exfalso. apply startswith_prefix in Hcp.
           assert (sep `prefix_of` c :: s) as Hs
             by (etrans; [exact Hcp|by apply prefix_cons]).
           apply startswith_prefix in Hs. congruence.
        -- by rewrite Hp0.
    + destruct (IH k) as (p & ps & -> & Hpre & Hall). by exists p, ps.
Qed.

Lemma split_pieces sep s piece :
  sep ≠ [] → piece ∈ split sep s → find sep piece = None.
Proof.
  intros Hsep Hin. destruct (split_from_pieces sep s 0 Hsep) as (p & ps & Hs & _ & Hall).
  unfold split in Hin. rewrite Hs in Hin.
  by eapply Forall_forall in Hall.
Qed.

(** A short piece that does not end in white space, followed by the
    delimiter, does not start with the delimiter. *)
Lemma delimiter_overlap x c :
  last x = Some c → is_space c = false → length x < length DELIMITER →
  startswith DELIMITER (x ++ DELIMITER) = false.
Proof.
  intros Hlast Hc Hlen.
  destruct x as [|c1 [|c2 [|c3 [|c4 [|c5 [|c6 x]]]]]]; simpl in Hlen;
    try lia; try done; simpl in Hlast; injection Hlast as <-;
    simpl; repeat (case_decide; [subst|done]); done.
Qed.

Lemma single_delimiter body c :
  last body = Some c → is_space c = false → find DELIMITER body = None →
  ends_once body.
Proof.
  intros Hlast Hc Hnone. apply find_Some. split_and!.
  - by rewrite drop_app_length.
  - rewrite length_app. lia.
  - intros j Hj. rewrite drop_app_le by lia.
    destruct (decide (length DELIMITER ≤ length (drop j body))) as [Hlong|Hshort].
    + rewrite startswith_app_long by done. by apply find_None.
    + apply (delimiter_overlap _ c); [|done|lia].
      rewrite <- Hlast. clear -Hj.
      revert j Hj. induction body as [|x body IH]; intros j Hj; simpl in *; [lia|].
      destruct j as [|j]; [done|]. simpl. rewrite IH by lia.
      destruct body; [simpl in *; lia|done].
Qed.

Lemma parse_block_content block e :
  parse_block block = Some e →
  content e = strip block ++ DELIMITER ∧ strip block ≠ [].
Proof.
  unfold parse_block. destruct (strip block) as [|c s] eqn:Hs; [done|].
  destruct (startswith _ _); [|done]. by intros [= <-].
Qed.


(** ** The merge loop against its functional description *)

Lemma resolve_insert_new_entry h refs r :
  resolve h (insert_new_entry h refs r) = insert_sorted (resolve h refs) (deref h r).
Proof.
  induction refs as [|x refs IH]; simpl; [done|].
  destruct (_ <? _)%Z; simpl; [done|]. by rewrite <- IH.
Qed.

Lemma deref_app_l h e r : r < length h → deref (h ++ [e]) r = deref h r.
Proof. intros. unfold deref. by rewrite lookup_total_app_l. Qed.

Lemma deref_app_new h e : deref (h ++ [e]) (length h) = e.
Proof.
  unfold deref. rewrite lookup_total_app_r by lia.
  by rewrite Nat.sub_diag.
Qed.

Lemma resolve_app_l h e refs :
  Forall (λ r, r < length h) refs → resolve (h ++ [e]) refs = resolve h refs.
Proof.
  unfold resolve. induction 1; simpl; [done|].
  rewrite deref_app_l by done. by f_equal.
Qed.

Lemma deref_alter h f r r' :
  r < length h →
  deref (alter f r h) r' = if decide (r' = r) then f (deref h r) else deref h r'.
Proof.
  intros Hr. unfold deref. case_decide as Heq.
  - subst. apply list_lookup_total_correct.
    rewrite list_lookup_alter_eq.
    destruct (lookup_lt_is_Some_2 h r Hr) as [x Hx].
    rewrite Hx. simpl. by rewrite (list_lookup_total_correct _ _ _ Hx).
  - by rewrite list_lookup_total_alter_ne.
Qed.

Lemma insert_sorted_perm es e : insert_sorted es e ≡ₚ e :: es.
Proof.
  induction es as [|x es IH]; simpl; [done|].
  destruct (_ <? _)%Z; [done|]. rewrite IH. apply Permutation_swap.
Qed.

Lemma insert_new_entry_perm h refs r : insert_new_entry h refs r ≡ₚ r :: refs.
Proof.
  induction refs as [|x refs IH]; simpl; [done|].
  destruct (_ <? _)%Z; [done|]. rewrite IH. apply Permutation_swap.
Qed.

Lemma resolve_seq h : resolve h (seq 0 (length h)) = h.
Proof.
  unfold resolve, deref. apply list_eq. intros i.
  rewrite list_lookup_fmap.
  destruct (decide (i < length h)) as [Hi|Hi].
  - rewrite lookup_seq_lt by done. simpl.
    destruct (lookup_lt_is_Some_2 h i Hi) as [x Hx].
    by rewrite Hx, (list_lookup_total_correct _ _ _ Hx).
  - rewrite lookup_seq_ge by lia. simpl.
    symmetry. apply lookup_ge_None. lia.
Qed.

Lemma build_entry_map_from (h : list IssueEntry) (refs : list nat)
    (m0 : gmap str nat) (id : str) (r : nat) :
  NoDup (identifier <$> resolve h refs) →
  foldl (λ m r, <[identifier (deref h r) := r]> m) m0 refs !! id = Some r ↔
  (r ∈ refs ∧ identifier (deref h r) = id) ∨
  (m0 !! id = Some r ∧ id ∉ identifier <$> resolve h refs).
Proof.
  revert m0. induction refs as [|x refs IH]; intros m0 Hnd; simpl in *.
  - split; [intros; right; split; [done|apply not_elem_of_nil]|].
    intros [[Hr _]|[? _]]; [by apply elem_of_nil in Hr|done].
  - apply NoDup_cons in Hnd as [Hx Hnd].
    rewrite IH by done. rewrite lookup_insert.
    split.
    + intros [[Hr Hid]|[Hm Hnot]].
      * left. split; [by right|done].
      * case_decide as Heq.
        -- injection Hm as <-. left. split; [by left|done].
        -- right. split; [done|]. rewrite not_elem_of_cons. done.
    + intros [[Hr Hid]|[Hm Hnot]].
      * apply elem_of_cons in Hr as [->|Hr].
        -- right. rewrite decide_True by done. split; [done|]. by rewrite <- Hid.
        -- by left.
      * apply not_elem_of_cons in Hnot as [Hne Hnot].
        right. by rewrite decide_False.
Qed.

Lemma initial_state_ok loaded t :
  NoDup (identifier <$> loaded) →
  store_ok (initial_state loaded t) ∧ final_entries (initial_state loaded t) = loaded.
Proof.
  intros Hnd.
  assert (Hres : final_entries (initial_state loaded t) = loaded)
    by apply resolve_seq.
  split; [|done]. split; simpl.
  - apply NoDup_seq.
  - apply Forall_forall. intros r Hr. apply elem_of_seq in Hr. lia.
  - by rewrite Hres.
  - intros id r. unfold build_entry_map.
    rewrite build_entry_map_from by (by rewrite resolve_seq).
    rewrite lookup_empty. intuition congruence.
Qed.

Lemma resolve_elem_of h refs r : r ∈ refs → deref h r ∈ resolve h refs.
Proof. intros. unfold resolve. by apply list_elem_of_fmap_2. Qed.

Lemma store_ok_inj st r1 r2 :
  store_ok st → r1 ∈ entries st → r2 ∈ entries st →
  identifier (deref (heap st) r1) = identifier (deref (heap st) r2) → r1 = r2.
Proof.
  intros [Hrefs _ Hids _] H1 H2 Heq.
  unfold final_entries, resolve in Hids. rewrite <- list_fmap_compose in Hids.
  apply list_elem_of_lookup in H1 as [i Hi], H2 as [j Hj].
  assert (i = j); [|congruence].
  eapply NoDup_lookup; [exact Hids| |].
  - rewrite list_lookup_fmap, Hi. done.
  - rewrite list_lookup_fmap, Hj. simpl. by rewrite Heq.
Qed.

Lemma merge_issue_touched st issue r :
  store_ok st → entry_map st !! issue_identifier issue = Some r →
  final_entries (merge_issue st issue)
  = refresh (issue_identifier issue) (issue_markdown issue) (final_entries st).
Proof.
  intros Hok Hm. unfold merge_issue. rewrite Hm. unfold final_entries. simpl.
  pose proof (proj1 (map_ok _ Hok _ _) Hm) as [Hr Hid].
  pose proof (refs_bound _ Hok) as Hb.
  unfold refresh, resolve. rewrite <- list_fmap_compose.
  apply list_fmap_ext. intros i r' Hr'. simpl.
  assert (r' ∈ entries st) as Hin by (by eapply list_elem_of_lookup_2).
  assert (r < length (heap st)) by (by eapply Forall_forall in Hb).
  rewrite deref_alter by done.
  case_decide as Heq.
  - subst r'. by rewrite decide_True.
  - rewrite decide_False; [done|]. intros Hid'. apply Heq.
    eapply store_ok_inj; eauto. congruence.
Qed.

Lemma merge_issue_new st issue :
  store_ok st → entry_map st !! issue_identifier issue = None →
  final_entries (merge_issue st issue)
  = insert_sorted (final_entries st) (entry_of issue).
Proof.
  intros Hok Hm. unfold merge_issue. rewrite Hm. unfold final_entries. simpl.
  rewrite resolve_insert_new_entry, deref_app_new.
  by rewrite resolve_app_l by apply Hok.
Qed.

Lemma entry_map_dom st id :
  store_ok st → is_Some (entry_map st !! id) ↔ id ∈ identifier <$> final_entries st.
Proof.
  intros Hok. split.
  - intros [r Hr]. apply (map_ok _ Hok) in Hr as [Hr <-].
    apply list_elem_of_fmap_2. by apply resolve_elem_of.
  - intros Hin. apply list_elem_of_fmap in Hin as (e & -> & He).
    apply list_elem_of_fmap in He as (r & -> & Hr).
    exists r. by apply (map_ok _ Hok).
Qed.

Lemma merge_issue_spec st issue :
  store_ok st →
  final_entries (merge_issue st issue) = merge_step_spec (final_entries st) issue.
Proof.
  intros Hok. unfold merge_step_spec.
  destruct (entry_map st !! issue_identifier issue) as [r|] eqn:Hm.
  - rewrite decide_True; [by eapply merge_issue_touched|].
    apply entry_map_dom; eauto.
  - rewrite decide_False; [by apply merge_issue_new|].
    intros Hin. apply entry_map_dom in Hin as [? ?]; [congruence|done].
Qed.

Lemma refresh_ids id c es : identifier <$> refresh id c es = identifier <$> es.
Proof.
  unfold refresh. rewrite <- list_fmap_compose. apply list_fmap_ext.
  intros i e _. simpl. by case_decide.
Qed.

Lemma merge_issue_ok st issue : store_ok st → store_ok (merge_issue st issue).
Proof.
  intros Hok.
  pose proof (merge_issue_spec st issue Hok) as Hspec.
  unfold merge_step_spec in Hspec.
  destruct (entry_map st !! issue_identifier issue) as [r|] eqn:Hm.
  - pose proof (proj1 (map_ok _ Hok _ _) Hm) as [Hr Hid].
    assert (r < length (heap st)) as Hlt
      by (by eapply Forall_forall in Hr; [|apply Hok]).
    rewrite decide_True in Hspec by (apply entry_map_dom; eauto).
    assert (Hh : ∀ r', identifier (deref (heap (merge_issue st issue)) r')
                       = identifier (deref (heap st) r')).
    { intros r'. unfold merge_issue. rewrite Hm. simpl.
      rewrite deref_alter by done. by case_decide; subst. }
    split.
    + unfold merge_issue. rewrite Hm. simpl. apply Hok.
    + unfold merge_issue. rewrite Hm. simpl. rewrite length_alter. apply Hok.
    + rewrite Hspec, refresh_ids. apply Hok.
    + intros id r'. rewrite Hh. unfold merge_issue at 1 2. rewrite Hm. simpl.
      apply Hok.
  - rewrite decide_False in Hspec
      by (intros Hin; apply entry_map_dom in Hin as [? ?]; [congruence|done]).
    assert (Hfresh : length (heap st) ∉ entries st).
    { intros Hin. eapply Forall_forall in Hin; [|apply Hok]. simpl in Hin. lia. }
    assert (Hnotin : issue_identifier issue ∉ identifier <$> final_entries st).
    { intros Hin. apply entry_map_dom in Hin as [? ?]; [congruence|done]. }
    split.
    + unfold merge_issue. rewrite Hm. simpl.
      rewrite insert_new_entry_perm. apply NoDup_cons. split; [done|apply Hok].
    + unfold merge_issue. rewrite Hm. simpl.
      rewrite insert_new_entry_perm. rewrite length_app. simpl.
      apply Forall_cons. split; [lia|].
      eapply Forall_impl; [apply Hok|]. simpl. lia.
    + rewrite Hspec, insert_sorted_perm. simpl. apply NoDup_cons.
      split; [done|apply Hok].
    + intros id r. unfold merge_issue. rewrite Hm. simpl.
      rewrite insert_new_entry_perm, elem_of_cons, lookup_insert.
      case_decide as Hid.
      * subst id. split.
        -- intros [= <-]. split; [by left|]. by rewrite deref_app_new.
        -- intros [[->|Hr] Hidr]; [done|].
           exfalso. apply Hnotin. rewrite <- Hidr.
           rewrite deref_app_l
             by (by eapply Forall_forall in Hr; [|apply Hok]).
           apply list_elem_of_fmap_2. by apply resolve_elem_of.
      * rewrite (map_ok _ Hok). split.
        -- intros [Hr Hidr]. split; [by right|].
           rewrite deref_app_l; [done|].
           by eapply Forall_forall in Hr; [|apply Hok].
        -- intros [[->|Hr] Hidr].
           ++ rewrite deref_app_new in Hidr. simpl in Hidr. done.
           ++ split; [done|]. rewrite deref_app_l in Hidr; [done|].
              by eapply Forall_forall in Hr; [|apply Hok].
Qed.

Lemma merge_loop_spec st incoming :
  store_ok st →
  store_ok (merge_loop st incoming) ∧
  final_entries (merge_loop st incoming) = merge_spec (final_entries st) incoming.
Proof.
  revert st. induction incoming as [|issue incoming IH]; intros st Hok; [done|].
  simpl. destruct (IH (merge_issue st issue) (merge_issue_ok _ _ Hok)) as [? ->].
  split; [done|]. by rewrite merge_issue_spec.
Qed.

(** *** Order and identifiers after the merge *)

Lemma insert_sorted_split es e :
  ∃ l1 l2, es = l1 ++ l2 ∧ insert_sorted es e = l1 ++ e :: l2 ∧
    Forall (λ x, (numeric_id x ≤ numeric_id e)%Z) l1 ∧
    (StronglySorted key_order es → Forall (λ x, (numeric_id e < numeric_id x)%Z) l2).
Proof.
  induction es as [|x es IH]; simpl.
  - exists [], []. by repeat split.
  - destruct (Z.ltb_spec (numeric_id e) (numeric_id x)) as [Hlt|Hge].
    + exists [], (x :: es). repeat split; [done|].
      intros Hs. apply StronglySorted_cons in Hs as [Hall _].
      apply Forall_cons. split; [done|].
      eapply Forall_impl; [exact Hall|]. unfold key_order. simpl. lia.
    + destruct IH as (l1 & l2 & -> & -> & H1 & H2).
      exists (x :: l1), l2. repeat split.
      * by apply Forall_cons.
      * intros Hs. apply StronglySorted_cons in Hs as [_ Hs]. auto.
Qed.

Lemma insert_sorted_sorted es e :
  StronglySorted key_order es → StronglySorted key_order (insert_sorted es e).
Proof.
  intros Hs. destruct (insert_sorted_split es e) as (l1 & l2 & -> & -> & H1 & H2).
  specialize (H2 Hs).
  apply StronglySorted_app in Hs as (H12 & Hs1 & Hs2).
  apply StronglySorted_app. split_and!; [|done|].
  - intros a b Ha Hb. apply elem_of_cons in Hb as [->|Hb].
    + eapply Forall_forall in H1; eauto.
    + by apply H12.
  - apply StronglySorted_cons. split; [|done].
    eapply Forall_impl; [exact H2|]. unfold key_order. simpl. lia.
Qed.

Lemma refresh_keys id c es : numeric_id <$> refresh id c es = numeric_id <$> es.
Proof.
  unfold refresh. rewrite <- list_fmap_compose. apply list_fmap_ext.
  intros i e _. simpl. by case_decide.
Qed.

Lemma StronglySorted_keys (l1 l2 : list IssueEntry) :
  numeric_id <$> l1 = numeric_id <$> l2 →
  StronglySorted key_order l1 → StronglySorted key_order l2.
Proof.
  intros Heq Hs.
  assert (Hk : ∀ l, StronglySorted key_order l ↔ StronglySorted Z.le (numeric_id <$> l)).
  { clear. induction l as [|x l IH]; simpl.
    - split; constructor.
    - rewrite !StronglySorted_cons, IH, Forall_fmap. done. }
  apply Hk. rewrite <- Heq. by apply Hk.
Qed.

Lemma merge_step_spec_sorted es issue :
  StronglySorted key_order es → StronglySorted key_order (merge_step_spec es issue).
Proof.
  intros Hs. unfold merge_step_spec. case_decide.
  - eapply StronglySorted_keys; [|exact Hs]. by rewrite refresh_keys.
  - by apply insert_sorted_sorted.
Qed.

Lemma merge_spec_sorted es incoming :
  StronglySorted key_order es → StronglySorted key_order (merge_spec es incoming).
Proof.
  revert es. induction incoming as [|i incoming IH]; intros es Hs; [done|].
  simpl. apply IH. by apply merge_step_spec_sorted.
Qed.

(** *** What the loop keeps track of *)

Lemma merge_loop_snoc st incoming issue :
  merge_loop st (incoming ++ [issue]) = merge_issue (merge_loop st incoming) issue.
Proof. unfold merge_loop. by rewrite foldl_app. Qed.

Lemma merge_issue_known st issue :
  store_ok st → issue_identifier issue ∈ ids (final_entries st) →
  touched_identifiers (merge_issue st issue)
    = touched_identifiers st ++ [issue_identifier issue] ∧
  new_identifiers (merge_issue st issue) = new_identifiers st ∧
  final_entries (merge_issue st issue)
    = refresh (issue_identifier issue) (issue_markdown issue) (final_entries st).
Proof.
  intros Hok Hin. pose proof (merge_issue_spec st issue Hok) as Hs.
  unfold merge_step_spec in Hs. rewrite decide_True in Hs by done.
  apply entry_map_dom in Hin as [r Hr]; [|done].
  unfold merge_issue in *. rewrite Hr in *. done.
Qed.

Lemma merge_issue_unknown st issue :
  store_ok st → issue_identifier issue ∉ ids (final_entries st) →
  touched_identifiers (merge_issue st issue) = touched_identifiers st ∧
  new_identifiers (merge_issue st issue)
    = new_identifiers st ++ [issue_identifier issue] ∧
  final_entries (merge_issue st issue)
    = insert_sorted (final_entries st) (entry_of issue).
Proof.
  intros Hok Hin. pose proof (merge_issue_spec st issue Hok) as Hs.
  unfold merge_step_spec in Hs. rewrite decide_False in Hs by done.
  destruct (entry_map st !! issue_identifier issue) as [r|] eqn:Hr.
  { exfalso. apply Hin. apply entry_map_dom; eauto. }
  unfold merge_issue in *. rewrite Hr in *. done.
Qed.

Lemma merge_issue_latest st issue :
  latest_updated_at (merge_issue st issue)
  = N.max (latest_updated_at st) (issue_updated_at issue).
Proof.
  unfold merge_issue.
  assert ((if (latest_updated_at st <? issue_updated_at issue)%N
           then issue_updated_at issue else latest_updated_at st)
          = N.max (latest_updated_at st) (issue_updated_at issue)) as ->.
  { destruct (N.ltb_spec (latest_updated_at st) (issue_updated_at issue)); lia. }
  by destruct (entry_map st !! issue_identifier issue).
Qed.

Lemma merge_issue_heap_grows st issue :
  length (heap st) ≤ length (heap (merge_issue st issue)).
Proof.
  unfold merge_issue. destruct (entry_map st !! _); simpl.
  - by rewrite length_alter.
  - rewrite length_app. simpl. lia.
Qed.

Section merged.
Context (loaded : list IssueEntry) (t : datetime).
Hypothesis loaded_nodup : NoDup (ids loaded).

Lemma merged_ok incoming : store_ok (merged loaded t incoming).
Proof.
  apply merge_loop_spec. by apply initial_state_ok.
Qed.

Lemma merged_spec incoming :
  final_entries (merged loaded t incoming) = merge_spec loaded incoming.
Proof.
  unfold merged.
  destruct (initial_state_ok loaded t loaded_nodup) as [Hok Hfin].
  destruct (merge_loop_spec _ incoming Hok) as [_ ->]. by rewrite Hfin.
Qed.

Lemma merged_snoc incoming issue :
  merged loaded t (incoming ++ [issue])
  = merge_issue (merged loaded t incoming) issue.
Proof. apply merge_loop_snoc. Qed.

Lemma merged_ids_perm incoming :
  ids (final_entries (merged loaded t incoming))
  ≡ₚ ids loaded ++ new_identifiers (merged loaded t incoming).
Proof.
  induction incoming as [|issue incoming IH] using rev_ind.
  - unfold merged. simpl. rewrite app_nil_r.
    by rewrite (proj2 (initial_state_ok loaded t loaded_nodup)).
  - rewrite merged_snoc.
    pose proof (merged_ok incoming) as Hok.
    destruct (decide (issue_identifier issue
                      ∈ ids (final_entries (merged loaded t incoming)))) as [Hin|Hin].
    + destruct (merge_issue_known _ _ Hok Hin) as (_ & -> & ->).
      by rewrite refresh_ids.
    + destruct (merge_issue_unknown _ _ Hok Hin) as (_ & -> & ->).
      rewrite insert_sorted_perm. simpl. rewrite IH.
      rewrite app_assoc. by rewrite <- Permutation_cons_append.
Qed.

Lemma merged_ids_nodup incoming :
  NoDup (ids (final_entries (merged loaded t incoming))).
Proof. apply merged_ok. Qed.

Lemma merged_new_nodup incoming :
  NoDup (ids loaded ++ new_identifiers (merged loaded t incoming)).
Proof. rewrite <- merged_ids_perm. apply merged_ids_nodup. Qed.

Lemma merged_length incoming :
  length (final_entries (merged loaded t incoming))
  = length loaded + length (new_identifiers (merged loaded t incoming)).
Proof.
  rewrite <- (length_fmap identifier), merged_ids_perm, length_app.
  by rewrite length_fmap.
Qed.

Lemma merged_touched_or_new incoming id :
  id ∈ touched_identifiers (merged loaded t incoming)
  ∨ id ∈ new_identifiers (merged loaded t incoming)
  ↔ id ∈ issue_identifier <$> incoming.
Proof.
  induction incoming as [|issue incoming IH] using rev_ind.
  - unfold merged. simpl. rewrite !elem_of_nil. tauto.
  - rewrite merged_snoc, fmap_app, elem_of_app. simpl.
    rewrite list_elem_of_singleton, <- IH.
    pose proof (merged_ok incoming) as Hok.
    destruct (decide (issue_identifier issue
                      ∈ ids (final_entries (merged loaded t incoming)))) as [Hin|Hin].
    + destruct (merge_issue_known _ _ Hok Hin) as (-> & -> & _).
      rewrite elem_of_app, list_elem_of_singleton. tauto.
    + destruct (merge_issue_unknown _ _ Hok Hin) as (-> & -> & _).
      rewrite elem_of_app, list_elem_of_singleton. tauto.
Qed.

Lemma merged_new incoming id :
  id ∈ new_identifiers (merged loaded t incoming)
  ↔ id ∈ issue_identifier <$> incoming ∧ id ∉ ids loaded.
Proof.
  induction incoming as [|issue incoming IH] using rev_ind.
  - unfold merged. simpl. rewrite !elem_of_nil. tauto.
  - rewrite merged_snoc, fmap_app, elem_of_app. simpl.
    rewrite list_elem_of_singleton.
    pose proof (merged_ok incoming) as Hok.
    pose proof (merged_ids_perm incoming) as Hperm.
    destruct (decide (issue_identifier issue
                      ∈ ids (final_entries (merged loaded t incoming)))) as [Hin|Hin].
    + destruct (merge_issue_known _ _ Hok Hin) as (_ & -> & _).
      rewrite IH. split; [tauto|]. intros [[?| ->] Hn]; [tauto|].
      rewrite Hperm, elem_of_app in Hin. destruct Hin as [?|Hin]; [done|].
      by apply IH.
    + destruct (merge_issue_unknown _ _ Hok Hin) as (_ & -> & _).
      rewrite elem_of_app, list_elem_of_singleton, IH.
      split; [|tauto]. intros [?| ->]; [tauto|]. split; [tauto|].
      intros Hl. apply Hin. rewrite Hperm, elem_of_app. tauto.
Qed.

Lemma merged_ids incoming id :
  id ∈ ids (final_entries (merged loaded t incoming))
  ↔ id ∈ ids loaded ∨ id ∈ issue_identifier <$> incoming.
Proof.
  rewrite merged_ids_perm, elem_of_app, merged_new.
  destruct (decide (id ∈ ids loaded)); tauto.
Qed.

Lemma merged_latest incoming :
  latest_updated_at (merged loaded t incoming)
  = foldl N.max t (issue_updated_at <$> incoming).
Proof.
  induction incoming as [|issue incoming IH] using rev_ind; [done|].
  rewrite merged_snoc, merge_issue_latest, IH, fmap_app, foldl_app. done.
Qed.

Lemma merged_sorted incoming :
  StronglySorted key_order loaded →
  StronglySorted key_order (final_entries (merged loaded t incoming)).
Proof. rewrite merged_spec. apply merge_spec_sorted. Qed.
End merged.

(** *** Ties, places and contents after the merge *)

Lemma with_key_app k l1 l2 : with_key k (l1 ++ l2) = with_key k l1 ++ with_key k l2.
Proof. apply filter_app. Qed.

Lemma with_key_above k (l : list IssueEntry) :
  Forall (λ x, (k < numeric_id x)%Z) l → with_key k (ids l) = [].
Proof.
  induction 1 as [|x l Hx _ IH]; [done|].
  rewrite fmap_cons. unfold with_key in *. rewrite filter_cons.
  rewrite decide_False; [done|]. unfold numeric_id in Hx. lia.
Qed.

Lemma filter_elem_of_self {A} `{EqDecision A} (l k : list A) :
  l ⊆ k → filter (λ x, x ∈ k) l = l.
Proof.
  induction l as [|x l IH]; intros Hsub; [done|].
  rewrite filter_cons, decide_True by set_solver.
  f_equal. apply IH. set_solver.
Qed.

Lemma latest_markdown_snoc id incoming issue :
  latest_markdown id (incoming ++ [issue])
  = if decide (issue_identifier issue = id) then Some (issue_markdown issue)
    else latest_markdown id incoming.
Proof.
  unfold latest_markdown. rewrite filter_app, filter_cons, filter_nil.
  case_decide.
  - by rewrite last_snoc.
  - by rewrite app_nil_r.
Qed.

Section merged_order.
Context (loaded : list IssueEntry) (t : datetime).
Hypothesis loaded_nodup : NoDup (ids loaded).

Lemma merged_ties incoming k :
  StronglySorted key_order loaded →
  with_key k (ids (final_entries (merged loaded t incoming)))
  = with_key k (ids loaded ++ new_identifiers (merged loaded t incoming)).
Proof.
  intros Hs. induction incoming as [|issue incoming IH] using rev_ind.
  - unfold merged. simpl. rewrite app_nil_r.
    by rewrite (proj2 (initial_state_ok loaded t loaded_nodup)).
  - rewrite merged_snoc.
    pose proof (merged_ok loaded t loaded_nodup incoming) as Hok.
    pose proof (merged_sorted loaded t loaded_nodup incoming Hs) as Hsorted.
    destruct (decide (issue_identifier issue
                      ∈ ids (final_entries (merged loaded t incoming)))) as [Hin|Hin].
    + destruct (merge_issue_known _ _ Hok Hin) as (_ & -> & ->).
      by rewrite refresh_ids.
    + destruct (merge_issue_unknown _ _ Hok Hin) as (_ & -> & ->).
      destruct (insert_sorted_split (final_entries (merged loaded t incoming))
                  (entry_of issue)) as (l1 & l2 & Hout & -> & H1 & H2).
      specialize (H2 Hsorted).
      rewrite app_assoc, with_key_app, <- IH, Hout.
      rewrite !fmap_app, !with_key_app, fmap_cons.
      change (identifier (entry_of issue)) with (issue_identifier issue).
      unfold with_key. rewrite !filter_cons, !filter_nil.
      case_decide as Hk.
      * fold (with_key k (ids l2)).
        rewrite with_key_above; [by rewrite !app_nil_r|].
        by rewrite <- Hk.
      * by rewrite app_nil_r.
Qed.

Lemma merged_baseline_order incoming :
  filter (λ id, id ∈ ids loaded) (ids (final_entries (merged loaded t incoming)))
  = ids loaded.
Proof.
  induction incoming as [|issue incoming IH] using rev_ind.
  - unfold merged. simpl.
    rewrite (proj2 (initial_state_ok loaded t loaded_nodup)).
    by apply filter_elem_of_self.
  - rewrite merged_snoc.
    pose proof (merged_ok loaded t loaded_nodup incoming) as Hok.
    destruct (decide (issue_identifier issue
                      ∈ ids (final_entries (merged loaded t incoming)))) as [Hin|Hin].
    + destruct (merge_issue_known _ _ Hok Hin) as (_ & _ & ->).
      by rewrite refresh_ids.
    + destruct (merge_issue_unknown _ _ Hok Hin) as (_ & _ & ->).
      destruct (insert_sorted_split (final_entries (merged loaded t incoming))
                  (entry_of issue)) as (l1 & l2 & Hout & -> & _).
      rewrite Hout in IH, Hin. rewrite fmap_app in *. simpl.
      rewrite filter_app, filter_cons in *.
      rewrite decide_False; [done|].
      intros Hl. apply Hin. rewrite <- fmap_app, <- Hout.
      apply merged_ids; auto.
Qed.

Lemma merged_content incoming e :
  e ∈ final_entries (merged loaded t incoming) →
  match latest_markdown (identifier e) incoming with
  | Some markdown => content e = markdown
  | None => e ∈ loaded
  end.
Proof.
  revert e. induction incoming as [|issue incoming IH] using rev_ind; intros e.
  - unfold merged. simpl.
    by rewrite (proj2 (initial_state_ok loaded t loaded_nodup)).
  - rewrite merged_snoc, latest_markdown_snoc.
    pose proof (merged_ok loaded t loaded_nodup incoming) as Hok.
    destruct (decide (issue_identifier issue
                      ∈ ids (final_entries (merged loaded t incoming)))) as [Hin|Hin].
    + destruct (merge_issue_known _ _ Hok Hin) as (_ & _ & ->).
      unfold refresh. intros He.
      apply list_elem_of_fmap in He as (e0 & -> & He0).
      destruct (decide (identifier e0 = issue_identifier issue)) as [Hid|Hid];
        simpl.
      * by rewrite decide_True.
      * rewrite decide_False by done. by apply IH.
    + destruct (merge_issue_unknown _ _ Hok Hin) as (_ & _ & ->).
      rewrite insert_sorted_perm, elem_of_cons. intros [->|He].
      * simpl. by rewrite decide_True.
      * rewrite decide_False; [by apply IH|].
        intros Hid. apply Hin. rewrite Hid. by apply list_elem_of_fmap_2.
Qed.
End merged_order.

(** *** New identifiers and identifiers without a number *)

Section arrivals.
Context (loaded : list IssueEntry) (t : datetime).
Hypothesis loaded_nodup : NoDup (ids loaded).

Lemma merged_genuinely_new incoming :
  new_identifiers (merged loaded t incoming) = genuinely_new loaded incoming.
Proof.
  induction incoming as [|issue incoming IH] using rev_ind; [done|].
  rewrite merged_snoc. unfold genuinely_new in *.
  rewrite fmap_app, foldl_app. simpl. rewrite <- IH.
  pose proof (merged_ok loaded t loaded_nodup incoming) as Hok.
  pose proof (merged_ids_perm loaded t loaded_nodup incoming) as Hperm.
  destruct (decide (issue_identifier issue
                    ∈ ids (final_entries (merged loaded t incoming)))) as [Hin|Hin].
  - destruct (merge_issue_known _ _ Hok Hin) as (_ & -> & _).
    rewrite decide_True; [done|]. rewrite Hperm in Hin.
    by apply elem_of_app in Hin.
  - destruct (merge_issue_unknown _ _ Hok Hin) as (_ & -> & _).
    rewrite decide_False; [done|]. rewrite Hperm in Hin.
    by rewrite elem_of_app in Hin.
Qed.

Lemma genuinely_new_elem_of incoming id :
  id ∈ genuinely_new loaded incoming
  ↔ id ∈ issue_identifier <$> incoming ∧ id ∉ ids loaded.
Proof. rewrite <- merged_genuinely_new. by apply merged_new. Qed.

Lemma genuinely_new_nodup incoming : NoDup (genuinely_new loaded incoming).
Proof.
  rewrite <- merged_genuinely_new.
  pose proof (merged_new_nodup loaded t loaded_nodup incoming) as Hnd.
  by apply NoDup_app in Hnd as (_ & _ & ?).
Qed.
End arrivals.

(** *** Identifiers without a number *)






(** ** Re-batching *)

Lemma BATCH_SIZE_pos : 0 < BATCH_SIZE.
Proof. unfold BATCH_SIZE. lia. Qed.

#[local] Opaque BATCH_SIZE.

Lemma ceil_div m n : 0 < n →
  (m + n - 1) / n = m / n + (if decide (m mod n = 0) then 0 else 1).
Proof.
  intros Hn.
  pose proof (Nat.div_mod_eq m n) as Hm.
  pose proof (Nat.mod_upper_bound m n ltac:(lia)) as Hr.
  case_decide as Hz.
  - symmetry. apply (Nat.div_unique _ _ _ (n - 1)); [lia|]. rewrite Hz in Hm. lia.
  - symmetry. apply (Nat.div_unique _ _ _ (m mod n - 1)); [lia|]. lia.
Qed.

Lemma setdefault_append_fresh {V} k (x : V) d :
  k ∉ d.*1 → setdefault_append k x d = d ++ [(k, [x])].
Proof.
  induction d as [|[k' xs] d IH]; simpl; [done|].
  intros Hk. apply not_elem_of_cons in Hk as [Hne Hk].
  rewrite decide_False by done. by rewrite IH.
Qed.

Lemma setdefault_append_last {V} k (x : V) d xs :
  k ∉ d.*1 → setdefault_append k x (d ++ [(k, xs)]) = d ++ [(k, xs ++ [x])].
Proof.
  induction d as [|[k' ys] d IH]; simpl.
  - intros _. by rewrite decide_True.
  - intros Hk. apply not_elem_of_cons in Hk as [Hne Hk].
    rewrite decide_False by done. by rewrite IH.
Qed.

Lemma build_batches_snoc entries x :
  build_batches (entries ++ [x])
  = setdefault_append (length entries / BATCH_SIZE + 1) x (build_batches entries).
Proof.
  unfold build_batches. rewrite imap_app, foldl_app. simpl.
  by rewrite Nat.add_0_r.
Qed.

Section closed_form.
Context {A : Type}.
Implicit Types l : list A.

Lemma nth_batch_snoc_full l x i :
  BATCH_SIZE * i + BATCH_SIZE ≤ length l →
  nth_batch (l ++ [x]) i = nth_batch l i.
Proof.
  intros Hi. unfold nth_batch. f_equal.
  rewrite drop_app_le by lia.
  rewrite take_app_le; [done|]. rewrite length_drop. lia.
Qed.

Lemma nth_batch_snoc_last l x :
  nth_batch (l ++ [x]) (length l / BATCH_SIZE)
  = (S (length l / BATCH_SIZE),
     drop (BATCH_SIZE * (length l / BATCH_SIZE)) l ++ [x]).
Proof.
  pose proof BATCH_SIZE_pos as Hn.
  pose proof (Nat.div_mod_eq (length l) BATCH_SIZE) as Hm.
  pose proof (Nat.mod_upper_bound (length l) BATCH_SIZE ltac:(lia)) as Hr.
  unfold nth_batch. f_equal.
  rewrite drop_app_le by lia.
  apply take_ge. rewrite length_app, length_drop. simpl. lia.
Qed.

Lemma batches_of_split l :
  batches_of l
  = (nth_batch l <$> seq 0 (length l / BATCH_SIZE))
    ++ (if decide (length l mod BATCH_SIZE = 0) then []
        else [(S (length l / BATCH_SIZE),
               drop (BATCH_SIZE * (length l / BATCH_SIZE)) l)]).
Proof.
  pose proof BATCH_SIZE_pos as Hn.
  pose proof (Nat.div_mod_eq (length l) BATCH_SIZE) as Hm.
  pose proof (Nat.mod_upper_bound (length l) BATCH_SIZE ltac:(lia)) as Hr.
  unfold batches_of, batch_count. rewrite ceil_div by done.
  case_decide as Hz.
  - by rewrite Nat.add_0_r, app_nil_r.
  - rewrite Nat.add_1_r, seq_S, fmap_app. simpl. f_equal.
    unfold nth_batch. do 2 f_equal. apply take_ge. rewrite length_drop. lia.
Qed.

Lemma batches_of_snoc l x :
  batches_of (l ++ [x])
  = (nth_batch l <$> seq 0 (length l / BATCH_SIZE))
    ++ [(S (length l / BATCH_SIZE),
         drop (BATCH_SIZE * (length l / BATCH_SIZE)) l ++ [x])].
Proof.
  pose proof BATCH_SIZE_pos as Hn.
  pose proof (Nat.div_mod_eq (length l) BATCH_SIZE) as Hm.
  unfold batches_of, batch_count. rewrite length_app. simpl.
  replace (length l + 1 + BATCH_SIZE - 1) with (length l + 1 * BATCH_SIZE) by lia.
  rewrite Nat.div_add by lia.
  rewrite Nat.add_1_r, seq_S, fmap_app. simpl.
  rewrite nth_batch_snoc_last. f_equal.
  apply list_fmap_ext. intros j i Hi. apply lookup_seq in Hi as [-> Hlt].
  apply nth_batch_snoc_full. simpl. nia.
Qed.

Lemma batches_of_keys l : (batches_of l).*1 = seq 1 (batch_count (length l)).
Proof.
  unfold batches_of. rewrite <- list_fmap_compose.
  rewrite <- fmap_S_seq. by apply list_fmap_ext.
Qed.
End closed_form.

Lemma build_batches_closed entries : build_batches entries = batches_of entries.
Proof.
  induction entries as [|x entries IH] using rev_ind; [done|].
  pose proof BATCH_SIZE_pos as Hn.
  rewrite build_batches_snoc, IH, batches_of_snoc, batches_of_split.
  assert (Hfresh : length entries / BATCH_SIZE + 1
                   ∉ (nth_batch entries <$> seq 0 (length entries / BATCH_SIZE)).*1).
  { rewrite <- list_fmap_compose. intros Hin.
    apply list_elem_of_fmap in Hin as (i & Heq & Hi). simpl in Heq.
    apply elem_of_seq in Hi. lia. }
  case_decide as Hz.
  - rewrite app_nil_r, setdefault_append_fresh by done.
    pose proof (Nat.div_mod_eq (length entries) BATCH_SIZE) as Hm.
    rewrite Nat.add_1_r. do 3 f_equal.
    rewrite drop_ge; [done|]. lia.
  - rewrite Nat.add_1_r in *. by rewrite setdefault_append_last.
Qed.

(** *** The batches of a list *)

Section batches_of.
Context {A : Type}.
Implicit Types l : list A.

Lemma batches_of_length l : length (batches_of l) = batch_count (length l).
Proof. unfold batches_of. by rewrite length_fmap, length_seq. Qed.

Lemma batches_of_lookup l i :
  i < batch_count (length l) → batches_of l !! i = Some (nth_batch l i).
Proof.
  intros Hi. unfold batches_of. rewrite list_lookup_fmap.
  by rewrite lookup_seq_lt.
Qed.

Lemma batches_of_lookup_inv l i item :
  batches_of l !! i = Some item →
  i < batch_count (length l) ∧ item = nth_batch l i.
Proof.
  intros Hi. pose proof (lookup_lt_Some _ _ _ Hi) as Hlt.
  rewrite batches_of_length in Hlt. split; [done|].
  rewrite batches_of_lookup in Hi by done. congruence.
Qed.

Lemma batches_of_concat l : concat (batches_of l).*2 = l.
Proof.
  pose proof BATCH_SIZE_pos as Hn.
  induction l as [|x l IH] using rev_ind; [done|].
  rewrite batches_of_split in IH. rewrite batches_of_snoc.
  rewrite !fmap_app, !concat_app in *. simpl. rewrite app_nil_r.
  rewrite app_assoc. f_equal. etrans; [|exact IH]. f_equal.
  case_decide as Hz; simpl; [|by rewrite app_nil_r].
  pose proof (Nat.div_mod_eq (length l) BATCH_SIZE) as Hm.
  rewrite drop_ge; [done|]. lia.
Qed.

(** Every batch holds between one and [BATCH_SIZE] entries, and every
    batch but the last exactly [BATCH_SIZE]. *)
Lemma batches_of_sizes l i k b :
  batches_of l !! i = Some (k, b) →
  k = S i ∧ 0 < length b ≤ BATCH_SIZE ∧
  (S i < length (batches_of l) → length b = BATCH_SIZE).
Proof.
  pose proof BATCH_SIZE_pos as Hn.
  intros Hi. apply batches_of_lookup_inv in Hi as [Hlt Heq].
  injection Heq as -> ->. rewrite batches_of_length.
  unfold batch_count in *. rewrite ceil_div in * by done.
  pose proof (Nat.div_mod_eq (length l) BATCH_SIZE) as Hm.
  pose proof (Nat.mod_upper_bound (length l) BATCH_SIZE ltac:(lia)) as Hr.
  rewrite length_take, length_drop.
  split; [done|]. case_decide; split; try nia.
Qed.

Lemma dict_get_batches_of l i :
  i < batch_count (length l) →
  dict_get (S i) (batches_of l) = Some (nth_batch l i).2.
Proof.
  unfold batches_of. generalize (batch_count (length l)). intros m Hi.
  assert (Hgen : ∀ s, s ≤ i → i < s + m →
    dict_get (S i) (nth_batch l <$> seq s m) = Some (nth_batch l i).2).
  { clear Hi. induction m as [|m IH]; intros s Hs Hi; [lia|].
    simpl. case_decide as Heq.
    - by injection Heq as ->.
    - apply IH; lia. }
  apply Hgen; lia.
Qed.

Lemma dict_get_batches_of_None l k :
  k = 0 ∨ batch_count (length l) < k → dict_get k (batches_of l) = None.
Proof.
  unfold batches_of. generalize (batch_count (length l)). intros m Hk.
  assert (Hgen : ∀ s, k ≤ s ∨ s + m < k →
    dict_get k (nth_batch l <$> seq s m) = None).
  { clear Hk. induction m as [|m IH]; intros s Hs; [done|].
    simpl. rewrite decide_False by lia. apply IH. lia. }
  apply Hgen. lia.
Qed.
End batches_of.

Lemma batches_of_fmap {A B} (f : A → B) (l : list A) :
  batches_of (f <$> l) = prod_map id (fmap (M:=list) f) <$> batches_of l.
Proof.
  unfold batches_of. rewrite length_fmap, <- list_fmap_compose.
  apply list_fmap_ext. intros j i _. unfold nth_batch. simpl.
  unfold prod_map. simpl. by rewrite fmap_take, fmap_drop.
Qed.

(** ** The plan of a run *)

Section plan.
Context (loaded : list IssueEntry) (existing : list (nat * BatchInfo)).
Context (t : datetime) (incoming : list Issue).

#[local] Abbreviation plan := (reconcile loaded existing t incoming).
#[local] Abbreviation st := (final_state plan).
#[local] Abbreviation out := (final_entries st).

Lemma plan_new_batches : new_batches plan = batches_of out.
Proof. apply build_batches_closed. Qed.

Lemma plan_changed item :
  item ∈ changed plan ↔
  item ∈ new_batches plan ∧
  (ids item.2 ≠ old_members existing item.1
   ∨ ∃ id, id ∈ ids item.2 ∧
           (id ∈ touched_identifiers st ∨ id ∈ new_identifiers st)).
Proof.
  unfold reconcile, changed_batches. simpl.
  rewrite list_elem_of_filter. unfold batch_changed.
  rewrite Exists_exists. unfold old_members, existing_ids. tauto.
Qed.

Lemma plan_stale k :
  k ∈ stale plan ↔ k ∈ existing.*1 ∧ length (new_batches plan) < k.
Proof.
  unfold reconcile, stale_batches. simpl.
  rewrite list_elem_of_filter. tauto.
Qed.

Lemma plan_keys : (new_batches plan).*1 = seq 1 (length (new_batches plan)).
Proof.
  rewrite plan_new_batches, batches_of_keys. f_equal.
  by rewrite batches_of_length.
Qed.

Lemma plan_changed_keys_nodup : NoDup (changed plan).*1.
Proof.
  unfold reconcile, changed_batches. simpl.
  eapply sublist_NoDup; [|apply fmap_sublist, sublist_filter].
  pose proof plan_keys as Hk. unfold reconcile in Hk. simpl in Hk.
  rewrite Hk. apply NoDup_seq.
Qed.
End plan.

(** Every incoming issue is recorded as touched or as new. *)
Lemma merge_loop_touched_or_new st incoming id :
  id ∈ touched_identifiers (merge_loop st incoming)
  ∨ id ∈ new_identifiers (merge_loop st incoming)
  ↔ (id ∈ touched_identifiers st ∨ id ∈ new_identifiers st)
    ∨ id ∈ issue_identifier <$> incoming.
Proof.
  induction incoming as [|issue incoming IH] using rev_ind.
  - simpl. rewrite elem_of_nil. tauto.
  - rewrite merge_loop_snoc, fmap_app, elem_of_app. simpl.
    rewrite list_elem_of_singleton.
    assert (id ∈ touched_identifiers (merge_issue (merge_loop st incoming) issue)
            ∨ id ∈ new_identifiers (merge_issue (merge_loop st incoming) issue)
            ↔ (id ∈ touched_identifiers (merge_loop st incoming)
               ∨ id ∈ new_identifiers (merge_loop st incoming))
              ∨ id = issue_identifier issue) as ->; [|tauto].
    unfold merge_issue.
    destruct (entry_map (merge_loop st incoming) !! issue_identifier issue);
      simpl; rewrite elem_of_app, list_elem_of_singleton; tauto.
Qed.

Lemma reconcile_touched_or_new loaded existing t incoming id :
  let st := final_state (reconcile loaded existing t incoming) in
  id ∈ touched_identifiers st ∨ id ∈ new_identifiers st
  ↔ id ∈ issue_identifier <$> incoming.
Proof.
  simpl. rewrite merge_loop_touched_or_new. simpl. rewrite !elem_of_nil. tauto.
Qed.

(** *** The plan of a run from a baseline in order *)

Lemma old_members_layout (l : list IssueEntry) existing i item :
  existing_ids existing = batches_of (ids l) →
  batches_of l !! i = Some item →
  item.1 = S i ∧ old_members existing item.1 = ids item.2.
Proof.
  intros Hlayout Hi. apply batches_of_lookup_inv in Hi as [Hlt ->].
  split; [done|]. unfold old_members. rewrite Hlayout. simpl.
  rewrite dict_get_batches_of by (by rewrite length_fmap).
  unfold nth_batch. simpl. by rewrite fmap_take, fmap_drop.
Qed.

Section invariant.
Context (loaded : list IssueEntry) (existing : list (nat * BatchInfo)).
Context (t : datetime) (incoming : list Issue).
Hypothesis Hinv : batch_invariant loaded existing.

#[local] Abbreviation plan := (reconcile loaded existing t incoming).
#[local] Abbreviation st := (final_state plan).
#[local] Abbreviation out := (final_entries st).

Lemma inv_nodup : NoDup (ids loaded).
Proof. apply Hinv. Qed.

(** Without a new identifier the sequence of identifiers is the old
    one. *)
Lemma plan_ids_unchanged : new_identifiers st = [] → ids out = ids loaded.
Proof.
  intros Hnew.
  pose proof (merged_baseline_order loaded t inv_nodup incoming) as Hord.
  pose proof (merged_ids_perm loaded t inv_nodup incoming) as Hperm.
  unfold merged in Hord, Hperm. simpl in Hnew.
  rewrite Hnew, app_nil_r in Hperm.
  etrans; [|exact Hord]. symmetry. apply filter_elem_of_self.
  intros id. by rewrite Hperm.
Qed.

Lemma plan_changed_unchanged_ids item :
  new_identifiers st = [] →
  item ∈ changed plan ↔
  item ∈ new_batches plan ∧
  ∃ id, id ∈ ids item.2 ∧ id ∈ touched_identifiers st.
Proof.
  intros Hnew. rewrite plan_changed. rewrite Hnew.
  split; [intros [Hin Hch]|intros [Hin (id & ? & ?)]; eauto 6].
  split; [done|].
  destruct Hch as [Hne|(id & ? & [?|Hid])]; [|by eauto|by apply elem_of_nil in Hid].
  exfalso. apply Hne. rewrite plan_new_batches in Hin.
  apply list_elem_of_lookup in Hin as [i Hi].
  destruct Hinv as (_ & _ & Hlayout).
  rewrite <- plan_ids_unchanged in Hlayout by done.
  by destruct (old_members_layout _ _ _ _ Hlayout Hi) as [_ ->].
Qed.

Lemma plan_stale_unchanged_ids : new_identifiers st = [] → stale plan = [].
Proof.
  intros Hnew. apply elem_of_nil_inv. intros k Hk.
  apply plan_stale in Hk as [Hk Hlt].
  rewrite plan_new_batches, batches_of_length in Hlt.
  destruct Hinv as (_ & _ & Hlayout).
  assert (existing.*1 = (existing_ids existing).*1) as Hkeys.
  { unfold existing_ids. rewrite <- list_fmap_compose.
    by apply list_fmap_ext. }
  rewrite Hkeys, Hlayout, batches_of_keys in Hk.
  apply elem_of_seq in Hk.
  rewrite <- (length_fmap identifier), plan_ids_unchanged in Hlt by done.
  lia.
Qed.
End invariant.

(** *** No incoming record *)

Lemma reconcile_nothing loaded existing t :
  batch_invariant loaded existing →
  changed (reconcile loaded existing t []) = [] ∧
  stale (reconcile loaded existing t []) = [].
Proof.
  intros Hinv. split.
  - apply elem_of_nil_inv. intros item Hitem.
    apply (plan_changed_unchanged_ids _ _ _ _ Hinv) in Hitem; [|done].
    destruct Hitem as (_ & id & _ & Hid). by apply elem_of_nil in Hid.
  - by apply plan_stale_unchanged_ids.
Qed.

(** *** One incoming record for a known identifier *)






#[local] Transparent BATCH_SIZE.

(** ** The batch files on disk *)

Lemma DELIMITER_nonempty : DELIMITER ≠ [].
Proof. done. Qed.

Lemma parse_batch_None text :
  parse_batch text = None ↔ contains DELIMITER text = false.
Proof.
  unfold parse_batch. rewrite split1_find by apply DELIMITER_nonempty.
  rewrite contains_find.
  by destruct (find DELIMITER text) as [i|].
Qed.

Lemma elem_of_batch_files (dir : gmap nat str) k text :
  (k, text) ∈ batch_files dir ↔ dir !! k = Some text.
Proof.
  unfold batch_files. rewrite merge_sort_Permutation.
  apply elem_of_map_to_list.
Qed.

Lemma batch_files_keys (dir : gmap nat str) k :
  k ∈ (batch_files dir).*1 ↔ is_Some (dir !! k).
Proof.
  rewrite list_elem_of_fmap. split.
  - intros ([k' text] & -> & Hin). apply elem_of_batch_files in Hin. eauto.
  - intros [text Hk]. exists (k, text). split; [done|].
    by apply elem_of_batch_files.
Qed.

Lemma load_files_Ok files loaded existing :
  load_files files = Ok (loaded, existing) → existing.*1 = files.*1.
Proof.
  revert loaded existing.
  induction files as [|[k text] files IH]; intros loaded existing; simpl.
  - by intros [= <- <-].
  - destruct (parse_batch text) as [[hd found]|]; [|done].
    destruct (load_files files) as [[entries batches]|e]; simpl; [|done].
    intros [= <- <-]. rewrite fmap_cons. simpl. f_equal. by eapply IH.
Qed.

Lemma load_files_Raise files k text :
  (k, text) ∈ files → parse_batch text = None →
  ∃ k' text', load_files files = Raise (LinearSyncError (UnexpectedFormat k')) ∧
              (k', text') ∈ files ∧ parse_batch text' = None.
Proof.
  induction files as [|[k0 text0] files IH]; [by intros ?%elem_of_nil|].
  intros Hin Hbad. simpl.
  destruct (parse_batch text0) as [[hd found]|] eqn:Hp0.
  - apply elem_of_cons in Hin as [[= -> ->]|Hin]; [congruence|].
    destruct (IH Hin Hbad) as (k' & text' & -> & Hin' & Hbad').
    exists k', text'. split_and!; [done|by right|done].
  - exists k0, text0. split_and!; [done|by left|done].
Qed.

(** *** The two loops over the files *)

Lemma write_batches_lookup team gen changed (dir : gmap nat str) k :
  NoDup changed.*1 →
  write_batches team gen changed dir !! k
  = match dict_get k changed with
    | Some batch => Some (render_batch team (gen k) k batch)
    | None => dir !! k
    end.
Proof.
  unfold write_batches. revert dir.
  induction changed as [|[k' batch] changed IH]; intros dir Hnd; simpl; [done|].
  apply NoDup_cons in Hnd as [Hk' Hnd]. rewrite IH by done.
  case_decide as Heq.
  - subst k'. destruct (dict_get k changed) as [b|] eqn:Hget.
    + exfalso. apply Hk'. clear -Hget.
      induction changed as [|[k2 b2] changed IH]; simpl in *; [done|].
      case_decide; [subst; by left|right; auto].
    + by rewrite lookup_insert_eq.
  - destruct (dict_get k changed); [done|]. by rewrite lookup_insert_ne.
Qed.

Lemma unlink_batches_lookup stale (dir : gmap nat str) k :
  unlink_batches stale dir !! k = if decide (k ∈ stale) then None else dir !! k.
Proof.
  unfold unlink_batches. revert dir.
  induction stale as [|k' stale IH]; intros dir; simpl; [done|].
  rewrite IH. destruct (decide (k = k')) as [->|Hne].
  - rewrite lookup_delete_eq. destruct (decide (k' ∈ stale)).
    + rewrite decide_True; [done|by right].
    + rewrite decide_True; [done|by left].
  - rewrite lookup_delete_ne by done.
    destruct (decide (k ∈ stale)).
    + rewrite decide_True; [done|by right].
    + rewrite decide_False; [done|]. rewrite elem_of_cons. tauto.
Qed.

Lemma dict_get_Some {V} k (v : V) d : dict_get k d = Some v → (k, v) ∈ d.
Proof.
  induction d as [|[k' v'] d IH]; simpl; [done|].
  case_decide; [intros [= ->]; subst; by left|right; auto].
Qed.

Lemma dict_get_None {V} k (d : list (nat * V)) : dict_get k d = None ↔ k ∉ d.*1.
Proof.
  induction d as [|[k' v'] d IH]; simpl.
  - split; [intros _; apply not_elem_of_nil|done].
  - rewrite not_elem_of_cons. case_decide; [subst|]; intuition congruence.
Qed.

Lemma dict_get_elem_of {V} k (v : V) d :
  NoDup d.*1 → (k, v) ∈ d → dict_get k d = Some v.
Proof.
  induction d as [|[k' v'] d IH]; simpl; [by intros _ ?%elem_of_nil|].
  intros [Hk' Hnd]%NoDup_cons [[= -> ->]|Hin]%elem_of_cons.
  - by rewrite decide_True.
  - rewrite decide_False; [by apply IH|]. intros ->. apply Hk'.
    by apply (list_elem_of_fmap_2 fst) in Hin.
Qed.

(** *** A run that reaches the merge *)

Section main.
Context `{Datetime}.
Context (cfg : Config) (inp : RunInput) (w : World).

Lemma main_aborts_or_runs :
  (∃ e, main cfg inp w = aborted w e)
  ∨ ∃ text t issues loaded existing,
      LINEAR_API_KEY cfg ≠ [] ∧
      parse_status_doc (status_doc w) = Ok (text, t) ∧
      fetch_updated inp t = Ok issues ∧
      load_existing_entries (linear_dir w) = Ok (loaded, existing).
Proof.
  unfold main. destruct (LINEAR_API_KEY cfg) eqn:Hkey; [left; eauto|].
  destruct (parse_status_doc (status_doc w)) as [[text t]|e]; [|left; eauto].
  destruct (fetch_updated inp t) as [issues|e] eqn:Hf; [|left; eauto].
  destruct (load_existing_entries (linear_dir w)) as [[loaded existing]|e];
    [|left; eauto].
  right. exists text, t, issues, loaded, existing. by rewrite Hf.
Qed.

Context (text : str) (t : datetime) (issues : list Issue).
Context (loaded : list IssueEntry) (existing : list (nat * BatchInfo)).
Hypothesis Hkey : LINEAR_API_KEY cfg ≠ [].
Hypothesis Hparse : parse_status_doc (status_doc w) = Ok (text, t).
Hypothesis Hfetch : fetch_updated inp t = Ok issues.

Lemma main_load_fails e :
  load_existing_entries (linear_dir w) = Raise e → main cfg inp w = aborted w e.
Proof.
  intros Hload. unfold main. destruct (LINEAR_API_KEY cfg); [done|].
  by rewrite Hparse, Hfetch, Hload.
Qed.

Hypothesis Hload : load_existing_entries (linear_dir w) = Ok (loaded, existing).

#[local] Abbreviation plan := (reconcile loaded existing t issues).

Lemma main_files :
  written (main cfg inp w) = (changed plan).*1 ∧
  removed (main cfg inp w) = stale plan ∧
  linear_dir (world_after (main cfg inp w))
  = unlink_batches (stale plan)
      (write_batches (LINEAR_TEAM_NAME cfg) (generated inp) (changed plan)
                     (linear_dir w)).
Proof.
  unfold main. destruct (LINEAR_API_KEY cfg); [done|].
  rewrite Hparse, Hfetch, Hload.
  by destruct (update_status_doc _ _ _).
Qed.

Lemma main_status :
  match update_status_doc text
          (N.max (latest_updated_at (final_state plan)) (now inp))
          (summarize_changes (today inp)
             (touched_identifiers (final_state plan))
             (new_identifiers (final_state plan))
             (relative_path cfg <$> (changed plan).*1)) with
  | Ok text' =>
      raised (main cfg inp w) = None ∧
      status_doc (world_after (main cfg inp w)) = Some text'
  | Raise e =>
      raised (main cfg inp w) = Some e ∧
      status_doc (world_after (main cfg inp w)) = status_doc w
  end.
Proof.
  unfold main. destruct (LINEAR_API_KEY cfg); [done|].
  rewrite Hparse, Hfetch, Hload.
  by destruct (update_status_doc _ _ _).
Qed.
End main.

(** ** The watermark field in the text *)

Lemma stamp_char_not_space c : Re.is_stamp_char c = true → is_space c = false.
Proof.
  unfold Re.is_stamp_char, is_digit, is_space.
  rewrite !orb_true_iff, andb_true_iff, !bool_decide_eq_true, !Nat.leb_le.
  intros [[[[? ?]| ->]| ->]| ->]; try done.
  apply orb_false_iff. rewrite !andb_false_iff, !Nat.leb_gt. lia.
Qed.

Lemma stamp_char_not_linebreak c :
  Re.is_stamp_char c = true → is_linebreak c = false.
Proof.
  unfold Re.is_stamp_char, is_digit, is_linebreak.
  rewrite !orb_true_iff, andb_true_iff, !bool_decide_eq_true, !Nat.leb_le.
  intros [[[[? ?]| ->]| ->]| ->]; try done.
  apply orb_false_iff. rewrite !andb_false_iff, !Nat.leb_gt. lia.
Qed.

Lemma find_skip_head c p a s :
  c ∉ a → find (c :: p) (a ++ s) = (λ i, length a + i) <$> find (c :: p) s.
Proof.
  induction a as [|x a IH]; simpl app.
  - intros _. by destruct (find (c :: p) s).
  - intros [Hc Ha]%not_elem_of_cons.
    change (find (c :: p) (x :: a ++ s))
      with (if startswith (c :: p) (x :: a ++ s) then Some 0
            else S <$> find (c :: p) (a ++ s)).
    simpl startswith. rewrite decide_False by done.
    rewrite IH by done. by destruct (find (c :: p) s).
Qed.

Lemma find_self p s : find p (p ++ s) = Some 0.
Proof.
  destruct p as [|c p]; [by destruct s|].
  change (find (c :: p) ((c :: p) ++ s))
    with (if startswith (c :: p) ((c :: p) ++ s) then Some 0
          else S <$> find (c :: p) (p ++ s)).
  by rewrite startswith_app.
Qed.

Section stamps.
Context `{Datetime} `{!DatetimeLaws}.

(** The printed timestamp: a run of the class and [Z]. *)
Lemma format_iso_timestamp_shape t :
  ∃ stamp, format_iso_timestamp t = stamp ++ lit "Z" ∧
           isoformat_seconds t = stamp ++ lit "+00:00" ∧ stamp ≠ [] ∧
           Forall (λ c, Re.is_stamp_char c = true) stamp.
Proof.
  destruct (isoformat_shape t) as (stamp & Hiso & Hne & Hall).
  exists stamp. split_and!; [|done..].
  unfold format_iso_timestamp, replace, split. rewrite Hiso.
  rewrite <- (app_nil_r (lit "+00:00")), app_assoc.
  rewrite <- app_assoc.
  rewrite split_from_first; [done|done|].
  change (lit "+00:00") with ("+"%char :: lit "00:00").
  rewrite find_skip_head.
  - rewrite <- (app_nil_r ("+"%char :: lit "00:00")), find_self.
    simpl. f_equal. lia.
  - intros Hin. eapply Forall_forall in Hall; [|exact Hin]. done.
Qed.

Lemma parse_iso_datetime_stamp stamp :
  parse_iso_datetime (stamp ++ lit "Z") = fromisoformat_utc (stamp ++ lit "+00:00").
Proof.
  unfold parse_iso_datetime, endswith.
  rewrite reverse_app. simpl.
  rewrite length_app. simpl. rewrite Nat.add_sub.
  by rewrite take_app_length.
Qed.

Lemma parse_format t :
  parse_iso_datetime (format_iso_timestamp t) = Some (whole_seconds t).
Proof.
  destruct (format_iso_timestamp_shape t) as (stamp & -> & Hiso & _).
  rewrite parse_iso_datetime_stamp, <- Hiso. apply isoformat_roundtrip.
Qed.
End stamps.

(** ** Matching, searching and replacing the field *)

Section field.
Context (label : str).
#[local] Abbreviation token := (Re.label_token label).

Lemma match_field_token s r :
  Re.match_field label s = Some r → startswith token s = true.
Proof.
  unfold Re.match_field.
  destruct (startswith (token ++ lit ":") s) eqn:Hs; [|done].
  intros _. apply startswith_prefix in Hs. apply startswith_prefix.
  etrans; [|exact Hs]. by apply prefix_app_r.
Qed.

(** The field as the scripts write it is matched, whatever follows. *)
Lemma match_field_written stamp rest :
  stamp ≠ [] → Forall (λ c, Re.is_stamp_char c = true) stamp →
  ∃ n, Re.match_field label (token ++ lit ": " ++ stamp ++ lit "Z" ++ rest)
       = Some (n, stamp ++ lit "Z").
Proof.
  intros Hne Hall. unfold Re.match_field.
  change (lit ": " ++ stamp ++ lit "Z" ++ rest)
    with (lit ":" ++ " "%char :: stamp ++ "Z"%char :: rest).
  rewrite (app_assoc token (lit ":")), startswith_app, drop_app_length.
  destruct stamp as [|c stamp]; [done|].
  apply Forall_cons in Hall as [Hc Hall].
  simpl. rewrite (stamp_char_not_space c Hc).
  assert (take_while Re.is_stamp_char (c :: stamp ++ "Z"%char :: rest)
          = c :: stamp) as ->.
  { rewrite (app_comm_cons stamp), take_while_app_all by (by constructor).
    by rewrite app_nil_r. }
  assert (drop_while Re.is_stamp_char (c :: stamp ++ "Z"%char :: rest)
          = "Z"%char :: rest) as ->.
  { by rewrite (app_comm_cons stamp), drop_while_app_all by (by constructor). }
  rewrite decide_True by done. by eexists.
Qed.

Lemma search_field_skip x y :
  (∀ p, p < length x → startswith token (drop p (x ++ y)) = false) →
  Re.search_field label (x ++ y) = Re.search_field label y.
Proof.
  induction x as [|c x IH]; intros Hno; [done|].
  simpl app.
  change (Re.search_field label (c :: x ++ y))
    with (match Re.match_field label (c :: x ++ y) with
          | Some (_, g) => Some g
          | None => Re.search_field label (x ++ y)
          end).
  destruct (Re.match_field label (c :: x ++ y)) as [r|] eqn:Hm.
  - apply match_field_token in Hm.
    specialize (Hno 0 ltac:(simpl; lia)).
    change (startswith token (c :: x ++ y) = false) in Hno. congruence.
  - apply IH. intros p Hp. apply (Hno (S p)). simpl. lia.
Qed.

Lemma sub_field_from_skip repl k s :
  Re.sub_field_from label repl k s = Re.sub_field label repl (drop k s).
Proof.
  revert k. induction s as [|c s IH]; intros k; simpl.
  - by rewrite drop_nil.
  - destruct k as [|k]; [done|]. simpl. apply IH.
Qed.

Lemma sub_field_copy repl a s :
  (∀ p, p < length a → startswith token (drop p (a ++ s)) = false) →
  Re.sub_field label repl (a ++ s) = a ++ Re.sub_field label repl s.
Proof.
  unfold Re.sub_field. induction a as [|c a IH]; intros Hno; [done|].
  simpl app. simpl.
  destruct (Re.match_field label (c :: a ++ s)) as [r|] eqn:Hm.
  - apply match_field_token in Hm.
    specialize (Hno 0 ltac:(simpl; lia)).
    change (startswith token (c :: a ++ s) = false) in Hno. congruence.
  - f_equal. apply IH. intros p Hp. apply (Hno (S p)). simpl. lia.
Qed.

Lemma sub_field_match repl s n g :
  Re.match_field label s = Some (n, g) →
  Re.sub_field label repl s = repl ++ Re.sub_field label repl (drop n s).
Proof.
  intros Hm. unfold Re.sub_field at 1.
  assert (0 < n) as Hn.
  { unfold Re.match_field in Hm.
    destruct (startswith _ _); [|done].
    destruct (take_while _ _); [done|].
    destruct (drop_while Re.is_stamp_char _); [done|].
    case_decide; [|done]. injection Hm as <- _. lia. }
  destruct s as [|c s].
  { unfold Re.match_field in Hm. simpl in Hm. by destruct label. }
  simpl. rewrite Hm. f_equal. rewrite sub_field_from_skip.
  destruct n as [|n]; [lia|]. simpl. by rewrite Nat.sub_0_r.
Qed.
End field.

(** ** Lines and text *)

Lemma unlines_cons l lines : unlines (l :: lines) = l ++ LF :: unlines lines.
Proof. unfold unlines. rewrite fmap_cons. simpl. by rewrite <- app_assoc. Qed.

Lemma unlines_app l1 l2 : unlines (l1 ++ l2) = unlines l1 ++ unlines l2.
Proof. unfold unlines. by rewrite fmap_app, concat_app. Qed.

Lemma join_unlines lines : lines ≠ [] → join [LF] lines ++ [LF] = unlines lines.
Proof.
  induction lines as [|l lines IH]; [done|]. intros _.
  rewrite unlines_cons. destruct lines as [|l' lines].
  - simpl. done.
  - change (join [LF] (l :: l' :: lines))
      with (l ++ [LF] ++ join [LF] (l' :: lines)).
    rewrite <- !app_assoc. simpl. do 2 f_equal. by apply IH.
Qed.

(** *** Reading the lines back *)

Lemma splitlines_line l s :
  no_linebreak l → splitlines (l ++ LF :: s) = l :: splitlines s.
Proof.
  induction 1 as [|c l Hc _ IH]; simpl.
  - by destruct s.
  - by rewrite Hc, IH.
Qed.

Lemma splitlines_unlines_front front s :
  Forall no_linebreak front →
  splitlines (unlines front ++ s) = front ++ splitlines s.
Proof.
  induction 1 as [|l front Hl _ IH]; [done|].
  rewrite unlines_cons, <- app_assoc. simpl.
  by rewrite splitlines_line, IH.
Qed.

Lemma splitlines_no_linebreak s : Forall no_linebreak (splitlines s).
Proof.
  assert (Hgen : ∀ n s, length s ≤ n → Forall no_linebreak (splitlines s)).
  { clear s. induction n as [|n IH]; intros s Hlen.
    - destruct s; [constructor|simpl in Hlen; lia].
    - destruct s as [|c s]; [constructor|]. simpl in Hlen. simpl.
      destruct (is_linebreak c) eqn:Hc.
      + constructor; [constructor|].
        destruct s as [|c' s']; [constructor|].
        case_decide; apply IH; simpl in *; lia.
      + pose proof (IH s ltac:(lia)) as Hs.
        destruct (splitlines s) as [|l ls]; repeat constructor; try done.
        * by apply Forall_cons in Hs as [? _].
        * by apply Forall_cons in Hs as [_ ?]. }
  by apply (Hgen (length s)).
Qed.

(** *** The first occurrence of a token across lines *)

Lemma startswith_across_linefeed tok x y :
  LF ∉ tok → startswith tok (x ++ LF :: y) = true → length tok ≤ length x.
Proof.
  revert x. induction tok as [|a tok IH]; intros x Hlf; simpl; [lia|].
  apply not_elem_of_cons in Hlf as [Ha Hlf].
  destruct x as [|b x]; simpl.
  - by rewrite decide_False.
  - case_decide; [|done]. intros Hs. apply IH in Hs; [lia|done].
Qed.

Lemma find_skip_region tok n s :
  (∀ p, p < n → startswith tok (drop p s) = false) → n ≤ length s →
  find tok s = (λ i, n + i) <$> find tok (drop n s).
Proof.
  revert s. induction n as [|n IH]; intros s Hno Hlen.
  - rewrite drop_0. by destruct (find tok s).
  - destruct s as [|c s]; simpl in Hlen; [lia|].
    change (find tok (c :: s))
      with (if startswith tok (c :: s) then Some 0 else S <$> find tok s).
    pose proof (Hno 0 ltac:(lia)) as H0. rewrite drop_0 in H0.
    rewrite H0, IH.
    + simpl. by destruct (find tok (drop n s)).
    + intros p Hp. apply (Hno (S p)). lia.
    + lia.
Qed.

Lemma find_after_lines tok lines s :
  LF ∉ tok → tok ≠ [] →
  Forall (λ l, contains tok l = false) lines →
  find tok (unlines lines ++ s) = (λ i, length (unlines lines) + i) <$> find tok s.
Proof.
  intros Hlf Hne. induction 1 as [|l lines Hl _ IH].
  - simpl. by destruct (find tok s).
  - rewrite unlines_cons, <- app_assoc. simpl.
    rewrite (find_skip_region tok (S (length l))).
    + rewrite (cons_middle LF), app_assoc, drop_app_length'
        by (rewrite length_app; simpl; lia).
      rewrite IH. destruct (find tok s); simpl; [|done].
      f_equal. rewrite !length_app. simpl. lia.
    + intros p Hp. rewrite drop_app_le by lia.
      destruct (startswith tok (drop p l ++ LF :: unlines lines ++ s)) eqn:Hs;
        [|done].
      pose proof (startswith_across_linefeed _ _ _ Hlf Hs) as Hlen.
      rewrite startswith_app_long in Hs by done.
      rewrite contains_find in Hl. apply bool_decide_eq_false in Hl.
      destruct (find tok l) as [i|] eqn:Hfind; [exfalso; apply Hl; eauto|].
      rewrite find_None in Hfind. by rewrite Hfind in Hs.
    + rewrite length_app. simpl. lia.
Qed.

(** ** A status document the scripts can keep up to date *)

Lemma startswith_contains tok l p :
  startswith tok (drop p l) = true → contains tok l = true.
Proof.
  intros Hs. rewrite contains_find. apply bool_decide_eq_true.
  destruct (find tok l) as [i|] eqn:Hf; [eauto|].
  rewrite find_None in Hf. by rewrite Hf in Hs.
Qed.

Lemma index_app_skip {A} `{EqDecision A} (x y : A) l1 l2 :
  x ∉ l1 → y ≠ x →
  index x (l1 ++ y :: l2) = (λ j, length l1 + 1 + j) <$> index x l2.
Proof.
  induction l1 as [|z l1 IH]; simpl.
  - intros _ Hy. rewrite decide_False by done. by destruct (index x l2).
  - intros [Hz Hl1]%not_elem_of_cons Hy. rewrite decide_False by done.
    rewrite IH by done. by destruct (index x l2).
Qed.

Lemma index_elem_of {A} `{EqDecision A} (x : A) l : x ∈ l → is_Some (index x l).
Proof.
  intros Hin. destruct (index x l) eqn:Hi; [eauto|].
  by apply index_None in Hi.
Qed.

Lemma sub_field_from_no_linebreak label repl k s :
  no_linebreak repl → no_linebreak s →
  no_linebreak (Re.sub_field_from label repl k s).
Proof.
  intros Hrepl. revert k. induction s as [|c s IH]; intros k Hs; simpl.
  - constructor.
  - apply Forall_cons in Hs as [Hc Hs]. destruct k as [|k]; [|by apply IH].
    destruct (Re.match_field label (c :: s)) as [[n g]|].
    + apply Forall_app. split; [done|]. by apply IH.
    + constructor; [done|]. by apply IH.
Qed.

Section update.
Context (label heading : str).
#[local] Abbreviation token := (Re.label_token label).
Hypothesis token_one_line : no_linebreak token.
Hypothesis heading_plain : BACKTICK ∉ heading.
Hypothesis heading_one_line : no_linebreak heading.

Lemma token_no_LF : LF ∉ token.
Proof.
  intros Hin. eapply Forall_forall in token_one_line; [|exact Hin]. done.
Qed.

Lemma token_nonempty : token ≠ [].
Proof. done. Qed.

Lemma token_backtick : BACKTICK ∈ token.
Proof. by left. Qed.

Lemma field_first_sub line stamp :
  stamp ≠ [] → Forall (λ c, Re.is_stamp_char c = true) stamp →
  field_first label line →
  let repl := token ++ lit ": " ++ stamp ++ lit "Z" in
  ∃ a z,
    find token (a ++ token) = Some (length a) ∧
    contains token line = true ∧
    Re.sub_field label repl line = a ++ repl ++ z.
Proof.
  intros Hne Hall (a & s & n & g & -> & Hfind & Hm) repl.
  pose proof (match_field_token _ _ _ Hm) as Hs.
  apply startswith_drop in Hs.
  exists a, (Re.sub_field label repl (drop n s)). split_and!; [done| |].
  - apply (startswith_contains _ _ (length a)). rewrite drop_app_length.
    by eapply match_field_token.
  - rewrite sub_field_copy, (sub_field_match _ _ _ _ _ Hm); [done|].
    rewrite Hs.
    pose proof (find_app_first token a (drop (length token) s)
                  token_nonempty Hfind) as [_ [_ Hmin]]%find_Some.
    done.
Qed.

(** Any way of putting the summary line below the heading that leaves
    the lines up to the heading alone. *)
Context (put : list str → nat → str → list str).
Hypothesis put_below : ∀ lines i summary,
  index heading lines = Some i →
  ∃ pre blanks rest rest',
    lines = pre ++ heading :: (blanks ++ rest) ∧ length pre = i ∧
    put lines i summary = pre ++ heading :: (blanks ++ summary :: rest').

Lemma updated_text text stamp summary :
  well_formed_status label heading text →
  stamp ≠ [] → Forall (λ c, Re.is_stamp_char c = true) stamp →
  ∃ lines d,
    replace_timestamp label (token ++ lit ": " ++ stamp ++ lit "Z")
                      (splitlines text) = Some lines ∧
    index heading lines = Some d ∧
    Re.search_field label (join [LF] (put lines d summary) ++ [LF])
    = Some (stamp ++ lit "Z") ∧
    well_formed_status label heading
      (join [LF] (put lines d summary) ++ [LF]).
Proof.
  intros (l1 & line & l2 & Hlines & Hl1 & Hline & Hh1 & Hh2) Hne Hall.
  set (repl := token ++ lit ": " ++ stamp ++ lit "Z").
  destruct (field_first_sub line stamp Hne Hall Hline) as (a & z & Hfind & Hc & Hsub).
  fold repl in Hsub.
  set (line' := Re.sub_field label repl line) in *.
  assert (Hrepl_tick : BACKTICK ∈ repl).
  { unfold repl. apply elem_of_app. left. apply token_backtick. }
  destruct (sub_field_not_heading label repl line heading Hrepl_tick
              heading_plain Hc) as [Hline_h Hline'_h].
  fold line' in Hline'_h.
  (* the timestamp line is rewritten *)
  assert (Hreplace : replace_timestamp label repl (splitlines text)
                     = Some (l1 ++ line' :: l2)).
  { apply replace_timestamp_Some. exists l1, line, l2. by rewrite Hlines. }
  (* the heading is found below it *)
  destruct (index_elem_of heading l2 Hh2) as [j Hj].
  assert (Hindex : index heading (l1 ++ line' :: l2)
                   = Some (length l1 + 1 + j)).
  { rewrite index_app_skip by done. by rewrite Hj. }
  exists (l1 ++ line' :: l2), (length l1 + 1 + j).
  split; [done|]. split; [done|].
  destruct (put_below _ _ summary Hindex)
    as (pre & blanks & rest & rest' & Hsplit & Hpre & ->).
  (* the lines up to the heading *)
  assert (Hpre' : pre = l1 ++ line' :: take j l2).
  { assert (pre = take (length pre) (l1 ++ line' :: l2)) as ->
      by (by rewrite Hsplit, take_app_length).
    rewrite Hpre. rewrite take_app_ge by lia.
    replace (length l1 + 1 + j - length l1) with (S j) by lia. done. }
  assert (Hfront : pre ++ heading :: (blanks ++ summary :: rest')
                   = (l1 ++ line' :: take j l2 ++ heading :: blanks)
                     ++ summary :: rest').
  { rewrite Hpre'. rewrite <- !app_assoc. simpl. by rewrite <- !app_assoc. }
  assert (Hold : Forall no_linebreak (l1 ++ line :: l2)).
  { rewrite <- Hlines. apply splitlines_no_linebreak. }
  apply Forall_app in Hold as [Hl1_nb [Hline_nb Hl2_nb]%Forall_cons].
  assert (Hrepl_nb : no_linebreak repl).
  { unfold repl. apply Forall_app. split; [done|].
    repeat constructor; try done.
    apply Forall_app. split; [|by repeat constructor].
    eapply Forall_impl; [exact Hall|]. apply stamp_char_not_linebreak. }
  assert (Hline'_nb : no_linebreak line').
  { by apply sub_field_from_no_linebreak. }
  assert (Hblanks : Forall no_linebreak blanks).
  { assert (Forall no_linebreak (l1 ++ line' :: l2)) as Hall'.
    { apply Forall_app. split; [done|]. by constructor. }
    rewrite Hsplit in Hall'.
    apply Forall_app in Hall' as [_ [_ Hb]%Forall_cons].
    by apply Forall_app in Hb as [? _]. }
  rewrite Hfront.
  rewrite join_unlines by (by destruct l1).
  split.
  - (* the field is the first match in the new text *)
    rewrite <- app_assoc, unlines_app. simpl. rewrite unlines_cons, Hsub.
    set (tail := unlines ((take j l2 ++ heading :: blanks) ++ summary :: rest')).
    rewrite <- !app_assoc.
    rewrite (app_assoc (unlines l1) a).
    assert (Hfirst : find token ((unlines l1 ++ a) ++ repl ++ z ++ LF :: tail)
                     = Some (length (unlines l1 ++ a))).
    { rewrite <- app_assoc, find_after_lines
        by (done || apply token_no_LF).
      unfold repl. rewrite <- !app_assoc.
      rewrite (find_app_first token a _ token_nonempty Hfind).
      simpl. by rewrite length_app. }
    apply find_Some in Hfirst as (_ & _ & Hmin).
    rewrite search_field_skip by done.
    unfold repl. rewrite <- !app_assoc.
    destruct (match_field_written label stamp (z ++ LF :: tail) Hne Hall)
      as [n Hm].
    destruct (token ++ lit ": " ++ stamp ++ lit "Z" ++ z ++ LF :: tail)
      as [|c0 s0] eqn:Heq.
    { simpl in Hm. done. }
    simpl. by rewrite Hm.
  - (* and the new text is as well formed as the old one *)
    exists l1, line', (take j l2 ++ heading :: blanks
                       ++ splitlines (unlines (summary :: rest'))).
    split_and!.
    + rewrite unlines_app, splitlines_unlines_front; last first.
      { apply Forall_app. split; [done|]. constructor; [done|].
        apply Forall_app. split; [by apply Forall_take|by constructor]. }
      rewrite <- !app_assoc. simpl. by rewrite <- !app_assoc.
    + done.
    + exists a, (repl ++ z).
      destruct (match_field_written label stamp z Hne Hall) as [n Hm].
      exists n, (stamp ++ lit "Z"). split_and!; [done|done|].
      unfold repl. by rewrite <- !app_assoc.
    + done.
    + apply elem_of_app. right. by left.
Qed.
End update.

(** ** The watermark of the Linear script *)

Lemma match_field_stamp label s n g :
  Re.match_field label s = Some (n, g) →
  ∃ stamp, g = stamp ++ lit "Z" ∧ Forall (λ c, Re.is_stamp_char c = true) stamp.
Proof.
  unfold Re.match_field. case_match; [|done].
  destruct (take_while Re.is_stamp_char _) as [|c run] eqn:Hrun; [done|].
  destruct (drop_while Re.is_stamp_char _) as [|z rest]; [done|].
  case_decide; [|done]. intros [= _ <-].
  exists (c :: run). split; [done|]. rewrite <- Hrun. apply take_while_all.
Qed.

Lemma search_field_stamp label s g :
  Re.search_field label s = Some g →
  ∃ stamp, g = stamp ++ lit "Z" ∧ Forall (λ c, Re.is_stamp_char c = true) stamp.
Proof.
  induction s as [|c s IH]; simpl.
  - done.
  - destruct (Re.match_field label (c :: s)) as [[n g']|] eqn:Hm; [|done].
    intros [= <-]. by eapply match_field_stamp.
Qed.

Lemma whole_seconds_le (a b : N) : (a ≤ b)%N → (whole_seconds a ≤ whole_seconds b)%N.
Proof.
  intros Hab. unfold whole_seconds.
  apply N.mul_le_mono_r, N.Div0.div_le_mono. done.
Qed.

Lemma whole_seconds_below (a : N) : (whole_seconds a ≤ a)%N.
Proof.
  unfold whole_seconds. rewrite N.mul_comm. apply N.Div0.mul_div_le.
Qed.

Lemma whole_seconds_idemp (a : N) : whole_seconds (whole_seconds a) = whole_seconds a.
Proof. unfold whole_seconds. by rewrite N.div_mul. Qed.

Lemma linear_put_below lines i summary :
  index DAILY_SUMMARIES lines = Some i →
  ∃ pre blanks rest rest',
    lines = pre ++ DAILY_SUMMARIES :: (blanks ++ rest) ∧ length pre = i ∧
    put_summary lines i summary
    = pre ++ DAILY_SUMMARIES :: (blanks ++ summary :: rest').
Proof.
  intros Hi.
  destruct (linear_put_summary lines i summary Hi)
    as (pre & blanks & rest & Hl & _ & Hlen & _ & _ & Hput).
  by eexists pre, blanks, rest, _.
Qed.

Lemma foldl_max_le (t : N) (l : list N) : (t ≤ foldl N.max t l)%N.
Proof.
  revert t. induction l as [|x l IH]; intros t; simpl; [done|].
  etrans; [|apply IH]. lia.
Qed.

Lemma merge_loop_latest st issues :
  latest_updated_at (merge_loop st issues)
  = foldl N.max (latest_updated_at st) (issue_updated_at <$> issues).
Proof.
  induction issues as [|issue issues IH] using rev_ind; [done|].
  rewrite merge_loop_snoc, merge_issue_latest, IH, fmap_app, foldl_app. done.
Qed.

Section stamps.
Context `{Datetime} `{!DatetimeLaws}.

Lemma update_status_doc_ok text ts summary :
  status_ok text →
  ∃ text', update_status_doc text ts summary = Ok text' ∧
    status_ok text' ∧
    parse_status_doc (Some text') = Ok (text', whole_seconds ts).
Proof.
  intros Hok.
  destruct (format_iso_timestamp_shape ts) as (stamp & Hfmt & _ & Hne & Hall).
  destruct (updated_text TIMESTAMP_LABEL DAILY_SUMMARIES) with
    (put := put_summary) (text := text) (stamp := stamp) (summary := summary)
    as (lines & d & Hrep & Hidx & Hsearch & Hok'); try done.
  { by computed. }
  { change (BACKTICK ∉ DAILY_SUMMARIES). by computed. }
  { by computed. }
  { apply linear_put_below. }
  exists (join [LF] (put_summary lines d summary) ++ [LF]).
  split; [|split; [done|]].
  - unfold update_status_doc, updated_lines. rewrite Hfmt, Hrep, Hidx. done.
  - unfold parse_status_doc. rewrite Hsearch, <- Hfmt, parse_format. done.
Qed.

Lemma watermark_whole w t : watermark w = Some t → whole_seconds t = t.
Proof.
  unfold watermark, parse_status_doc.
  destruct (status_doc w) as [text|]; [|done].
  destruct (Re.search_field TIMESTAMP_LABEL text) as [g|] eqn:Hg; [|done].
  destruct (search_field_stamp _ _ _ Hg) as (stamp & -> & Hall).
  rewrite parse_iso_datetime_stamp.
  destruct (fromisoformat_utc _) as [t'|] eqn:Ht; [|done].
  intros [= <-]. by eapply fromisoformat_whole.
Qed.

Lemma advance_watermark_le previous issues now :
  (previous ≤ advance_watermark previous issues now)%N.
Proof.
  unfold advance_watermark.
  pose proof (foldl_max_le previous (issue_updated_at <$> issues)). lia.
Qed.

(** What one run does to the watermark of a world whose status
    document is laid out well. *)
Lemma run_watermark cfg inp w previous :
  world_ok w → watermark w = Some previous →
  world_ok (world_after (main cfg inp w)) ∧
  ((raised (main cfg inp w) ≠ None ∧
    watermark (world_after (main cfg inp w)) = Some previous)
   ∨ (raised (main cfg inp w) = None ∧
      ∃ issues, fetch_updated inp previous = Ok issues ∧
        watermark (world_after (main cfg inp w))
        = Some (whole_seconds
                  (advance_watermark previous issues (now inp))))).
Proof.
  intros (text & Hdoc & Hok) Hprev.
  destruct (main_aborts_or_runs cfg inp w)
    as [[e ->]|(text0 & t & issues & loaded & existing
                  & Hkey & Hparse & Hfetch & Hload)].
  - split; [by exists text|]. left. by split.
  - assert (text0 = text ∧ t = previous) as [-> ->].
    { unfold watermark in Hprev. rewrite Hparse in Hprev.
      injection Hprev as ->. split; [|done].
      rewrite Hdoc in Hparse. unfold parse_status_doc in Hparse.
      repeat case_match; try done. by injection Hparse as <- _. }
    pose proof (main_status cfg inp w text previous issues loaded existing
                  Hkey Hparse Hfetch Hload) as Hstatus.
    destruct (update_status_doc_ok text
                (N.max (latest_updated_at
                          (final_state (reconcile loaded existing previous issues)))
                       (now inp))
                (summarize_changes (today inp)
                   (touched_identifiers
                      (final_state (reconcile loaded existing previous issues)))
                   (new_identifiers
                      (final_state (reconcile loaded existing previous issues)))
                   (relative_path cfg <$>
                      (changed (reconcile loaded existing previous issues)).*1))
                Hok)
      as (text' & Hup & Hok' & Hparse').
    rewrite Hup in Hstatus. destruct Hstatus as [Hraised Hdoc'].
    split; [by exists text'|]. right. split; [done|].
    exists issues. split; [done|].
    unfold watermark. rewrite Hdoc', Hparse'.
    unfold reconcile. cbn [final_state]. rewrite merge_loop_latest.
    done.
Qed.
End stamps.

(** ** The summaries below the heading *)

Lemma heading_strip l :
  is_heading l = true → ∃ r, l = "#"%char :: r ∧ strip l = "#"%char :: rstrip r.
Proof.
  unfold is_heading. destruct l as [|c r]; [done|]. simpl.
  case_decide as Hc; [|done]. subst c. intros _. exists r. split; [done|].
  unfold strip. rewrite lstrip_nonspace by done.
  apply (rstrip_app_nonspace [] "#"%char r). done.
Qed.

Lemma blank_not_heading l : is_blank l = true → is_heading l = false.
Proof.
  unfold is_blank. rewrite bool_decide_eq_true. intros Hb.
  destruct (is_heading l) eqn:Hh; [|done].
  apply heading_strip in Hh as (r & _ & Hs). by rewrite Hs in Hb.
Qed.

Lemma blank_not_entry l : is_blank l = true → is_entry l = false.
Proof.
  unfold is_blank, is_entry. rewrite bool_decide_eq_true. by intros ->.
Qed.

Lemma entry_not_heading l : is_entry l = true → is_heading l = false.
Proof.
  unfold is_entry. intros He.
  destruct (is_heading l) eqn:Hh; [|done].
  apply heading_strip in Hh as (r & _ & Hs). by rewrite Hs in He.
Qed.

Lemma further_entry_not_heading l :
  is_further_entry l = true → is_heading l = false.
Proof.
  unfold is_further_entry. rewrite andb_true_iff. intros [_ He].
  destruct (is_heading l) eqn:Hh; [|done].
  apply heading_strip in Hh as (r & -> & _).
  by rewrite lstrip_nonspace in He.
Qed.

Lemma take_while_drop_while {A} (p q : A → bool) (l : list A) :
  (∀ x, p x = true → q x = true) →
  take_while q (drop_while p l) = drop_while p (take_while q l).
Proof.
  intros Hpq. induction l as [|x l IH]; simpl; [done|].
  destruct (p x) eqn:Hp.
  - rewrite (Hpq x Hp). simpl. by rewrite Hp.
  - simpl. destruct (q x); simpl; [by rewrite Hp|done].
Qed.

Lemma filter_drop_while {A} (p q : A → bool) (l : list A) :
  (∀ x, p x = true → q x = false) →
  filter (λ x, q x = true) (drop_while p l) = filter (λ x, q x = true) l.
Proof.
  intros Hpq. induction l as [|x l IH]; simpl; [done|].
  destruct (p x) eqn:Hp; [|done].
  rewrite filter_cons, decide_False; [done|]. by rewrite (Hpq x Hp).
Qed.

Lemma filter_skip_all {A} (p q : A → bool) (l1 l2 : list A) :
  (∀ x, p x = true → q x = false) → Forall (λ x, p x = true) l1 →
  filter (λ x, q x = true) (l1 ++ l2) = filter (λ x, q x = true) l2.
Proof.
  intros Hpq. induction 1 as [|x l1 Hx _ IH]; [done|].
  simpl. rewrite filter_cons, decide_False; [done|]. by rewrite (Hpq x Hx).
Qed.

Lemma splitlines_join lines :
  lines ≠ [] → Forall no_linebreak lines →
  splitlines (join [LF] lines ++ [LF]) = lines.
Proof.
  intros Hne Hall. rewrite join_unlines by done.
  rewrite <- (app_nil_r (unlines lines)), splitlines_unlines_front by done.
  simpl. by rewrite app_nil_r.
Qed.

Lemma index_app_found {A} `{EqDecision A} (x : A) pre rest :
  x ∉ pre → index x (pre ++ x :: rest) = Some (length pre).
Proof.
  induction pre as [|y pre IH]; simpl.
  - intros _. by rewrite decide_True.
  - intros [Hy Hpre]%not_elem_of_cons. rewrite decide_False by done.
    by rewrite IH.
Qed.

Section summaries.
Context (label heading : str).
#[local] Abbreviation token := (Re.label_token label).
Hypothesis token_one_line : no_linebreak token.
Hypothesis heading_plain : BACKTICK ∉ heading.
Hypothesis heading_one_line : no_linebreak heading.

(** What the script puts in the place of the lines [rest] that follow
    the blank lines below the heading. *)
Context (put : list str → nat → str → list str).
Context (after : list str → list str).
Hypothesis put_after : ∀ lines i summary,
  index heading lines = Some i →
  ∃ pre blanks rest,
    lines = pre ++ heading :: (blanks ++ rest) ∧
    (heading ∉ pre) ∧ length pre = i ∧
    Forall (λ l, is_blank l = true) blanks ∧
    match rest with [] => True | l :: _ => is_blank l = false end ∧
    put lines i summary = pre ++ heading :: (blanks ++ summary :: after rest).
Hypothesis after_sublist : ∀ rest, after rest `sublist_of` rest.

Lemma updated_sections text stamp summary :
  well_formed_status label heading text →
  stamp ≠ [] → Forall (λ c, Re.is_stamp_char c = true) stamp →
  no_linebreak summary →
  ∃ lines d blanks rest,
    replace_timestamp label (token ++ lit ": " ++ stamp ++ lit "Z")
                      (splitlines text) = Some lines ∧
    index heading lines = Some d ∧
    Forall (λ l, is_blank l = true) blanks ∧
    match rest with [] => True | l :: _ => is_blank l = false end ∧
    section_body heading (splitlines text)
    = take_while (λ l, negb (is_heading l)) (blanks ++ rest) ∧
    section_body heading
      (splitlines (join [LF] (put lines d summary) ++ [LF]))
    = take_while (λ l, negb (is_heading l)) (blanks ++ summary :: after rest).
Proof.
  intros (l1 & line & l2 & Hlines & Hl1 & Hline & Hh1 & Hh2) Hne Hall Hsum.
  set (repl := token ++ lit ": " ++ stamp ++ lit "Z").
  destruct (field_first_sub label line stamp Hne Hall Hline)
    as (a & z & Hfind & Hc & Hsub).
  set (line' := Re.sub_field label repl line) in *.
  assert (Hrepl_tick : BACKTICK ∈ repl).
  { unfold repl. apply elem_of_app. left. by left. }
  destruct (sub_field_not_heading label repl line heading Hrepl_tick
              heading_plain Hc) as [Hline_h Hline'_h].
  fold line' in Hline'_h.
  assert (Hreplace : replace_timestamp label repl (splitlines text)
                     = Some (l1 ++ line' :: l2)).
  { apply replace_timestamp_Some. exists l1, line, l2. by rewrite Hlines. }
  destruct (index_elem_of heading l2 Hh2) as [j Hj].
  assert (Hindex : index heading (l1 ++ line' :: l2)
                   = Some (length l1 + 1 + j)).
  { rewrite index_app_skip by done. by rewrite Hj. }
  assert (Hindex0 : index heading (l1 ++ line :: l2)
                    = Some (length l1 + 1 + j)).
  { rewrite index_app_skip by done. by rewrite Hj. }
  destruct (put_after _ _ summary Hindex)
    as (pre & blanks & rest & Hsplit & Hpre_h & Hpre & Hblanks & Hrest & Hput).
  exists (l1 ++ line' :: l2), (length l1 + 1 + j), blanks, rest.
  split_and!; [done..| |].
  - (* the old section lies below the line of the timestamp *)
    unfold section_body. rewrite Hlines, Hindex0. f_equal.
    assert (drop (S (length l1 + 1 + j)) (l1 ++ line' :: l2) = blanks ++ rest)
      as Hdrop.
    { rewrite Hsplit, <- Hpre.
      change (pre ++ heading :: (blanks ++ rest))
        with (pre ++ [heading] ++ (blanks ++ rest)).
      rewrite app_assoc.
      replace (S (length pre)) with (length (pre ++ [heading]))
        by (rewrite length_app; simpl; lia).
      by rewrite drop_app_length. }
    rewrite <- Hdrop.
    replace (S (length l1 + 1 + j)) with (length l1 + S (S j)) by lia.
    by rewrite !drop_app_add.
  - (* the new lines are read back as they were written *)
    assert (Hold : Forall no_linebreak (l1 ++ line :: l2)).
    { rewrite <- Hlines. apply splitlines_no_linebreak. }
    apply Forall_app in Hold as [Hl1_nb [Hline_nb Hl2_nb]%Forall_cons].
    assert (Hrepl_nb : no_linebreak repl).
    { unfold repl. apply Forall_app. split; [done|].
      repeat constructor; try done.
      apply Forall_app. split; [|by repeat constructor].
      eapply Forall_impl; [exact Hall|]. apply stamp_char_not_linebreak. }
    assert (Hline'_nb : no_linebreak line').
    { by apply sub_field_from_no_linebreak. }
    assert (Hall' : Forall no_linebreak (pre ++ heading :: (blanks ++ rest))).
    { rewrite <- Hsplit. apply Forall_app. split; [done|]. by constructor. }
    apply Forall_app in Hall' as [Hpre_nb [_ Hbr]%Forall_cons].
    apply Forall_app in Hbr as [Hblanks_nb Hrest_nb].
    rewrite Hput, splitlines_join.
    + unfold section_body. rewrite index_app_found by done.
      change (pre ++ heading :: (blanks ++ summary :: after rest))
        with (pre ++ [heading] ++ (blanks ++ summary :: after rest)).
      rewrite app_assoc.
      replace (S (length pre)) with (length (pre ++ [heading]))
        by (rewrite length_app; simpl; lia).
      by rewrite drop_app_length.
    + by destruct pre.
    + apply Forall_app. split; [done|]. constructor; [done|].
      apply Forall_app. split; [done|]. constructor; [done|].
      eapply Forall_forall. intros l Hl.
      eapply Forall_forall in Hrest_nb; [exact Hrest_nb|].
      eapply elem_of_sublist; [exact Hl|]. apply after_sublist.
Qed.
End summaries.

(** *** The entries each script leaves *)

Lemma drop_while_sublist {A} (p : A → bool) (l : list A) :
  drop_while p l `sublist_of` l.
Proof.
  induction l as [|x l IH]; simpl; [done|].
  destruct (p x); [by constructor|done].
Qed.

Lemma take_while_blanks blanks rest :
  Forall (λ l, is_blank l = true) blanks →
  take_while (λ l, negb (is_heading l)) (blanks ++ rest)
  = blanks ++ take_while (λ l, negb (is_heading l)) rest.
Proof.
  intros Hb. apply take_while_app_all.
  eapply Forall_impl; [exact Hb|]. intros l Hl. simpl.
  by rewrite blank_not_heading.
Qed.

Lemma entries_skip_blanks blanks rest :
  Forall (λ l, is_blank l = true) blanks →
  filter (λ l, is_entry l = true) (blanks ++ rest)
  = filter (λ l, is_entry l = true) rest.
Proof. apply filter_skip_all, blank_not_entry. Qed.

(** *** The Linear script *)

Lemma linear_after_sublist rest : linear_after rest `sublist_of` rest.
Proof.
  unfold linear_after. destruct rest as [|first more]; [done|].
  destruct (is_entry first); [|done].
  apply sublist_cons. etrans; apply drop_while_sublist.
Qed.

Lemma linear_put_after lines i summary :
  index Linear.DAILY_SUMMARIES lines = Some i →
  ∃ pre blanks rest,
    lines = pre ++ Linear.DAILY_SUMMARIES :: (blanks ++ rest) ∧
    (Linear.DAILY_SUMMARIES ∉ pre) ∧ length pre = i ∧
    Forall (λ l, is_blank l = true) blanks ∧
    match rest with [] => True | l :: _ => is_blank l = false end ∧
    Linear.put_summary lines i summary
    = pre ++ Linear.DAILY_SUMMARIES :: (blanks ++ summary :: linear_after rest).
Proof. apply linear_put_summary. Qed.

Lemma linear_entries blanks rest summary :
  Forall (λ l, is_blank l = true) blanks →
  match rest with [] => True | l :: _ => is_blank l = false end →
  is_entry summary = true →
  filter (λ l, is_entry l = true)
    (take_while (λ l, negb (is_heading l)) (blanks ++ summary :: linear_after rest))
  = summary :: filter (λ l, is_entry l = true)
      (below_first_run
         (take_while (λ l, negb (is_heading l)) (blanks ++ rest))).
Proof.
  intros Hb Hrest Hsum.
  rewrite !take_while_blanks, entries_skip_blanks by done.
  cbn [take_while]. rewrite (entry_not_heading _ Hsum). cbn [negb].
  rewrite filter_cons, decide_True by done. f_equal.
  unfold below_first_run. rewrite drop_while_app_all by done.
  destruct rest as [|first more]; [done|].
  cbn [linear_after take_while].
  destruct (is_entry first) eqn:He.
  - rewrite (entry_not_heading _ He). cbn [negb drop_while].
    rewrite Hrest, He.
    rewrite (take_while_drop_while is_blank); last first.
    { intros l Hl. by rewrite blank_not_heading. }
    rewrite (filter_drop_while is_blank is_entry) by apply blank_not_entry.
    rewrite (take_while_drop_while is_further_entry); [done|].
    intros l Hl. by rewrite further_entry_not_heading.
  - cbn [take_while]. destruct (is_heading first); cbn [negb drop_while].
    + done.
    + by rewrite Hrest, He.
Qed.

(** *** The Notion script *)





(** ** A token of one line lies in one line *)

Lemma startswith_line tok c s :
  no_linebreak tok → startswith tok (c :: s) = true →
  is_linebreak c = false →
  match splitlines (c :: s) with
  | l :: _ => startswith tok l = true
  | [] => False
  end.
Proof.
  revert c s. induction tok as [|a tok IH]; intros c s Htok Hs Hc.
  - simpl. rewrite Hc. by destruct (splitlines s).
  - apply Forall_cons in Htok as [Ha Htok]. simpl in Hs.
    case_decide as Heq; [|done]. subst a.
    cbn [splitlines]. rewrite Hc.
    destruct tok as [|b tok].
    { destruct (splitlines s); simpl; by rewrite decide_True. }
    destruct s as [|d s]; [done|].
    assert (is_linebreak d = false) as Hd.
    { simpl in Hs. case_decide; [|done]. subst d. by apply Forall_cons in Htok as [? _]. }
    specialize (IH d s Htok Hs Hd).
    destruct (splitlines (d :: s)) as [|l ls]; [done|].
    simpl. by rewrite decide_True.
Qed.

Lemma contains_cons_r tok c s : contains tok s = true → contains tok (c :: s) = true.
Proof. intros Hs. simpl. rewrite Hs. apply orb_true_r. Qed.

Lemma contains_line tok s :
  no_linebreak tok → tok ≠ [] → contains tok s = true →
  Exists (λ l, contains tok l = true) (splitlines s).
Proof.
  intros Htok Hne.
  assert (Hfirst : ∀ c s, is_linebreak c = true → startswith tok (c :: s) = false).
  { intros c s' Hc. destruct tok as [|a tok]; [done|].
    apply Forall_cons in Htok as [Ha _]. simpl.
    case_decide; [congruence|done]. }
  assert (Hgen : ∀ n s, length s ≤ n → contains tok s = true →
                        Exists (λ l, contains tok l = true) (splitlines s)).
  { clear s. induction n as [|n IH]; intros s Hlen Hs.
    - destruct s; [|simpl in Hlen; lia]. by destruct tok.
    - destruct s as [|c s]; [by destruct tok|]. simpl in Hlen.
      cbn [contains] in Hs. cbn [splitlines].
      destruct (is_linebreak c) eqn:Hc.
      + rewrite (Hfirst c s Hc) in Hs. simpl in Hs.
        apply Exists_cons_tl.
        destruct s as [|c' s']; [by destruct tok|].
        case_decide as Hcr.
        * destruct Hcr as [-> ->]. cbn [contains] in Hs.
          rewrite (Hfirst LF s') in Hs by done. simpl in Hs.
          apply IH; [simpl in Hlen; lia|done].
        * apply IH; [lia|done].
      + destruct (startswith tok (c :: s)) eqn:Hstart.
        * pose proof (startswith_line tok c s Htok Hstart Hc) as Hl.
          cbn [splitlines] in Hl. rewrite Hc in Hl.
          destruct (splitlines s) as [|l ls].
          -- apply Exists_cons_hd. cbn [contains]. by rewrite Hl.
          -- apply Exists_cons_hd. cbn [contains]. by rewrite Hl.
        * simpl in Hs. apply IH in Hs; [|lia].
          destruct (splitlines s) as [|l ls]; [by apply Exists_nil in Hs|].
          apply Exists_cons in Hs as [Hl|Hls].
          -- apply Exists_cons_hd. by apply contains_cons_r.
          -- by apply Exists_cons_tl. }
  by apply (Hgen (length s)).
Qed.

Lemma search_field_contains label s g :
  Re.search_field label s = Some g → contains (Re.label_token label) s = true.
Proof.
  induction s as [|c s IH]; [done|].
  cbn [Re.search_field contains].
  destruct (Re.match_field label (c :: s)) as [[n g']|] eqn:Hm.
  - intros _. by rewrite (match_field_token _ _ _ Hm).
  - intros Hs. rewrite (IH Hs). apply orb_true_r.
Qed.

(** ** The calendar keeps the laws of the library *)

Module CalendarLaws.
Import Calendar CalendarFields.
Local Open Scope N_scope.

Lemma below_ten (k : N) :
  k < 10 → k ∈ [0; 1; 2; 3; 4; 5; 6; 7; 8; 9].
Proof.
  intros Hk. rewrite !elem_of_cons.
  assert (k = 0 ∨ k = 1 ∨ k = 2 ∨ k = 3 ∨ k = 4 ∨ k = 5 ∨ k = 6 ∨ k = 7
          ∨ k = 8 ∨ k = 9) by lia.
  tauto.
Qed.

Lemma digit_is_digit k : k < 10 → is_digit (digit k) = true.
Proof.
  intros Hk%below_ten. revert k Hk. apply Forall_forall.
  repeat constructor.
Qed.

Lemma number_two a b :
  a < 10 → b < 10 → number [digit a; digit b] = Some (10 * a + b).
Proof.
  intros Ha%below_ten Hb%below_ten. revert b Hb. apply Forall_forall.
  revert a Ha. apply Forall_forall.
  repeat constructor.
Qed.

Lemma two_number n : n < 100 → number (two n) = Some n.
Proof.
  intros Hn. unfold two. rewrite number_two.
  - f_equal. rewrite N.mod_small by (apply N.Div0.div_lt_upper_bound; lia).
    symmetry. apply N.div_mod. lia.
  - apply N.mod_lt. lia.
  - apply N.mod_lt. lia.
Qed.

Lemma two_digits n : Forall (λ c, is_digit c = true) (two n).
Proof.
  unfold two. repeat constructor; apply digit_is_digit, N.mod_lt; lia.
Qed.

Lemma str_of_N_digits n : Forall (λ c, is_digit c = true) (str_of_N n).
Proof. apply string_of_uint_digits. Qed.

Lemma number_str_of_N n : number (str_of_N n) = Some n.
Proof.
  unfold number, str_of_N, lit.
  rewrite string_of_list_ascii_of_string, NilEmpty.usu. simpl.
  by rewrite DecimalN.Unsigned.of_to.
Qed.

Lemma year_days_min y : 365 ≤ year_days y.
Proof. unfold year_days. destruct (is_leap y); lia. Qed.

Lemma year_of_spec fuel n d :
  d < 365 * N.of_nat fuel →
  ∃ n' d', year_of fuel n d = (n', d') ∧
    days_before_year n + d = days_before_year n' + d' ∧
    d' < year_days (1970 + N.of_nat n').
Proof.
  revert n d. induction fuel as [|fuel IH]; intros n d Hd; [lia|].
  simpl year_of. destruct (N.ltb_spec d (year_days (1970 + N.of_nat n))).
  - by exists n, d.
  - pose proof (year_days_min (1970 + N.of_nat n)).
    destruct (IH (S n) (d - year_days (1970 + N.of_nat n)))
      as (n' & d' & -> & Hsum & Hlt); [lia|].
    exists n', d'. split; [done|]. split; [|done].
    simpl days_before_year in Hsum. lia.
Qed.

Lemma month_of_spec (leap : bool) (d : N) :
  d < (if leap then 366 else 365) → month_found leap d.
Proof.
  assert (∀ leap, Forall (λ k : nat, month_found leap (N.of_nat k))
                    (seq 0 (if leap then 366 else 365))) as Hall.
  { intros []; apply (bool_decide_unpack _); vm_compute; exact I. }
  intros Hd. rewrite <- (N2Nat.id d).
  specialize (Hall leap). eapply Forall_forall in Hall; [exact Hall|].
  apply elem_of_seq. destruct leap; lia.
Qed.

Lemma month_days_max leap m : month_days leap m ≤ 31.
Proof.
  unfold month_days. destruct (m =? 2), leap; try lia;
    destruct (_ || _); lia.
Qed.

Lemma read_print_fields x :
  fields_ok x → read_seconds (print_fields x) = Some (instant x).
Proof.
  intros (Hy & Hm & Hd & Hh & Hi & Hs).
  pose proof (month_days_max (is_leap (f_year x)) (f_month x)).
  unfold read_seconds, print_fields.
  rewrite (take_while_app_all _ _ _ (str_of_N_digits _)).
  cbn [lit list_ascii_of_string app take_while is_digit].
  change (is_digit "-") with false. cbv iota.
  rewrite app_nil_r, drop_app_length.
  unfold two at 1 2 3 4 5. cbn [app].
  rewrite bool_decide_eq_true_2 by done.
  fold (two (f_month x)) (two (f_day x)) (two (f_hour x))
       (two (f_minute x)) (two (f_second x)).
  rewrite number_str_of_N, !two_number by lia.
  cbn [mbind option_bind].
  rewrite bool_decide_eq_true_2 by (split_and!; (done || lia)).
  done.
Qed.

Lemma print_fields_of t :
  ∃ x, print t = print_fields x ∧ fields_ok x ∧ instant x = t / 1000000.
Proof.
  unfold print. set (s := t / 1000000).
  destruct (year_of_spec (S (N.to_nat (s / 86400 / 365))) 0 (s / 86400))
    as (n & d & -> & Hsum & Hlt).
  { pose proof (N.div_mod (s / 86400) 365).
    pose proof (N.mod_lt (s / 86400) 365). lia. }
  pose proof (month_of_spec (is_leap (1970 + N.of_nat n)) d Hlt)
    as (Hm & Hd & Hdays).
  destruct (month_of 11 _ 0 d) as [m d'] eqn:Hmonth. simpl in Hm, Hd, Hdays.
  exists {| f_year := 1970 + N.of_nat n; f_month := 1 + N.of_nat m;
            f_day := 1 + d'; f_hour := s mod 86400 / 3600;
            f_minute := s mod 86400 / 60 mod 60;
            f_second := s mod 86400 mod 60 |}.
  split; [done|].
  pose proof (N.mod_lt s 86400).
  set (r := s mod 86400) in *.
  split.
  - unfold fields_ok; cbn [f_year f_month f_day f_hour f_minute f_second].
    split_and!; try lia.
    + apply N.Div0.div_lt_upper_bound. lia.
    + apply N.mod_lt. lia.
    + apply N.mod_lt. lia.
  - unfold instant; cbn [f_year f_month f_day f_hour f_minute f_second].
    fold s.
    replace (N.to_nat (1970 + N.of_nat n - 1970)) with n by lia.
    replace (N.to_nat (1 + N.of_nat m - 1)) with m by lia.
    replace (1 + d' - 1) with d' by lia.
    simpl days_before_year in Hsum.
    pose proof (N.div_mod s 86400). fold r in H0.
    pose proof (N.div_mod r 60).
    pose proof (N.div_mod (r / 60) 60).
    assert (r / 3600 = r / 60 / 60) as Hdiv
      by (by rewrite N.Div0.div_div).
    lia.
Qed.

#[export] Instance calendar_laws : @DatetimeLaws Calendar.calendar.
Proof.
  split.
  - intros t. destruct (print_fields_of t) as (x & Hx & _).
    exists (str_of_N (f_year x) ++ lit "-" ++ two (f_month x) ++ lit "-"
            ++ two (f_day x) ++ lit "T" ++ two (f_hour x) ++ lit ":"
            ++ two (f_minute x) ++ lit ":" ++ two (f_second x)).
    split; [|split].
    + cbn [isoformat_seconds calendar]. rewrite Hx. unfold print_fields.
      by rewrite <- !app_assoc.
    + intros Hnil. apply (f_equal length) in Hnil.
      rewrite !length_app in Hnil. simpl in Hnil. lia.
    + repeat (apply Forall_app; split);
        try (eapply Forall_impl;
             [first [apply str_of_N_digits | apply two_digits]|];
             intros c Hc; unfold Re.is_stamp_char; by rewrite Hc);
        by repeat constructor.
  - intros t. cbn [isoformat_seconds fromisoformat_utc calendar].
    destruct (print_fields_of t) as (x & -> & Hok & Hx).
    unfold read. rewrite read_print_fields by done. by rewrite Hx.
  - intros stamp t _. cbn [fromisoformat_utc calendar]. unfold read.
    rewrite fmap_Some. intros (seconds & _ & ->).
    unfold whole_seconds. by rewrite N.div_mul.
Qed.

End CalendarLaws.

(** ** The files after a run *)

Section layout.
Context (loaded : list IssueEntry) (existing : list (nat * BatchInfo)).
Context (t : datetime) (incoming : list Issue).

#[local] Abbreviation plan := (reconcile loaded existing t incoming).

Lemma changed_sublist : changed plan `sublist_of` new_batches plan.
Proof. unfold reconcile, changed_batches. simpl. apply sublist_filter. Qed.

Lemma new_batches_keys_nodup : NoDup (new_batches plan).*1.
Proof. rewrite plan_keys. apply NoDup_seq. Qed.

Lemma dict_get_changed k :
  dict_get k (changed plan)
  = match dict_get k (new_batches plan) with
    | Some batch => if decide ((k, batch) ∈ changed plan) then Some batch else None
    | None => None
    end.
Proof.
  destruct (dict_get k (changed plan)) as [b|] eqn:Hc.
  - apply dict_get_Some in Hc.
    assert ((k, b) ∈ new_batches plan) as Hin
      by (eapply elem_of_sublist; [exact Hc|apply changed_sublist]).
    rewrite (dict_get_elem_of k b _ new_batches_keys_nodup Hin).
    by rewrite decide_True.
  - destruct (dict_get k (new_batches plan)) as [b|] eqn:Hn; [|done].
    case_decide as Hin; [|done].
    apply (dict_get_elem_of _ _ _ (plan_changed_keys_nodup _ _ _ _)) in Hin.
    congruence.
Qed.

Lemma stale_not_changed k : k ∈ stale plan → dict_get k (changed plan) = None.
Proof.
  intros [_ Hk]%plan_stale. rewrite dict_get_changed.
  destruct (dict_get k (new_batches plan)) as [b|] eqn:Hn; [|done].
  apply dict_get_Some in Hn.
  assert (k ∈ (new_batches plan).*1) as Hin.
  { apply list_elem_of_fmap. by exists (k, b). }
  rewrite plan_keys in Hin. apply elem_of_seq in Hin. lia.
Qed.

Lemma files_after cfg inp (dir : gmap nat str) k :
  unlink_batches (stale plan)
    (write_batches (LINEAR_TEAM_NAME cfg) (generated inp) (changed plan) dir)
    !! k
  = file_after cfg inp dir plan k.
Proof.
  rewrite unlink_batches_lookup, write_batches_lookup
    by apply plan_changed_keys_nodup.
  unfold file_after. case_decide as Hs; [|done].
  by rewrite (stale_not_changed k Hs).
Qed.

Hypothesis Hinv : batch_invariant loaded existing.

Lemma existing_keys :
  (existing_ids existing).*1 = seq 1 (batch_count (length loaded)).
Proof.
  destruct Hinv as (_ & _ & ->). rewrite batches_of_keys.
  by rewrite length_fmap.
Qed.

Lemma existing_ids_keys : (existing_ids existing).*1 = existing.*1.
Proof.
  unfold existing_ids. rewrite <- !list_fmap_compose.
  apply list_fmap_ext. by intros i [k info] _.
Qed.

Lemma members_after_layout k :
  members_after existing plan k = ids <$> dict_get k (new_batches plan).
Proof.
  unfold members_after. rewrite dict_get_changed.
  destruct (dict_get k (new_batches plan)) as [b|] eqn:Hn; simpl.
  - pose proof (dict_get_Some _ _ _ Hn) as Hin.
    case_decide as Hc; [done|].
    assert (k ∈ (new_batches plan).*1) as Hk.
    { apply list_elem_of_fmap. by exists (k, b). }
    rewrite plan_keys in Hk. apply elem_of_seq in Hk.
    rewrite decide_False by (intros [_ ?]%plan_stale; lia).
    assert (ids b = old_members existing k) as Hold.
    { destruct (decide (ids b = old_members existing k)); [done|].
      exfalso. apply Hc.
      apply (plan_changed loaded existing t incoming (k, b)).
      split; [done|]. by left. }
    assert (0 < length b) as Hlen.
    { apply list_elem_of_lookup in Hin as [i Hi].
      rewrite plan_new_batches in Hi.
      by apply batches_of_sizes in Hi as (_ & [? _] & _). }
    unfold old_members in Hold.
    destruct (dict_get k (existing_ids existing)) as [l|]; simpl in Hold.
    + by rewrite Hold.
    + apply (f_equal length) in Hold. rewrite length_fmap in Hold.
      simpl in Hold. lia.
  - apply dict_get_None in Hn. rewrite plan_keys, elem_of_seq in Hn.
    case_decide as Hs; [done|].
    apply dict_get_None. rewrite existing_keys, elem_of_seq.
    intros Hk. apply Hs. apply plan_stale. split; [|lia].
    rewrite <- existing_ids_keys, existing_keys. by apply elem_of_seq.
Qed.

Lemma dict_get_is_Some {V} k (d : list (nat * V)) :
  is_Some (dict_get k d) ↔ k ∈ d.*1.
Proof.
  pose proof (dict_get_None k d) as Hn.
  destruct (dict_get k d) as [v|].
  - split; [intros _|by eauto].
    destruct (decide (k ∈ d.*1)) as [|Hk]; [done|].
    by apply Hn in Hk.
  - split; [by intros [? ?]|]. intros Hk. by apply (proj1 Hn) in Hk.
Qed.

(** After the run there is a batch file for each batch and no other. *)
Lemma files_exist_after cfg inp (dir : gmap nat str) k :
  load_existing_entries dir = Ok (loaded, existing) →
  is_Some (file_after cfg inp dir plan k)
  ↔ is_Some (dict_get k (new_batches plan)).
Proof.
  intros Hload.
  pose proof (members_after_layout k) as Hm.
  unfold members_after in Hm. unfold file_after.
  destruct (dict_get k (changed plan)) as [b|] eqn:Hc.
  - destruct (dict_get k (new_batches plan)); [|done]. split; eauto.
  - case_decide as Hs.
    + destruct (dict_get k (new_batches plan)); [done|].
      split; by intros [? ?].
    + rewrite <- batch_files_keys.
      rewrite <- (load_files_Ok _ _ _ Hload), <- existing_ids_keys.
      rewrite <- dict_get_is_Some, Hm. apply fmap_is_Some.
Qed.

End layout.

Lemma render_batch_delimited team ts n es :
  contains DELIMITER (render_batch team ts n es) = true.
Proof.
  rewrite render_batch_eq.
  apply (startswith_contains _ _ (length (batch_header team ts n))).
  rewrite drop_app_length. apply startswith_app.
Qed.

(** ** The watermark over a sequence of runs *)

Section watermark.
Context `{Datetime} `{!DatetimeLaws}.

Lemma run_watermark_le cfg inp w previous :
  world_ok w → watermark w = Some previous →
  ∃ t', world_ok (world_after (main cfg inp w)) ∧
        watermark (world_after (main cfg inp w)) = Some t' ∧
        (previous ≤ t')%N.
Proof.
  intros Hok Hw.
  destruct (run_watermark cfg inp w previous Hok Hw)
    as [Hok' [[_ Hsame]|[_ (issues & _ & Hnew)]]].
  - exists previous. by split_and!.
  - eexists. split_and!; [done|exact Hnew|].
    trans (whole_seconds previous);
      [by rewrite (watermark_whole w previous Hw)|].
    apply whole_seconds_le, advance_watermark_le.
Qed.

Lemma run_all_watermarks cfg inps w previous :
  world_ok w → watermark w = Some previous →
  ∃ ts, watermark <$> run_all cfg inps w = Some <$> ts ∧
        StronglySorted N.le (previous :: ts).
Proof.
  revert w previous. induction inps as [|inp inps IH]; intros w previous Hok Hw.
  - exists []. split; [done|]. repeat constructor.
  - destruct (run_watermark_le cfg inp w previous Hok Hw)
      as (t' & Hok' & Hw' & Hle).
    destruct (IH _ _ Hok' Hw') as (ts & Hts & Hsorted).
    exists (t' :: ts). split.
    + cbn [run_all fmap list_fmap]. rewrite Hw'. f_equal. exact Hts.
    + apply StronglySorted_cons. split; [|done].
      apply StronglySorted_cons in Hsorted as [Hall _].
      constructor; [done|].
      eapply Forall_impl; [exact Hall|]. intros x Hx. simpl in *.
      by etrans.
Qed.

End watermark.

(** ** The summaries after an update *)

Section summaries_after.
Context `{Datetime} `{!DatetimeLaws}.

Lemma linear_summary_entries text ts summary :
  status_ok text → is_entry summary = true → no_linebreak summary →
  ∃ text', update_status_doc text ts summary = Ok text' ∧
    summary_entries DAILY_SUMMARIES text'
    = summary :: filter (λ l, is_entry l = true)
        (below_first_run (section_body DAILY_SUMMARIES (splitlines text))).
Proof.
  intros Hok Hentry Hline.
  destruct (format_iso_timestamp_shape ts) as (stamp & Hfmt & _ & Hne & Hall).
  destruct (updated_sections TIMESTAMP_LABEL DAILY_SUMMARIES) with
    (put := put_summary) (after := linear_after) (text := text)
    (stamp := stamp) (summary := summary)
    as (lines & d & blanks & rest & Hrep & Hidx & Hblanks & Hrest & Hold & Hnew);
    try done.
  { by computed. }
  { change (BACKTICK ∉ DAILY_SUMMARIES). by computed. }
  { by computed. }
  { apply linear_put_after. }
  { apply linear_after_sublist. }
  exists (join [LF] (put_summary lines d summary) ++ [LF]). split.
  - unfold update_status_doc, updated_lines. by rewrite Hfmt, Hrep, Hidx.
  - unfold summary_entries. rewrite Hnew, Hold. by apply linear_entries.
Qed.


End summaries_after.

(** * The claims *)


(** C2 (amended): for a baseline sorted by sort key with unique
    identifiers, the merge loop of [main] computes the pure merge
    [merge_spec]; the result is sorted by sort key (equal keys allowed) with
    unique identifiers; its length is the length of the baseline plus the
    number of genuinely new identifiers; the baseline identifiers keep
    their places among themselves and an entry whose identifier arrived
    holds the markdown of the last such arrival, any other entry is the
    baseline entry; and among the identifiers of one sort key, those of
    the baseline come first and the new ones follow in the order of their
    first arrival. *)
Theorem merge_sorted_unique (loaded : list IssueEntry) (t : datetime)
    (incoming : list Issue) :
  sorted_by_key loaded → NoDup (ids loaded) →
  let out := final_entries (merged loaded t incoming) in
  out = merge_spec loaded incoming ∧
  sorted_by_key out ∧ NoDup (ids out) ∧
  length out = length loaded + length (genuinely_new loaded incoming) ∧
  NoDup (genuinely_new loaded incoming) ∧
  (∀ id, id ∈ genuinely_new loaded incoming
         ↔ id ∈ issue_identifier <$> incoming ∧ id ∉ ids loaded) ∧
  filter (λ id, id ∈ ids loaded) (ids out) = ids loaded ∧
  (∀ e, e ∈ out →
        match latest_markdown (identifier e) incoming with
        | Some markdown => content e = markdown
        | None => e ∈ loaded
        end) ∧
  (∀ k, with_key k (ids out)
        = with_key k (ids loaded ++ genuinely_new loaded incoming)).
Proof.
  intros Hsorted Hnodup out. subst out. split_and!.
  - by apply merged_spec.
  - by apply merged_sorted.
  - by apply merged_ids_nodup.
  - rewrite <- (merged_genuinely_new loaded t) by done. by apply merged_length.
  - by eapply genuinely_new_nodup.
  - intros id. by eapply genuinely_new_elem_of.
  - by apply merged_baseline_order.
  - intros e. by apply merged_content.
  - intros k. rewrite <- (merged_genuinely_new loaded t) by done.
    by apply merged_ties.
Qed.

(** C3 (amended): in a status document whose first line with the label
    token holds the timestamp field there and whose heading of the
    summaries is a later line, the watermark persisted at the end of a
    successful run is max(previous watermark, max of updated_at over the
    records fetched in this run, now) cut to whole seconds, which is not
    below the previous watermark; on a run with no incoming record and a
    clock that is not behind the previous watermark it is now cut to whole
    seconds; and over any sequence of runs, successful or not, the
    persisted watermarks never decrease. *)
Theorem watermark_advances `{Datetime} `{!DatetimeLaws} (cfg : Config)
    (w : World) (previous : datetime) :
  world_ok w → watermark w = Some previous →
  (∀ inp, raised (main cfg inp w) = None →
     ∃ issues,
       fetch_updated inp previous = Ok issues ∧
       world_ok (world_after (main cfg inp w)) ∧
       watermark (world_after (main cfg inp w))
       = Some (whole_seconds (advance_watermark previous issues (now inp))) ∧
       (previous ≤ whole_seconds (advance_watermark previous issues (now inp)))%N ∧
       (issues = [] → (previous ≤ now inp)%N →
        watermark (world_after (main cfg inp w))
        = Some (whole_seconds (now inp)))) ∧
  (∀ inps, ∃ ts,
     watermark <$> run_all cfg inps w = Some <$> ts ∧
     StronglySorted N.le (previous :: ts)).
Proof.
  intros Hok Hw. split.
  - intros inp Hraised.
    destruct (run_watermark cfg inp w previous Hok Hw)
      as [Hok' [[Hfail _]|[_ (issues & Hfetch & Hnew)]]]; [done|].
    exists issues. split_and!; [done..| |].
    + trans (whole_seconds previous);
        [by rewrite (watermark_whole w previous Hw)|].
      apply whole_seconds_le, advance_watermark_le.
    + intros -> Hle. rewrite Hnew. do 2 f_equal.
      unfold advance_watermark. simpl. lia.
  - intros inps. by apply run_all_watermarks.
Qed.



(** C6: when a batch file holds no delimiter, so that its text cannot be
    split into a header and blocks, [load_existing_entries] raises the
    error of an unexpected format for the first such file, and the run is
    over before any file is written or unlinked: with that error when the
    steps before the loading succeed, with theirs otherwise. *)
Theorem malformed_batch_aborts `{Datetime} (cfg : Config) (inp : RunInput)
    (w : World) (k : nat) (text : str) :
  linear_dir w !! k = Some text → contains DELIMITER text = false →
  ∃ k' text',
    linear_dir w !! k' = Some text' ∧ contains DELIMITER text' = false ∧
    load_existing_entries (linear_dir w)
    = Raise (LinearSyncError (UnexpectedFormat k')) ∧
    (∃ e, main cfg inp w = aborted w e ∧
          written (main cfg inp w) = [] ∧ removed (main cfg inp w) = [] ∧
          world_after (main cfg inp w) = w) ∧
    (∀ status t issues,
       LINEAR_API_KEY cfg ≠ [] →
       parse_status_doc (status_doc w) = Ok (status, t) →
       fetch_updated inp t = Ok issues →
       main cfg inp w = aborted w (LinearSyncError (UnexpectedFormat k'))).
Proof.
  intros Hfile Hnone.
  apply elem_of_batch_files in Hfile. apply parse_batch_None in Hnone.
  destruct (load_files_Raise _ _ _ Hfile Hnone) as (k' & text' & Hload & Hin & Hp).
  exists k', text'. split_and!.
  - by apply elem_of_batch_files.
  - by apply parse_batch_None.
  - done.
  - destruct (main_aborts_or_runs cfg inp w)
      as [[e He]|(status & t & issues & loaded & existing & _ & _ & _ & Hok)].
    + exists e. by rewrite He.
    + unfold load_existing_entries in Hok. congruence.
  - intros status t issues Hkey Hparse Hfetch.
    by eapply main_load_fails.
Qed.



(** C9 (amended): when the baseline satisfies the batch invariant and no
    record comes in, the run writes no batch file and unlinks none: the
    directory of the batch files is after the run what it was before. *)
Theorem no_incoming_no_rewrite `{Datetime} (cfg : Config) (inp : RunInput)
    (w : World) (text : str) (t : datetime)
    (loaded : list IssueEntry) (existing : list (nat * BatchInfo)) :
  LINEAR_API_KEY cfg ≠ [] →
  parse_status_doc (status_doc w) = Ok (text, t) →
  fetch_updated inp t = Ok [] →
  load_existing_entries (linear_dir w) = Ok (loaded, existing) →
  batch_invariant loaded existing →
  changed (reconcile loaded existing t []) = [] ∧
  stale (reconcile loaded existing t []) = [] ∧
  written (main cfg inp w) = [] ∧ removed (main cfg inp w) = [] ∧
  linear_dir (world_after (main cfg inp w)) = linear_dir w.
Proof.
  intros Hkey Hparse Hfetch Hload Hinv.
  destruct (reconcile_nothing loaded existing t Hinv) as [Hc Hs].
  destruct (main_files cfg inp w text t [] loaded existing
              Hkey Hparse Hfetch Hload) as (Hw & Hr & Hd).
  rewrite Hw, Hr, Hd, Hc, Hs. done.
Qed.


(** * The claims on sample data

    Each claim at a concrete input, with the calendar above for the
    library: the runs the amended claims are about exist, and the claims
    that were amended fail as they were stated. *)

Section sample_runs.
#[local] Existing Instance Calendar.calendar.
#[local] Existing Instance CalendarLaws.calendar_laws.


(** C2, as stated, fails: merging a record with the sort key of a baseline
    record gives a sequence that is not strictly sorted. *)
Lemma merge_not_strictly_sorted :
  sorted_by_key Sample.tie_baseline ∧ NoDup (ids Sample.tie_baseline) ∧
  ids (final_entries (merged Sample.tie_baseline Sample.new_year
                             Sample.tie_incoming))
  = [lit "ENG-5"; lit "OPS-5"] ∧
  ¬ strictly_sorted_by_key
      (final_entries (merged Sample.tie_baseline Sample.new_year
                             Sample.tie_incoming)).
Proof.
  split_and!.
  - by computed.
  - by computed.
  - vm_compute. reflexivity.
  - unfold strictly_sorted_by_key. by computed.
Qed.

(** C2 (amended) on the sample baseline and the two sample issues. *)
Lemma merge_sorted_unique_witness :
  sorted_by_key Sample.baseline ∧ NoDup (ids Sample.baseline) ∧
  length (final_entries (merged Sample.baseline Sample.new_year Sample.incoming))
  = length Sample.baseline
    + length (genuinely_new Sample.baseline Sample.incoming).
Proof.
  assert (Hs : sorted_by_key Sample.baseline) by (by computed).
  assert (Hn : NoDup (ids Sample.baseline)) by (by computed).
  split; [exact Hs|]. split; [exact Hn|].
  exact (proj1 (proj2 (proj2 (proj2
    (merge_sorted_unique Sample.baseline Sample.new_year Sample.incoming
                         Hs Hn))))).
Defined.

(** C3, as stated, fails: a run at 02:00:00.123456 persists the watermark
    02:00:00, not max(previous, max updated_at, now). *)
Lemma watermark_cut_to_seconds :
  let r := main Sample.cfg (Sample.input Sample.incoming Sample.two_hours_later)
                Sample.world in
  raised r = None ∧
  watermark Sample.world = Some Sample.new_year ∧
  fetch_updated (Sample.input Sample.incoming Sample.two_hours_later)
                Sample.new_year = Ok Sample.incoming ∧
  advance_watermark Sample.new_year Sample.incoming Sample.two_hours_later
  = 1704074400123456%N ∧
  watermark (world_after r) = Some 1704074400000000%N ∧
  watermark (world_after r)
  ≠ Some (advance_watermark Sample.new_year Sample.incoming
                            Sample.two_hours_later).
Proof.
  split_and!; [vm_compute; reflexivity..|].
  vm_compute. intros [=].
Qed.

(** C3 (amended) on the sample world: two runs, the second with no
    incoming record and a clock behind the first. *)
Lemma watermark_advances_witness :
  world_ok Sample.world ∧ watermark Sample.world = Some Sample.new_year ∧
  ∃ ts,
    watermark <$> run_all Sample.cfg
                    [Sample.input Sample.incoming Sample.two_hours_later;
                     Sample.input [] Sample.one_hour_later]
                    Sample.world
    = Some <$> ts ∧
    StronglySorted N.le (Sample.new_year :: ts).
Proof.
  assert (Hok : world_ok Sample.world).
  { exists Sample.status. split; [reflexivity|].
    status_layout [lit "# Linear Sync Status"; []] (lit "- ")
      (lit "`lastSyncTimestamp`: 2024-01-01T00:00:00Z")
      [[]; lit "## Daily Summaries"; []; lit "- 2024-01-01: no changes"]. }
  assert (Hw : watermark Sample.world = Some Sample.new_year)
    by (vm_compute; reflexivity).
  split; [exact Hok|]. split; [exact Hw|].
  exact (proj2 (watermark_advances Sample.cfg Sample.world Sample.new_year
                  Hok Hw) _).
Defined.





(** C6 on a directory whose second batch file holds no delimiter. *)
Lemma malformed_batch_aborts_witness :
  Sample.malformed_disk !! 2 = Some (lit "# Engineering - Issue Batch 2") ∧
  ∃ e, main Sample.cfg (Sample.input Sample.incoming Sample.two_hours_later)
            Sample.malformed_world
       = aborted Sample.malformed_world e.
Proof.
  assert (Hfile : Sample.malformed_disk !! 2
                  = Some (lit "# Engineering - Issue Batch 2"))
    by (vm_compute; reflexivity).
  split; [exact Hfile|].
  destruct (malformed_batch_aborts Sample.cfg
    (Sample.input Sample.incoming Sample.two_hours_later)
    Sample.malformed_world 2 (lit "# Engineering - Issue Batch 2") Hfile)
    as (k' & text' & _ & _ & _ & (e & He & _) & _).
  - vm_compute. reflexivity.
  - by exists e.
Defined.





(** C9, as stated, fails: with two batch files of one entry each and no
    incoming record, the run writes the first file and unlinks the
    second. *)
Lemma ragged_baseline_rewritten :
  let r := main Sample.cfg (Sample.input [] Sample.two_hours_later)
                Sample.ragged_world in
  fetch_updated (Sample.input [] Sample.two_hours_later) Sample.new_year = Ok [] ∧
  raised r = None ∧ written r = [1] ∧ removed r = [2] ∧
  linear_dir (world_after r) !! 2 = None.
Proof. split_and!; vm_compute; reflexivity. Qed.

(** C9 (amended) on the sample world with no incoming record. *)
Lemma no_incoming_no_rewrite_witness :
  batch_invariant Sample.baseline Sample.existing ∧
  written (main Sample.cfg (Sample.input [] Sample.two_hours_later)
                Sample.world) = [] ∧
  removed (main Sample.cfg (Sample.input [] Sample.two_hours_later)
                Sample.world) = [].
Proof.
  assert (Hinv : batch_invariant Sample.baseline Sample.existing)
    by (by computed).
  split; [exact Hinv|].
  refine ((λ H, conj (proj1 (proj2 (proj2 H)))
                     (proj1 (proj2 (proj2 (proj2 H)))))
          (no_incoming_no_rewrite Sample.cfg
             (Sample.input [] Sample.two_hours_later) Sample.world
             Sample.status Sample.new_year Sample.baseline Sample.existing
             _ _ _ _ Hinv)).
  - done.
  - vm_compute. reflexivity.
  - reflexivity.
  - vm_compute. reflexivity.
Defined.


End sample_runs.
(** * Further properties of the scripts *)

(** ** Entries that are read back *)

Lemma drop_while_idemp {A} (p : A → bool) (l : list A) :
  drop_while p (drop_while p l) = drop_while p l.
Proof.
  induction l as [|x l IH]; simpl; [done|].
  destruct (p x) eqn:Hx; [done|]. simpl. by rewrite Hx.
Qed.

Lemma rstrip_idemp s : rstrip (rstrip s) = rstrip s.
Proof.
  unfold rstrip. by rewrite reverse_involutive, drop_while_idemp.
Qed.

Lemma strip_idemp s : strip (strip s) = strip s.
Proof.
  unfold strip at 2 3.
  pose proof (drop_while_not_head is_space s) as Hhead.
  fold (lstrip s) in Hhead. destruct (lstrip s) as [|c t]; [done|].
  pose proof (rstrip_app_nonspace [] c t Hhead) as Ht. simpl in Ht.
  rewrite Ht. unfold strip. rewrite lstrip_nonspace by done.
  pose proof (rstrip_app_nonspace [] c (rstrip t) Hhead) as Ht'. simpl in Ht'.
  by rewrite Ht', rstrip_idemp.
Qed.

Lemma parse_block_strip block : parse_block (strip block) = parse_block block.
Proof. unfold parse_block. by rewrite strip_idemp. Qed.

(** What the parser returns is read back as it is. *)
Lemma parsed_reads_back block e :
  parse_block block = Some e → find DELIMITER block = None →
  parse_block (strip block) = Some e ∧ reads_back e.
Proof.
  intros Hparse Hnone.
  assert (parse_block (strip block) = Some e) as Hagain
    by by rewrite parse_block_strip.
  split; [done|].
  destruct (parse_block_content _ _ Hparse) as [Hc Hne].
  exists (strip block). split_and!; [done| |by rewrite Hagain].
  destruct (last (strip block)) as [c|] eqn:Hlast.
  - eapply single_delimiter; [exact Hlast|by eapply strip_last|].
    by apply find_None_strip.
  - by apply last_None in Hlast.
Qed.

Lemma parse_batch_reads_back text header es :
  parse_batch text = Some (header, es) → Forall reads_back es.
Proof.
  unfold parse_batch.
  destruct (split1 DELIMITER text) as [|h [|remainder [|? ?]]]; try done.
  intros [= <- <-]. apply Forall_forall. intros e He.
  apply list_elem_of_omap in He as (block & Hblock & Hparse).
  apply split_pieces in Hblock; [|done].
  by apply (parsed_reads_back block).
Qed.

Lemma readable_reads_back e : readable e → reads_back e.
Proof.
  intros He. pose proof (parse_block_readable e He) as Hparse.
  destruct He as ((rest & He & Honce) & _).
  exists (body_of e). rewrite (readable_body e rest He). split_and!.
  - by rewrite He, <- app_assoc.
  - done.
  - rewrite <- (readable_body e rest He), Hparse. done.
Qed.

Lemma reads_back_contents es :
  Forall reads_back es →
  ∃ bodies,
    content <$> es = (λ t, t ++ DELIMITER) <$> bodies ∧
    Forall ends_once bodies ∧
    ids (omap parse_block bodies) = ids es.
Proof.
  induction 1 as [|e es (body & Hc & Honce & Hid) _ (bodies & IH1 & IH2 & IH3)].
  - by exists [].
  - exists (body :: bodies). rewrite !fmap_cons. split_and!.
    + by rewrite Hc, IH1.
    + by constructor.
    + cbn [omap list_omap].
      destruct (parse_block body) as [e'|]; [|done].
      injection Hid as Hid. rewrite fmap_cons. by rewrite Hid, IH3.
Qed.

(** A rendered batch of such entries is read back with their identifiers,
    in order. *)
Lemma parse_render_reads_back team ts n es :
  LF ∉ team → LF ∉ ts → Forall reads_back es →
  ∃ found,
    parse_batch (render_batch team ts n es)
    = Some (batch_header team ts n, found) ∧
    ids found = ids es.
Proof.
  intros Hteam Hts Hes. unfold parse_batch. rewrite render_batch_eq.
  rewrite split1_first; [|done|by apply header_find].
  destruct (reads_back_contents es Hes) as (bodies & Hc & Honce & Hids).
  rewrite Hc, split_bodies by done.
  eexists. split; [done|].
  by rewrite omap_app, app_nil_r.
Qed.

(** ** Loading a directory *)

Lemma load_files_inv files loaded existing :
  load_files files = Ok (loaded, existing) →
  Forall (λ f, is_Some (parse_batch f.2)) files ∧
  loaded = concat ((λ f, entries_in f.2) <$> files) ∧
  existing_ids existing = (λ f, (f.1, ids (entries_in f.2))) <$> files.
Proof.
  revert loaded existing.
  induction files as [|[k text] files IH]; intros loaded existing;
    cbn [load_files].
  - by intros [= <- <-].
  - destruct (parse_batch text) as [[hd found]|] eqn:Hp; [|done].
    destruct (load_files files) as [[entries batches]|e]; simpl; [|done].
    intros [= <- <-].
    destruct (IH _ _ eq_refl) as (Hall & -> & Hids).
    assert (entries_in text = found) as Hfound
      by (unfold entries_in; by rewrite Hp).
    split_and!; [constructor; [cbn [snd]; by rewrite Hp|done]|by rewrite Hfound|].
    unfold existing_ids in *. rewrite fmap_cons. simpl.
    by rewrite Hids, Hfound.
Qed.

Lemma load_files_total files :
  Forall (λ f, is_Some (parse_batch f.2)) files →
  ∃ loaded existing, load_files files = Ok (loaded, existing).
Proof.
  induction 1 as [|[k text] files [[hd found] Hp] _ (loaded & existing & IH)];
    cbn [load_files]; [by eauto|].
  cbn [snd] in Hp. rewrite Hp, IH. simpl. eauto.
Qed.

Lemma load_existing_entries_total (dir : gmap nat str) :
  (∀ k text, dir !! k = Some text → is_Some (parse_batch text)) →
  ∃ loaded existing, load_existing_entries dir = Ok (loaded, existing).
Proof.
  intros Hall. apply load_files_total, Forall_forall.
  intros [k text] Hin. apply elem_of_batch_files in Hin. by eapply Hall.
Qed.

Lemma load_existing_entries_parsed (dir : gmap nat str) loaded existing k text :
  load_existing_entries dir = Ok (loaded, existing) →
  dir !! k = Some text → is_Some (parse_batch text).
Proof.
  intros (Hall & _)%load_files_inv Hk.
  apply elem_of_batch_files in Hk.
  by eapply Forall_forall in Hall; [|exact Hk].
Qed.

#[local] Instance key_le_total : Total key_le.
Proof. intros [a ?] [b ?]. unfold key_le. simpl. lia. Qed.

#[local] Instance key_le_trans : Transitive key_le.
Proof. intros [a ?] [b ?] [c ?]. unfold key_le. simpl. lia. Qed.

(** The files come in the order of their numbers. *)
Lemma batch_files_sorted (dir : gmap nat str) :
  StronglySorted le (batch_files dir).*1 ∧ NoDup (batch_files dir).*1.
Proof.
  split.
  - assert (StronglySorted key_le (batch_files dir)) as Hs.
    { apply Sorted_StronglySorted; [apply _|]. apply Sorted_merge_sort, _. }
    induction Hs as [|x l _ IH Hall]; [constructor|].
    rewrite fmap_cons. constructor; [done|].
    apply Forall_fmap. eapply Forall_impl; [exact Hall|]. by intros [? ?].
  - unfold batch_files. rewrite merge_sort_Permutation.
    apply NoDup_fst_map_to_list.
Qed.

Lemma batch_files_range (dir : gmap nat str) n :
  (∀ k, is_Some (dir !! k) ↔ 1 ≤ k ≤ n) → (batch_files dir).*1 = seq 1 n.
Proof.
  intros Hdom. destruct (batch_files_sorted dir) as [Hs Hnd].
  apply (StronglySorted_unique le); [done| |].
  - clear. generalize 1. induction n as [|n IH]; intros s; simpl; [constructor|].
    constructor; [apply IH|]. apply Forall_forall.
    intros x [? ?]%elem_of_seq. lia.
  - apply NoDup_Permutation; [done|apply NoDup_seq|].
    intros k. rewrite batch_files_keys, Hdom, elem_of_seq. lia.
Qed.

Lemma loaded_reads_back (dir : gmap nat str) loaded existing :
  load_existing_entries dir = Ok (loaded, existing) → Forall reads_back loaded.
Proof.
  intros (Hall & -> & _)%load_files_inv. apply Forall_concat, Forall_fmap.
  eapply Forall_impl; [exact Hall|]. intros [k text] [[hd found] Hp].
  simpl in *. unfold entries_in. rewrite Hp.
  by eapply parse_batch_reads_back.
Qed.

(** ** The batch files from one run to the next *)

Section next_run.
Context `{Datetime}.
Context (cfg : Config) (inp : RunInput) (w : World).
Context (text : str) (t : datetime) (issues : list Issue).
Context (loaded : list IssueEntry) (existing : list (nat * BatchInfo)).
Hypothesis Hkey : LINEAR_API_KEY cfg ≠ [].
Hypothesis Hparse : parse_status_doc (status_doc w) = Ok (text, t).
Hypothesis Hfetch : fetch_updated inp t = Ok issues.
Hypothesis Hload : load_existing_entries (linear_dir w) = Ok (loaded, existing).

#[local] Abbreviation plan := (reconcile loaded existing t issues).
#[local] Abbreviation out := (final_entries (final_state plan)).
#[local] Abbreviation dir' := (linear_dir (world_after (main cfg inp w))).

Lemma dir_after k : dir' !! k = file_after cfg inp (linear_dir w) plan k.
Proof.
  destruct (main_files cfg inp w text t issues loaded existing)
    as (_ & _ & ->); try done.
  apply files_after.
Qed.

(** Whatever the baseline, every file after the run has a header and
    blocks. *)
Lemma files_after_parse k text' :
  dir' !! k = Some text' → is_Some (parse_batch text').
Proof.
  rewrite dir_after. unfold file_after.
  destruct (dict_get k (changed plan)) as [b|].
  - intros [= <-].
    destruct (parse_batch _) eqn:Hp; [by eauto|].
    apply parse_batch_None in Hp. by rewrite render_batch_delimited in Hp.
  - case_decide; [done|]. by eapply load_existing_entries_parsed.
Qed.

Hypothesis Hinv : batch_invariant loaded existing.
Hypothesis Hteam : LF ∉ LINEAR_TEAM_NAME cfg.
Hypothesis Hgen : ∀ k, LF ∉ generated inp k.
Hypothesis Hissues : Forall (λ i, reads_back (entry_of i)) issues.

Lemma out_reads_back : Forall reads_back out.
Proof.
  apply Forall_forall. intros e He.
  destruct Hinv as (_ & Hnd & _).
  pose proof (merged_content loaded t Hnd issues e He) as Hc.
  unfold latest_markdown in Hc.
  destruct (last (filter _ issues)) as [i|] eqn:Hlast; simpl in Hc.
  - apply last_Some_elem_of, list_elem_of_filter in Hlast as [Hid Hin].
    eapply Forall_forall in Hissues; [|exact Hin].
    destruct e as [id c]. simpl in *. subst. exact Hissues.
  - pose proof (loaded_reads_back _ _ _ Hload) as Hall.
    by eapply Forall_forall in Hall.
Qed.

Lemma files_after_range k :
  is_Some (dir' !! k) ↔ 1 ≤ k ≤ length (new_batches plan).
Proof.
  rewrite dir_after, (files_exist_after _ _ _ _ Hinv) by done.
  rewrite dict_get_is_Some, plan_keys, elem_of_seq. lia.
Qed.

Lemma nth_batch_elem_of {A} (l : list A) i x :
  x ∈ (nth_batch l i).2 → x ∈ l.
Proof.
  unfold nth_batch. simpl. intros Hx.
  apply (elem_of_sublist _ _ _ Hx).
  etrans; [apply sublist_take|apply sublist_drop].
Qed.

Lemma files_after_members i :
  i < length (new_batches plan) →
  ∃ text', dir' !! S i = Some text' ∧
           ids (entries_in text') = ids (nth_batch out i).2.
Proof.
  intros Hi. rewrite plan_new_batches, batches_of_length in Hi.
  pose proof (dict_get_batches_of out i Hi) as Hget.
  rewrite <- plan_new_batches in Hget.
  pose proof (members_after_layout _ _ t issues Hinv (S i)) as Hm.
  rewrite Hget in Hm. simpl in Hm.
  rewrite dir_after. unfold file_after, members_after in *.
  rewrite dict_get_changed, Hget in *.
  case_decide as Hc.
  - eexists. split; [done|].
    destruct (parse_render_reads_back (LINEAR_TEAM_NAME cfg)
                (generated inp (S i)) (S i) (nth_batch out i).2)
      as (found & Hp & Hids); [done|done| |].
    { apply Forall_forall. intros e He%nth_batch_elem_of.
      pose proof out_reads_back as Hall.
      by eapply Forall_forall in Hall. }
    unfold entries_in. by rewrite Hp.
  - case_decide as Hs; [done|].
    apply dict_get_Some in Hm.
    destruct (load_files_inv _ _ _ Hload) as (_ & _ & Hex).
    rewrite Hex in Hm.
    apply list_elem_of_fmap in Hm as ([k text'] & [= Hk Hids] & Hin).
    simpl in *. subst k. apply elem_of_batch_files in Hin.
    by exists text'.
Qed.

Lemma next_load :
  ∃ loaded' existing',
    load_existing_entries dir' = Ok (loaded', existing') ∧
    ids loaded' = ids out ∧
    existing_ids existing' = batches_of (ids out).
Proof.
  destruct (load_existing_entries_total dir') as (loaded' & existing' & Hl).
  { intros k text'. apply files_after_parse. }
  exists loaded', existing'. split; [done|].
  destruct (load_files_inv _ _ _ Hl) as (_ & -> & ->).
  pose proof (batch_files_range dir' _ files_after_range) as Hkeys.
  assert (∀ i k text', batch_files dir' !! i = Some (k, text') →
            k = S i ∧ i < length (new_batches plan) ∧
            ids (entries_in text') = ids (nth_batch out i).2) as Hfile.
  { intros i k text' Hi.
    assert ((batch_files dir').*1 !! i = Some k) as Hk
      by by rewrite list_lookup_fmap, Hi.
    rewrite Hkeys in Hk. apply lookup_seq in Hk as [-> Hlt].
    split_and!; [done..|].
    destruct (files_after_members i Hlt) as (text2 & Ht2 & Hids).
    apply list_elem_of_lookup_2, elem_of_batch_files in Hi.
    change (1 + i) with (S i) in Hi. by simplify_eq. }
  assert ((λ f : nat * str, (f.1, ids (entries_in f.2))) <$> batch_files dir'
          = batches_of (ids out)) as Hex.
  { rewrite batches_of_fmap.
    apply list_eq. intros i. rewrite !list_lookup_fmap.
    pose proof (plan_new_batches loaded existing t issues) as Hnew.
    destruct (batch_files dir' !! i) as [[k text']|] eqn:Hi.
    - destruct (Hfile _ _ _ Hi) as (-> & Hlt & Hids).
      rewrite Hnew, batches_of_length in Hlt.
      rewrite batches_of_lookup by done.
      cbn [fmap option_fmap option_map fst snd]. unfold nth_batch.
      cbn [prod_map fst snd id]. do 2 f_equal. exact Hids.
    - apply lookup_ge_None in Hi.
      assert (length (batch_files dir') = length (batches_of out)) as Hlen.
      { rewrite <- (length_fmap fst), Hkeys, length_seq. by rewrite Hnew. }
      rewrite (proj2 (lookup_ge_None (batches_of out) i)); [done|lia]. }
  split; [|done].
  rewrite <- (batches_of_concat (ids out)), <- Hex.
  generalize (batch_files dir'). intros l.
  induction l as [|f l IH]; [done|].
  rewrite !fmap_cons. cbn [concat snd]. by rewrite fmap_app, IH.
Qed.

End next_run.

(** ** The summary line of a run *)

Lemma no_linebreak_app a b : no_linebreak a → no_linebreak b → no_linebreak (a ++ b).
Proof. intros Ha Hb. by apply Forall_app. Qed.

Lemma no_linebreak_join sep parts :
  no_linebreak sep → Forall no_linebreak parts → no_linebreak (join sep parts).
Proof.
  intros Hsep. induction 1 as [|p ps Hp Hps IH]; simpl; [constructor|].
  destruct ps as [|q ps]; [done|].
  by repeat apply no_linebreak_app.
Qed.

Lemma no_linebreak_digits s :
  Forall (λ c, is_digit c = true) s → no_linebreak s.
Proof.
  intros Hs. eapply Forall_impl; [exact Hs|].
  intros c. unfold is_digit, is_linebreak.
  rewrite andb_true_iff, !Nat.leb_le. intros [? ?].
  apply orb_false_iff. rewrite !andb_false_iff, !Nat.leb_gt. lia.
Qed.

Lemma no_linebreak_display names :
  Forall no_linebreak names → no_linebreak (display names).
Proof.
  intros Hall. unfold display. apply no_linebreak_app.
  - apply no_linebreak_join; [by computed|].
    apply Forall_take. unfold sorted. by rewrite merge_sort_Permutation.
  - case_match; [by computed|constructor].
Qed.

Ltac one_line :=
  repeat first
    [ assumption
    | by computed
    | apply no_linebreak_display
    | apply no_linebreak_digits, str_of_nat_digits
    | apply no_linebreak_join
    | apply no_linebreak_app ].

Lemma summarize_changes_one_line today updates new_issues files :
  no_linebreak today → Forall no_linebreak updates →
  Forall no_linebreak new_issues → Forall no_linebreak files →
  no_linebreak (summarize_changes today updates new_issues files).
Proof.
  intros Ht Hu Hn Hf. unfold summarize_changes.
  apply no_linebreak_app; [by computed|].
  apply no_linebreak_app; [done|].
  apply no_linebreak_app; [by computed|].
  apply no_linebreak_app.
  - apply no_linebreak_join; [by computed|].
    destruct updates as [|u us], new_issues as [|n ns]; cbn [app];
      repeat (constructor; [one_line|]); constructor.
  - destruct files as [|f fs]; [constructor|]. one_line.
Qed.

(** The summary line is a bulleted line, whatever it reports. *)
Lemma summarize_changes_entry today updates new_issues files :
  is_entry (summarize_changes today updates new_issues files) = true.
Proof.
  unfold summarize_changes, is_entry.
  set (parts := match _ ++ _ with [] => _ | _ => _ end).
  set (files_part := match files with [] => _ | _ => _ end).
  change (lit ": " ++ join (lit ", ") parts ++ files_part)
    with (":"%char :: " "%char :: join (lit ", ") parts ++ files_part).
  rewrite (app_assoc (lit "- ") today).
  assert (strip ((lit "- " ++ today)
                 ++ ":"%char :: " "%char :: join (lit ", ") parts ++ files_part)
          = (lit "- " ++ today)
            ++ ":"%char :: rstrip (" "%char :: join (lit ", ") parts
                                   ++ files_part)) as ->.
  { by apply strip_heading_line. }
  done.
Qed.

(** * Further properties *)

(** X1: a run never leaves a batch file that the next run rejects: when
    the batch files load before the run, they load after it, whatever the
    baseline, the incoming records and the outcome of the run. *)
Theorem run_keeps_batches_loadable `{Datetime} (cfg : Config) (inp : RunInput)
    (w : World) (loaded : list IssueEntry) (existing : list (nat * BatchInfo)) :
  load_existing_entries (linear_dir w) = Ok (loaded, existing) →
  ∃ loaded' existing',
    load_existing_entries (linear_dir (world_after (main cfg inp w)))
    = Ok (loaded', existing').
Proof.
  intros Hload.
  destruct (main_aborts_or_runs cfg inp w)
    as [[e ->]|(text & t & issues & loaded0 & existing0 & Hkey & Hparse
                & Hfetch & Hload0)].
  - simpl. eauto.
  - apply load_existing_entries_total. intros k text'.
    by eapply files_after_parse.
Qed.

(** X2: the batch invariant is kept from one run to the next.  When the
    baseline satisfies it, the team name and the printed clock hold no
    line feed and every incoming record is one the parser reads back under
    its identifier, the batch files after the run load without an error,
    the identifiers loaded are those of the merged sequence in its order,
    and what is loaded satisfies the batch invariant. *)
Theorem run_keeps_batch_invariant `{Datetime} (cfg : Config) (inp : RunInput)
    (w : World) (text : str) (t : datetime) (issues : list Issue)
    (loaded : list IssueEntry) (existing : list (nat * BatchInfo)) :
  LINEAR_API_KEY cfg ≠ [] →
  parse_status_doc (status_doc w) = Ok (text, t) →
  fetch_updated inp t = Ok issues →
  load_existing_entries (linear_dir w) = Ok (loaded, existing) →
  batch_invariant loaded existing →
  LF ∉ LINEAR_TEAM_NAME cfg → (∀ k, LF ∉ generated inp k) →
  Forall (λ i, reads_back (entry_of i)) issues →
  ∃ loaded' existing',
    load_existing_entries (linear_dir (world_after (main cfg inp w)))
    = Ok (loaded', existing') ∧
    ids loaded'
    = ids (final_entries (final_state (reconcile loaded existing t issues))) ∧
    batch_invariant loaded' existing'.
Proof.
  intros Hkey Hparse Hfetch Hload Hinv Hteam Hgen Hissues.
  destruct (next_load cfg inp w text t issues loaded existing)
    as (loaded' & existing' & Hload' & Hids & Hex); try done.
  exists loaded', existing'. split_and!; [done..|].
  pose proof Hinv as (Hsorted & Hnd & _).
  split_and!.
  - apply (StronglySorted_keys
             (final_entries (final_state (reconcile loaded existing t issues)))).
    + unfold numeric_id.
      rewrite !(list_fmap_compose identifier get_numeric_identifier).
      by rewrite Hids.
    + by apply merged_sorted.
  - rewrite Hids. by apply merged_ids_nodup.
  - by rewrite Hids.
Qed.

(** X3: no churn on the next run.  After a run as in X2, a run that
    fetches no record writes no batch file and unlinks none, and leaves
    the directory of the batch files as the first run left it. *)
Theorem next_run_rewrites_nothing `{Datetime} (cfg : Config)
    (inp inp' : RunInput) (w : World) (text : str) (t : datetime)
    (issues : list Issue) (loaded : list IssueEntry)
    (existing : list (nat * BatchInfo)) :
  LINEAR_API_KEY cfg ≠ [] →
  parse_status_doc (status_doc w) = Ok (text, t) →
  fetch_updated inp t = Ok issues →
  load_existing_entries (linear_dir w) = Ok (loaded, existing) →
  batch_invariant loaded existing →
  LF ∉ LINEAR_TEAM_NAME cfg → (∀ k, LF ∉ generated inp k) →
  Forall (λ i, reads_back (entry_of i)) issues →
  (∀ t', fetch_updated inp' t' = Ok []) →
  let w' := world_after (main cfg inp w) in
  written (main cfg inp' w') = [] ∧ removed (main cfg inp' w') = [] ∧
  linear_dir (world_after (main cfg inp' w')) = linear_dir w'.
Proof.
  intros Hkey Hparse Hfetch Hload Hinv Hteam Hgen Hissues Hnone w'.
  destruct (next_load cfg inp w text t issues loaded existing)
    as (loaded' & existing' & Hload' & Hids & Hex); try done.
  assert (batch_invariant loaded' existing') as Hinv'.
  { pose proof Hinv as (Hsorted & Hnd & _). split_and!.
    - apply (StronglySorted_keys
               (final_entries
                  (final_state (reconcile loaded existing t issues)))).
      + unfold numeric_id.
        rewrite !(list_fmap_compose identifier get_numeric_identifier).
        by rewrite Hids.
      + by apply merged_sorted.
    - rewrite Hids. by apply merged_ids_nodup.
    - by rewrite Hids. }
  destruct (main_aborts_or_runs cfg inp' w')
    as [[e ->]|(text' & t' & issues' & loaded0 & existing0 & Hkey' & Hparse'
                & Hfetch' & Hload0)]; [done|].
  rewrite Hnone in Hfetch'. injection Hfetch' as <-.
  fold w' in Hload'. rewrite Hload' in Hload0. injection Hload0 as <- <-.
  destruct (main_files cfg inp' w' text' t' [] loaded' existing')
    as (-> & -> & ->); try done.
  destruct (reconcile_nothing loaded' existing' t' Hinv') as [-> ->].
  done.
Qed.

(** X4: the summary of a run in the status document.  In a status
    document laid out as the script keeps it, when the printed date, the
    incoming identifiers and the paths of the batch files are texts of one
    line, the run succeeds and the line that [summarize_changes] makes
    of the identifiers touched, the new identifiers and the files written
    is the first bulleted line below the heading of the summaries, in the
    place of the first run of bulleted lines that stood there.  When no
    record came in and the baseline satisfies the batch invariant, that
    line reads [- <date>: no changes]. *)
Theorem run_records_summary `{Datetime} `{!DatetimeLaws} (cfg : Config)
    (inp : RunInput) (w : World) (text : str) (t : datetime)
    (issues : list Issue) (loaded : list IssueEntry)
    (existing : list (nat * BatchInfo)) :
  LINEAR_API_KEY cfg ≠ [] →
  parse_status_doc (status_doc w) = Ok (text, t) →
  fetch_updated inp t = Ok issues →
  load_existing_entries (linear_dir w) = Ok (loaded, existing) →
  status_ok text →
  no_linebreak (today inp) →
  Forall (λ i, no_linebreak (issue_identifier i)) issues →
  (∀ k, no_linebreak (relative_path cfg k)) →
  let st := final_state (reconcile loaded existing t issues) in
  let summary :=
    summarize_changes (today inp) (touched_identifiers st)
      (new_identifiers st) (relative_path cfg <$> written (main cfg inp w)) in
  ∃ text',
    raised (main cfg inp w) = None ∧
    status_doc (world_after (main cfg inp w)) = Some text' ∧
    summary_entries DAILY_SUMMARIES text'
    = summary :: filter (λ l, is_entry l = true)
        (below_first_run (section_body DAILY_SUMMARIES (splitlines text))) ∧
    (issues = [] → batch_invariant loaded existing →
     summary = lit "- " ++ today inp ++ lit ": no changes").
Proof.
  intros Hkey Hparse Hfetch Hload Hok Htoday Hids Hpaths st summary.
  destruct (main_files cfg inp w text t issues loaded existing)
    as (Hw & _ & _); try done.
  pose proof (main_status cfg inp w text t issues loaded existing
                Hkey Hparse Hfetch Hload) as Hstatus.
  assert (∀ id, id ∈ touched_identifiers st ∨ id ∈ new_identifiers st →
                no_linebreak id) as Hid.
  { intros id Hin. apply reconcile_touched_or_new in Hin.
    apply list_elem_of_fmap in Hin as (i & -> & Hi).
    by eapply Forall_forall in Hids. }
  assert (no_linebreak summary) as Hline.
  { apply summarize_changes_one_line; [done|..].
    - apply Forall_forall. intros id Hin. apply Hid. by left.
    - apply Forall_forall. intros id Hin. apply Hid. by right.
    - apply Forall_fmap, Forall_forall. intros k _. apply Hpaths. }
  destruct (linear_summary_entries text
              (N.max (latest_updated_at st) (now inp)) summary Hok
              (summarize_changes_entry _ _ _ _) Hline)
    as (text' & Hup & Hentries).
  unfold summary in Hup. rewrite Hw in Hup.
  fold st in Hstatus. rewrite Hup in Hstatus.
  destruct Hstatus as [Hraised Hdoc].
  exists text'. split_and!; [done..|].
  intros -> Hinv. unfold summary. rewrite Hw.
  destruct (reconcile_nothing loaded existing t Hinv) as [-> _].
  done.
Qed.

(** X5: how a run fails.  Without the key the run is over at once with
    the error of the missing key, and without the status document with
    the error of the missing document.  A run that fails has either
    written and unlinked nothing and left every file as it was, or it has
    failed with the error of the missing section of the summaries, after
    the two loops over the batch files, and left the status document as it
    was.  The error of the missing label is never raised by
    [update_status_doc] on a document that [parse_status_doc] has
    accepted: the field that was read is in a line of the document. *)
Theorem run_failures `{Datetime} (cfg : Config) (inp : RunInput) (w : World) :
  (LINEAR_API_KEY cfg = [] →
   main cfg inp w = aborted w (LinearSyncError ApiKeyNotSet)) ∧
  (LINEAR_API_KEY cfg ≠ [] → status_doc w = None →
   main cfg inp w = aborted w (LinearSyncError StatusDocNotFound)) ∧
  (∀ e, raised (main cfg inp w) = Some e →
     main cfg inp w = aborted w e
     ∨ (e = LinearSyncError SectionNotLocated ∧
        status_doc (world_after (main cfg inp w)) = status_doc w)) ∧
  (∀ text t ts summary,
     parse_status_doc (Some text) = Ok (text, t) →
     update_status_doc text ts summary
     ≠ Raise (LinearSyncError LabelNotLocated)).
Proof.
  assert (Hlabel : ∀ text t ts summary,
            parse_status_doc (Some text) = Ok (text, t) →
            update_status_doc text ts summary
            ≠ Raise (LinearSyncError LabelNotLocated)).
  { intros text t ts summary Hparse.
    unfold update_status_doc, updated_lines.
    destruct (replace_timestamp _ _ (splitlines text)) as [lines|] eqn:Hrep.
    - by destruct (index DAILY_SUMMARIES lines).
    - exfalso. apply replace_timestamp_None in Hrep.
      unfold parse_status_doc in Hparse.
      destruct (Re.search_field TIMESTAMP_LABEL text) as [g|] eqn:Hg; [|done].
      apply search_field_contains in Hg.
      apply contains_line in Hg; [|by computed|done].
      apply Exists_exists in Hg as (l & Hl & Hc).
      eapply Forall_forall in Hrep; [|exact Hl]. congruence. }
  split_and!.
  - intros Hkey. unfold main. by rewrite Hkey.
  - intros Hkey Hdoc. unfold main.
    destruct (LINEAR_API_KEY cfg); [done|]. by rewrite Hdoc.
  - intros e He.
    destruct (main_aborts_or_runs cfg inp w)
      as [[e' Hab]|(text & t & issues & loaded & existing & Hkey & Hparse
                    & Hfetch & Hload)].
    { left. rewrite Hab in He. injection He as <-. done. }
    right.
    pose proof (main_status cfg inp w text t issues loaded existing
                  Hkey Hparse Hfetch Hload) as Hstatus.
    assert (status_doc w = Some text) as Hdoc.
    { unfold parse_status_doc in Hparse.
      destruct (status_doc w) as [text0|]; [|done].
      destruct (Re.search_field TIMESTAMP_LABEL text0); [|done].
      destruct (parse_iso_datetime _); [|done]. by injection Hparse as -> _. }
    rewrite Hdoc in Hparse.
    pose proof (Hlabel text t (N.max (latest_updated_at
                  (final_state (reconcile loaded existing t issues)))
                  (now inp))
                  (summarize_changes (today inp)
                     (touched_identifiers
                        (final_state (reconcile loaded existing t issues)))
                     (new_identifiers
                        (final_state (reconcile loaded existing t issues)))
                     (relative_path cfg
                        <$> (changed (reconcile loaded existing t issues)).*1))
                  Hparse) as Hnot.
    destruct (update_status_doc _ _ _) as [text'|e'] eqn:Hup.
    { destruct Hstatus as [Hr _]. congruence. }
    destruct Hstatus as [Hr Hsame]. split; [|done].
    assert (e' = e) as -> by congruence. clear He Hr.
    unfold update_status_doc, updated_lines in Hup.
    destruct (replace_timestamp _ _ (splitlines text)) as [lines|] eqn:Hrep.
    + destruct (index DAILY_SUMMARIES lines); simpl in Hup; congruence.
    + simpl in Hup. congruence.
  - exact Hlabel.
Qed.

(** * Further properties on sample data *)

Section more_sample_runs.
#[local] Existing Instance Calendar.calendar.
#[local] Existing Instance CalendarLaws.calendar_laws.

(** The sample issues are read back under their identifiers. *)
Lemma sample_incoming_reads_back :
  Forall (λ i, reads_back (entry_of i)) Sample.incoming.
Proof.
  repeat constructor.
  - exists (lit "# ENG-2: Logout button, again").
    split_and!; [reflexivity|by computed|reflexivity].
  - exists (lit "# ENG-3: Profile page").
    split_and!; [reflexivity|by computed|reflexivity].
Qed.

Lemma sample_status_ok : status_ok Sample.status.
Proof.
  status_layout [lit "# Linear Sync Status"; []] (lit "- ")
    (lit "`lastSyncTimestamp`: 2024-01-01T00:00:00Z")
    [[]; lit "## Daily Summaries"; []; lit "- 2024-01-01: no changes"].
Qed.

(** X1 on the sample run. *)
Lemma run_keeps_batches_loadable_witness :
  load_existing_entries (linear_dir Sample.world)
  = Ok (Sample.baseline, Sample.existing) ∧
  ∃ loaded' existing',
    load_existing_entries
      (linear_dir (world_after
         (main Sample.cfg (Sample.input Sample.incoming Sample.two_hours_later)
               Sample.world)))
    = Ok (loaded', existing').
Proof.
  assert (Hload : load_existing_entries (linear_dir Sample.world)
                  = Ok (Sample.baseline, Sample.existing))
    by (vm_compute; reflexivity).
  split; [exact Hload|].
  exact (run_keeps_batches_loadable Sample.cfg
           (Sample.input Sample.incoming Sample.two_hours_later)
           Sample.world Sample.baseline Sample.existing Hload).
Defined.

(** X2 on the sample run: the three entries after the run are loaded in
    their order and satisfy the batch invariant. *)
Lemma run_keeps_batch_invariant_witness :
  batch_invariant Sample.baseline Sample.existing ∧
  ∃ loaded' existing',
    load_existing_entries
      (linear_dir (world_after
         (main Sample.cfg (Sample.input Sample.incoming Sample.two_hours_later)
               Sample.world)))
    = Ok (loaded', existing') ∧
    ids loaded'
    = ids (final_entries (final_state
             (reconcile Sample.baseline Sample.existing Sample.new_year
                        Sample.incoming))) ∧
    batch_invariant loaded' existing'.
Proof.
  assert (Hinv : batch_invariant Sample.baseline Sample.existing)
    by (by computed).
  split; [exact Hinv|].
  refine (run_keeps_batch_invariant Sample.cfg
    (Sample.input Sample.incoming Sample.two_hours_later) Sample.world
    Sample.status Sample.new_year Sample.incoming Sample.baseline
    Sample.existing _ _ _ _ Hinv _ _ sample_incoming_reads_back).
  - done.
  - vm_compute. reflexivity.
  - reflexivity.
  - vm_compute. reflexivity.
  - by computed.
  - intros k. by computed.
Defined.

(** X3 on the sample world: the run with the two sample issues, then a
    run that fetches nothing; the second run succeeds and touches no batch
    file. *)
Lemma next_run_rewrites_nothing_witness :
  let w' := world_after
              (main Sample.cfg
                    (Sample.input Sample.incoming Sample.two_hours_later)
                    Sample.world) in
  let r := main Sample.cfg (Sample.input [] Sample.two_hours_later) w' in
  raised r = None ∧
  written r = [] ∧ removed r = [] ∧ linear_dir (world_after r) = linear_dir w'.
Proof.
  split; [vm_compute; reflexivity|].
  refine (next_run_rewrites_nothing Sample.cfg
    (Sample.input Sample.incoming Sample.two_hours_later)
    (Sample.input [] Sample.two_hours_later) Sample.world
    Sample.status Sample.new_year Sample.incoming Sample.baseline
    Sample.existing _ _ _ _ _ _ _ sample_incoming_reads_back _).
  - done.
  - vm_compute. reflexivity.
  - reflexivity.
  - vm_compute. reflexivity.
  - by computed.
  - by computed.
  - intros k. by computed.
  - reflexivity.
Defined.

(** X4 on the sample world, for a run that fetches nothing: the summary
    is the one bulleted line of the section and reads "no changes". *)
Lemma run_records_summary_witness :
  status_ok Sample.status ∧ batch_invariant Sample.baseline Sample.existing ∧
  ∃ text',
    raised (main Sample.cfg (Sample.input [] Sample.two_hours_later)
                 Sample.world) = None ∧
    status_doc (world_after
      (main Sample.cfg (Sample.input [] Sample.two_hours_later) Sample.world))
    = Some text' ∧
    summary_entries DAILY_SUMMARIES text'
    = [lit "- 2024-01-01: no changes"].
Proof.
  assert (Hinv : batch_invariant Sample.baseline Sample.existing)
    by (by computed).
  split; [exact sample_status_ok|]. split; [exact Hinv|].
  destruct (run_records_summary Sample.cfg
    (Sample.input [] Sample.two_hours_later) Sample.world
    Sample.status Sample.new_year [] Sample.baseline Sample.existing)
    as (text' & Hr & Hdoc & Hentries & Hnone).
  - done.
  - vm_compute. reflexivity.
  - reflexivity.
  - vm_compute. reflexivity.
  - exact sample_status_ok.
  - by computed.
  - constructor.
  - intros k. unfold Sample.cfg. cbn [relative_path].
    apply no_linebreak_app; [by computed|].
    apply no_linebreak_app; [|by computed].
    apply no_linebreak_digits, str_of_nat_digits.
  - exists text'. split_and!; [exact Hr|exact Hdoc|].
    rewrite Hentries, (Hnone eq_refl Hinv). vm_compute. reflexivity.
Defined.

End more_sample_runs.
